(** * array-pool: segmented list, index pool and growable array pool

    A shallow embedding of the Go package [arraypool]
    (github.com/Lei2050/array-pool) and the properties of its
    allocation and indexing subsystem.

    Modelling conventions.
    - Go's [int] is a Z.  The counters and indices ([count], [alloc],
      [segmentIdx]) number slots that exist in memory and move by one;
      they are plain Z.  Where the code computes a new size ([nextCap],
      [cap++]) or works on the bit pattern of a [uint]
      ([NearestPowerOf2]), the 64-bit wrap-around is written out.
    - A slice is a list; indexing outside it panics, as the Go runtime does.
      Memory is not bounded: [make] returns for every length that is not
      negative.
    - A [panic] ends the call: operations return an [outcome].
    - [map[int]struct{}] is a [gset Z].  Ranging over a map yields its keys
      in an unspecified order, so the two pool allocators, which take the
      first key of such a range, are relations between a state and the
      outcomes it may produce.
    - A pointer [*T] into a segment is the pair (segment, offset) it
      addresses; a pointer into the contiguous array is its index. *)

From Stdlib Require Import ZArith Lia List.
From stdpp Require Import base numbers list gmap sets.

Local Open Scope Z_scope.
#[local] Set Warnings "-clear-no-such-hyp".

(** ** Go runtime: panics, machine integers, slices *)

Module Go.

Inductive panic : Type :=
| OutOfBound                  (* panic("out of bound") *)
| CapLessThanZero             (* panic("cap is less than zero") *)
| FreeInvalidId (id pos : Z)  (* panic(fmt.Errorf("free invalid id:%d, next alloc pos:%d", id, ap.alloc)) *)
| IndexOutOfRange             (* runtime error: index out of range *)
| MakeLenOutOfRange.          (* runtime error: makeslice: len out of range *)

Inductive outcome (A : Type) : Type :=
| Ret (a : A)
| Panic (e : panic).
Arguments Ret {A} a.
Arguments Panic {A} e.

(** Sequencing: the first panic ends the call. *)
#[global] Instance outcome_bind : MBind outcome := λ A B k m,
  match m with
  | Ret a => k a
  | Panic e => Panic e
  end.

(** The zero value every Go type has. *)
Class Zero (T : Type) := zero : T.
#[global] Instance Z_Zero : Zero Z := 0.

(** [bits.UintSize]: the width of [int] and [uint]. *)
Definition uint_size : Z := 64.

(** Two's complement wrap-around of [int] and [uint]. *)
Definition wrap_int (z : Z) : Z := (z + 2 ^ 63) mod 2 ^ 64 - 2 ^ 63.
Definition wrap_uint (z : Z) : Z := z mod 2 ^ 64.

(** [len(s)] *)
Definition len {A} (s : list A) : Z := Z.of_nat (length s).

(** [s[i]]: a run-time panic outside [0, len(s)). *)
Definition index {A} (s : list A) (i : Z) : outcome A :=
  if i <? 0 then Panic IndexOutOfRange
  else match s !! Z.to_nat i with
       | Some a => Ret a
       | None => Panic IndexOutOfRange
       end.

(** [s[i] = v], once [s[i]] is known to exist. *)
Definition update {A} (s : list A) (i : Z) (v : A) : list A :=
  <[Z.to_nat i := v]> s.

(** [make([]T, n)] *)
Definition make {T} `{Zero T} (n : Z) : outcome (list T) :=
  if n <? 0 then Panic MakeLenOutOfRange
  else Ret (replicate (Z.to_nat n) zero).

(** [copy(dst, src)]: the first min(len(dst), len(src)) elements. *)
Definition copy {A} (dst src : list A) : list A :=
  take (length dst) src ++ drop (length src) dst.

(** [bits.TrailingZeros(x)] of math/bits: the number of trailing zero
    bits of [x], and [UintSize] for [x = 0]. *)
Fixpoint trailing (fuel : nat) (x : Z) : Z :=
  match fuel with
  | O => 0
  | S f => if Z.testbit x 0 then 0 else 1 + trailing f (Z.shiftr x 1)
  end.

Definition TrailingZeros (x : Z) : Z :=
  if x =? 0 then uint_size else trailing (Z.to_nat uint_size) x.

End Go.

Export Go.

(** ** The segmented list: [Segment], [ArrayList] *)

Module Segment.
Record t (T : Type) : Type := mk { arr : list T; count : Z }.
Arguments mk {T} arr count.
Arguments arr {T} _.
Arguments count {T} _.
End Segment.

Module ArrayList.

Definition DefaultSegmentSize : Z := 128.

(** [func NearestPowerOf2(n uint) uint] *)
Definition NearestPowerOf2 (n : Z) : Z :=
  let n := wrap_uint (n - 1) in
  let n := Z.lor n (Z.shiftr n 1) in
  let n := Z.lor n (Z.shiftr n 2) in
  let n := Z.lor n (Z.shiftr n 4) in
  let n := Z.lor n (Z.shiftr n 8) in
  let n := Z.lor n (Z.shiftr n 16) in
  wrap_uint (n + 1).

Record t (T : Type) : Type := mk {
  defaultValue : T;
  count : Z;
  segments : list (Segment.t T);
  segmentIdx : Z;
  segmentSize : Z;
  segmentSizeMask : Z;
  segmentSizeShift : Z
}.
Arguments mk {T}.
Arguments defaultValue {T} _.
Arguments count {T} _.
Arguments segments {T} _.
Arguments segmentIdx {T} _.
Arguments segmentSize {T} _.
Arguments segmentSizeMask {T} _.
Arguments segmentSizeShift {T} _.

(** The slot a [*T] returned by the list points at. *)
Record ptr : Type := Ptr { seg : Z; off : Z }.

Section Ops.
Context {T : Type} `{Zero T}.

Definition with_segments (al : t T) (ss : list (Segment.t T)) : t T :=
  mk (defaultValue al) (count al) ss (segmentIdx al)
     (segmentSize al) (segmentSizeMask al) (segmentSizeShift al).

Definition with_segmentIdx (al : t T) (i : Z) : t T :=
  mk (defaultValue al) (count al) (segments al) i
     (segmentSize al) (segmentSizeMask al) (segmentSizeShift al).

Definition with_count (al : t T) (c : Z) : t T :=
  mk (defaultValue al) c (segments al) (segmentIdx al)
     (segmentSize al) (segmentSizeMask al) (segmentSizeShift al).

(** [func NewArrayList[T any](segmentSize int) *ArrayList[T]] *)
Definition NewArrayList (segmentSize : Z) : t T :=
  let segmentSize :=
    if segmentSize <=? 0 then DefaultSegmentSize else segmentSize in
  let size := wrap_int (NearestPowerOf2 (wrap_uint segmentSize)) in
  mk zero 0 [] 0 size (size - 1) (TrailingZeros (wrap_uint size)).

(** [al.segments = append(al.segments, Segment[T]{arr: make([]T, al.segmentSize)})] *)
Definition append_segment (al : t T) : outcome (t T) :=
  a ← make (segmentSize al);
  Ret (with_segments al (segments al ++ [Segment.mk a 0])).

(** [func (al *ArrayList[T]) Alloc() *T] *)
Definition Alloc (al : t T) : outcome (ptr * t T) :=
  al ← (if len (segments al) =? 0 then append_segment al
        else
          cur ← index (segments al) (segmentIdx al);
          if Segment.count cur =? segmentSize al then
            al ← (if segmentIdx al =? len (segments al) - 1
                  then append_segment al else Ret al);
            Ret (with_segmentIdx al (segmentIdx al + 1))
          else Ret al);
  segment ← index (segments al) (segmentIdx al);
  let segment := Segment.mk (Segment.arr segment) (Segment.count segment + 1) in
  let al := with_segments al (update (segments al) (segmentIdx al) segment) in
  let al := with_count al (count al + 1) in
  _ ← index (Segment.arr segment) (Segment.count segment - 1);
  Ret (Ptr (segmentIdx al) (Segment.count segment - 1), al).

(** [*p], for a pointer [p] into the list *)
Definition load (al : t T) (p : ptr) : outcome T :=
  s ← index (segments al) (seg p);
  index (Segment.arr s) (off p).

(** [*p = v] *)
Definition store (al : t T) (p : ptr) (v : T) : outcome (t T) :=
  s ← index (segments al) (seg p);
  _ ← index (Segment.arr s) (off p);
  Ret (with_segments al
         (update (segments al) (seg p)
            (Segment.mk (update (Segment.arr s) (off p) v) (Segment.count s)))).

(** [func (al *ArrayList[T]) Add(v T) *T] *)
Definition Add (v : T) (al : t T) : outcome (ptr * t T) :=
  r ← Alloc al;
  al ← store (snd r) (fst r) v;
  Ret (fst r, al).

(** [func (al *ArrayList[T]) GetRef(idx int) *T] *)
Definition GetRef (al : t T) (idx : Z) : outcome ptr :=
  if idx >=? count al then Panic OutOfBound
  else
    let p := Ptr (Z.shiftr idx (segmentSizeShift al))
                 (Z.land idx (segmentSizeMask al)) in
    _ ← load al p;
    Ret p.

(** [func (al *ArrayList[T]) Get(idx int) T] *)
Definition Get (al : t T) (idx : Z) : outcome T :=
  if idx >=? count al then Panic OutOfBound
  else load al (Ptr (Z.shiftr idx (segmentSizeShift al))
                    (Z.land idx (segmentSizeMask al))).

(** [func (al *ArrayList[T]) RemoveLast()] *)
Definition RemoveLast (al : t T) : outcome (t T) :=
  if count al <=? 0 then Ret al
  else
    segment ← index (segments al) (segmentIdx al);
    let segment := Segment.mk (Segment.arr segment) (Segment.count segment - 1) in
    let al := with_segments al (update (segments al) (segmentIdx al) segment) in
    let al := with_count al (count al - 1) in
    if Segment.count segment >? 0 then Ret al
    else
      let lastEmpty := segmentIdx al in
      let al := if segmentIdx al >? 0
                then with_segmentIdx al (segmentIdx al - 1) else al in
      if len (segments al) - 1 =? lastEmpty then Ret al
      else
        let lastEmpty := lastEmpty + 1 in
        _ ← index (segments al) lastEmpty;
        let al := with_segments al
                    (update (segments al) lastEmpty (Segment.mk [] 0)) in
        Ret (with_segments al (take (Z.to_nat lastEmpty) (segments al))).

(** [func (al *ArrayList[T]) FastRemoveAt(idx int)] *)
Definition FastRemoveAt (al : t T) (idx : Z) : outcome (t T) :=
  lastPtr ← GetRef al (count al - 1);
  p ← GetRef al idx;
  v ← load al lastPtr;
  al ← store al p v;
  al ← store al lastPtr (defaultValue al);
  RemoveLast al.

(** [func (al *ArrayList[T]) Clear()] *)
Definition Clear (al : t T) : t T :=
  mk (defaultValue al) 0 [] 0
     (segmentSize al) (segmentSizeMask al) (segmentSizeShift al).

(** [func (al *ArrayList[T]) Count() int] *)
Definition Count (al : t T) : Z := count al.

(** [n] calls of [Alloc] in a row. *)
Fixpoint AllocN (n : nat) (al : t T) : outcome (t T) :=
  match n with
  | O => Ret al
  | S n => r ← Alloc al; AllocN n r.2
  end.

(** *** The shape of a list

    Every segment owns an array of [size] slots; laid end to end the
    segments hold the [c] elements of the list front to back: full
    segments, then the cursor segment, then empty ones. *)
Fixpoint wf_segments (size c : Z) (ss : list (Segment.t T)) : Prop :=
  match ss with
  | [] => True
  | s :: ss =>
      len (Segment.arr s) = size ∧
      Segment.count s = Z.max 0 (Z.min size c) ∧
      wf_segments size (c - size) ss
  end.

(** The list invariant: the size is the power of two that shift and mask
    stand for; the cursor is a segment of the list (segment 0 of an empty
    list) with at most one segment behind it; the segments before the
    cursor are full, the cursor segment holds the rest of the [count]
    elements, at least one unless it is segment 0, and the segment behind
    the cursor is empty. *)
Record wf (al : t T) : Prop := Wf {
  wf_shift : 0 ≤ segmentSizeShift al;
  wf_size : segmentSize al = 2 ^ segmentSizeShift al;
  wf_mask : segmentSizeMask al = segmentSize al - 1;
  wf_idx : 0 ≤ segmentIdx al;
  wf_nil : len (segments al) = 0 → segmentIdx al = 0 ∧ count al = 0;
  wf_len : len (segments al) ≠ 0 →
           segmentIdx al < len (segments al) ≤ segmentIdx al + 2;
  wf_count : segmentIdx al * segmentSize al ≤ count al
             ≤ segmentIdx al * segmentSize al + segmentSize al;
  wf_cursor : 0 < segmentIdx al →
              segmentIdx al * segmentSize al < count al;
  wf_segs : wf_segments (segmentSize al) (count al) (segments al)
}.

(** The lists a caller can build: a new list of a segment size up to 2^32
    (where the rounding of [NearestPowerOf2] is sound), changed by the
    operations and by writes through the pointers they return. *)
Inductive reachable : t T → Prop :=
| reachable_new n : n ≤ 2 ^ 32 → reachable (NewArrayList n)
| reachable_Alloc al r :
    reachable al → Alloc al = Ret r → reachable r.2
| reachable_store al p v al' :
    reachable al → store al p v = Ret al' → reachable al'
| reachable_RemoveLast al al' :
    reachable al → RemoveLast al = Ret al' → reachable al'
| reachable_FastRemoveAt al idx al' :
    reachable al → FastRemoveAt al idx = Ret al' → reachable al'
| reachable_Clear al : reachable al → reachable (Clear al).

(** The lists reached from [al0] by the operations and by writes through
    the pointers they return. *)
Inductive reaches (al0 : t T) : t T → Prop :=
| reaches_refl : reaches al0 al0
| reaches_Alloc al r :
    reaches al0 al → Alloc al = Ret r → reaches al0 r.2
| reaches_store al p v al' :
    reaches al0 al → store al p v = Ret al' → reaches al0 al'
| reaches_RemoveLast al al' :
    reaches al0 al → RemoveLast al = Ret al' → reaches al0 al'
| reaches_FastRemoveAt al idx al' :
    reaches al0 al → FastRemoveAt al idx = Ret al' → reaches al0 al'
| reaches_Clear al : reaches al0 al → reaches al0 (Clear al).

(** [al'] has the default value and the segment size, mask and shift of
    [al]. *)
Definition same_geometry (al al' : t T) : Prop :=
  defaultValue al' = defaultValue al ∧
  segmentSize al' = segmentSize al ∧
  segmentSizeMask al' = segmentSizeMask al ∧
  segmentSizeShift al' = segmentSizeShift al.

(** Every slot behind the elements of the list holds the zero value. *)
Definition fresh_tail (al : t T) : Prop :=
  ∀ p v, load al p = Ret v →
         count al ≤ seg p * segmentSize al + off p → v = zero.

End Ops.

End ArrayList.

(** ** The earlier revision of the segmented list

    The repository keeps the list as it was before it got the segment
    cursor: it has a [sentinel] field for the zero value, [NewArrayList]
    panics for a segment size that is not positive, the last segment is
    the one in use, and [RemoveLast] gives up a segment as soon as it is
    drained.  [Segment] and [NearestPowerOf2] are the same in both
    revisions. *)

Module ArrayList0.

Record t (T : Type) : Type := mk {
  sentinel : T;
  count : Z;
  segments : list (Segment.t T);
  segmentSize : Z;
  segmentSizeMask : Z;
  segmentSizeShift : Z
}.
Arguments mk {T}.
Arguments sentinel {T} _.
Arguments count {T} _.
Arguments segments {T} _.
Arguments segmentSize {T} _.
Arguments segmentSizeMask {T} _.
Arguments segmentSizeShift {T} _.

Section Ops.
Context {T : Type} `{Zero T}.

Definition with_segments (al : t T) (ss : list (Segment.t T)) : t T :=
  mk (sentinel al) (count al) ss
     (segmentSize al) (segmentSizeMask al) (segmentSizeShift al).

Definition with_count (al : t T) (c : Z) : t T :=
  mk (sentinel al) c (segments al)
     (segmentSize al) (segmentSizeMask al) (segmentSizeShift al).

(** [func NewArrayList[T any](segmentSize int) *ArrayList[T]]; [None] is
    [panic("segmentSize must be greater than 0")]. *)
Definition NewArrayList (segmentSize : Z) : option (t T) :=
  if segmentSize <=? 0 then None
  else
    let size := wrap_int (ArrayList.NearestPowerOf2 (wrap_uint segmentSize)) in
    Some (mk zero 0 [] size (size - 1) (TrailingZeros (wrap_uint size))).

(** [func (al *ArrayList[T]) Alloc() *T] *)
Definition Alloc (al : t T) : outcome (ArrayList.ptr * t T) :=
  full ← (if len (segments al) =? 0 then Ret true
          else
            last ← index (segments al) (len (segments al) - 1);
            Ret (Segment.count last =? segmentSize al));
  al ← (if full : bool
        then a ← make (segmentSize al);
             Ret (with_segments al (segments al ++ [Segment.mk a 0]))
        else Ret al);
  let i := len (segments al) - 1 in
  segment ← index (segments al) i;
  let segment := Segment.mk (Segment.arr segment) (Segment.count segment + 1) in
  let al := with_segments al (update (segments al) i segment) in
  let al := with_count al (count al + 1) in
  _ ← index (Segment.arr segment) (Segment.count segment - 1);
  Ret (ArrayList.Ptr i (Segment.count segment - 1), al).

(** [*p], for a pointer [p] into the list *)
Definition load (al : t T) (p : ArrayList.ptr) : outcome T :=
  s ← index (segments al) (ArrayList.seg p);
  index (Segment.arr s) (ArrayList.off p).

(** [*p = v] *)
Definition store (al : t T) (p : ArrayList.ptr) (v : T) : outcome (t T) :=
  s ← index (segments al) (ArrayList.seg p);
  _ ← index (Segment.arr s) (ArrayList.off p);
  Ret (with_segments al
         (update (segments al) (ArrayList.seg p)
            (Segment.mk (update (Segment.arr s) (ArrayList.off p) v)
               (Segment.count s)))).

(** [func (al *ArrayList[T]) Add(v T) *T] *)
Definition Add (v : T) (al : t T) : outcome (ArrayList.ptr * t T) :=
  r ← Alloc al;
  al ← store (snd r) (fst r) v;
  Ret (fst r, al).

(** [func (al *ArrayList[T]) GetRef(idx int) *T] *)
Definition GetRef (al : t T) (idx : Z) : outcome ArrayList.ptr :=
  if idx >=? count al then Panic OutOfBound
  else
    let p := ArrayList.Ptr (Z.shiftr idx (segmentSizeShift al))
                           (Z.land idx (segmentSizeMask al)) in
    _ ← load al p;
    Ret p.

(** [func (al *ArrayList[T]) Get(idx int) T] *)
Definition Get (al : t T) (idx : Z) : outcome T :=
  if idx >=? count al then Panic OutOfBound
  else load al (ArrayList.Ptr (Z.shiftr idx (segmentSizeShift al))
                              (Z.land idx (segmentSizeMask al))).

(** [func (al *ArrayList[T]) RemoveLast()] *)
Definition RemoveLast (al : t T) : outcome (t T) :=
  if count al <=? 0 then Ret al
  else
    let i := len (segments al) - 1 in
    segment ← index (segments al) i;
    let segment := Segment.mk (Segment.arr segment) (Segment.count segment - 1) in
    let al := with_segments al (update (segments al) i segment) in
    let al := with_count al (count al - 1) in
    if Segment.count segment >? 0 then Ret al
    else
      let al := with_segments al
                  (update (segments al) i (Segment.mk [] (Segment.count segment))) in
      Ret (with_segments al
             (take (Z.to_nat (len (segments al) - 1)) (segments al))).

(** [func (al *ArrayList[T]) FastRemoveAt(idx int)] *)
Definition FastRemoveAt (al : t T) (idx : Z) : outcome (t T) :=
  lastPtr ← GetRef al (count al - 1);
  p ← GetRef al idx;
  v ← load al lastPtr;
  al ← store al p v;
  al ← store al lastPtr (sentinel al);
  RemoveLast al.

(** [func (al *ArrayList[T]) Clear()] *)
Definition Clear (al : t T) : t T :=
  mk (sentinel al) 0 []
     (segmentSize al) (segmentSizeMask al) (segmentSizeShift al).

(** [func (al *ArrayList[T]) Count() int] *)
Definition Count (al : t T) : Z := count al.

(** The list of the current revision that stands for [al]: the same
    fields, with the cursor on the last segment. *)
Definition to_cursor (al : t T) : ArrayList.t T :=
  ArrayList.mk (sentinel al) (count al) (segments al)
    (Z.max 0 (len (segments al) - 1))
    (segmentSize al) (segmentSizeMask al) (segmentSizeShift al).

(** The invariant of the earlier revision: the shape of the current
    revision with the cursor on the last segment, and no segment at all in
    an empty list. *)
Record wf (al : t T) : Prop := Wf {
  wf_list : ArrayList.wf (to_cursor al);
  wf_tight : count al = 0 → segments al = []
}.

End Ops.

End ArrayList0.

(** ** Scripts of calls on a list *)

Inductive list_op (T : Type) : Type :=
| OpAdd (v : T)
| OpRemoveLast
| OpFastRemoveAt (idx : Z)
| OpClear.
Arguments OpAdd {T} v.
Arguments OpRemoveLast {T}.
Arguments OpFastRemoveAt {T} idx.
Arguments OpClear {T}.

Section Scripts.
Context {T : Type} `{Zero T}.

(** One call on the list of the current revision, and a script of calls;
    the first panic ends the script. *)
Definition list_step (o : list_op T) (al : ArrayList.t T) : outcome (ArrayList.t T) :=
  match o with
  | OpAdd v => r ← ArrayList.Add v al; Ret r.2
  | OpRemoveLast => ArrayList.RemoveLast al
  | OpFastRemoveAt idx => ArrayList.FastRemoveAt al idx
  | OpClear => Ret (ArrayList.Clear al)
  end.

Fixpoint list_run (script : list (list_op T)) (al : ArrayList.t T) : outcome (ArrayList.t T) :=
  match script with
  | [] => Ret al
  | o :: script => al ← list_step o al; list_run script al
  end.

(** The same on the list of the earlier revision. *)
Definition list0_step (o : list_op T) (al : ArrayList0.t T) : outcome (ArrayList0.t T) :=
  match o with
  | OpAdd v => r ← ArrayList0.Add v al; Ret r.2
  | OpRemoveLast => ArrayList0.RemoveLast al
  | OpFastRemoveAt idx => ArrayList0.FastRemoveAt al idx
  | OpClear => Ret (ArrayList0.Clear al)
  end.

Fixpoint list0_run (script : list (list_op T)) (al : ArrayList0.t T) : outcome (ArrayList0.t T) :=
  match script with
  | [] => Ret al
  | o :: script => al ← list0_step o al; list0_run script al
  end.

(** A list of the earlier revision and one of the current revision show
    a caller the same: the count, and what [Get] yields at every index. *)
Definition same_view (al0 : ArrayList0.t T) (al : ArrayList.t T) : Prop :=
  ArrayList0.Count al0 = ArrayList.Count al ∧
  ∀ idx, ArrayList0.Get al0 idx = ArrayList.Get al idx.

(** Two runs end alike: in lists that show the same, or in the same
    panic. *)
Definition same_outcome (r0 : outcome (ArrayList0.t T))
    (r : outcome (ArrayList.t T)) : Prop :=
  match r0, r with
  | Ret al0, Ret al => same_view al0 al
  | Panic e0, Panic e => e0 = e
  | _, _ => False
  end.

End Scripts.

(** ** The index pool over a segmented list: [Pool] *)

Module Pool.

Record t (T : Type) : Type := mk {
  frees : gset Z;
  items : ArrayList.t T
}.
Arguments mk {T}.
Arguments frees {T} _.
Arguments items {T} _.

Section Ops.
Context {T : Type} `{Zero T}.

(** [func NewPool[T any](segmentSize int) *Pool[T]] *)
Definition NewPool (segmentSize : Z) : t T :=
  mk ∅ (ArrayList.NewArrayList segmentSize).

(** The body of [for k := range p.frees], run for the key [k]:
    [delete(p.frees, k); return k, p.items.GetRef(k)] *)
Definition reuse (k : Z) (p : t T) : outcome (Z * ArrayList.ptr * t T) :=
  let p := mk (frees p ∖ {[k]}) (items p) in
  r ← ArrayList.GetRef (items p) k;
  Ret (k, r, p).

(** [return p.items.Count(), p.items.Alloc()] *)
Definition extend (p : t T) : outcome (Z * ArrayList.ptr * t T) :=
  let id := ArrayList.Count (items p) in
  r ← ArrayList.Alloc (items p);
  Ret (id, r.1, mk (frees p) r.2).

(** [func (p *Pool[T]) Alloc() (int, *T)]: when [len(p.frees) > 0] the
    range yields some key of the map and the call returns inside the
    loop. *)
Inductive Alloc (p : t T) : outcome (Z * ArrayList.ptr * t T) → Prop :=
| Alloc_range k :
    (0 < size (frees p))%nat → k ∈ frees p → Alloc p (reuse k p)
| Alloc_tail :
    ¬ (0 < size (frees p))%nat → Alloc p (extend p).

(** [func (p *Pool[T]) Free(id int)] *)
Definition Free (id : Z) (p : t T) : outcome (t T) :=
  if (id <? 0) || (id >=? ArrayList.Count (items p)) then Ret p
  else if decide (id ∈ frees p) then Ret p
  else
    r ← ArrayList.GetRef (items p) id;
    al ← ArrayList.store (items p) r (ArrayList.defaultValue (items p));
    Ret (mk ({[id]} ∪ frees p) al).

(** [func (p *Pool[T]) Clear()] *)
Definition Clear (p : t T) : t T :=
  mk ∅ (ArrayList.Clear (items p)).

(** [func (p *Pool[T]) Count() int] *)
Definition Count (p : t T) : Z :=
  ArrayList.Count (items p) - Z.of_nat (size (frees p)).

(** *** Pool states and batches of calls *)

(** The list is well shaped, every free index is an index of the list, and
    the list's default value is the zero value it was created with. *)
Record wf (p : t T) : Prop := Wf {
  wf_items : ArrayList.wf (items p);
  wf_frees : set_Forall (λ k, 0 ≤ k < ArrayList.count (items p)) (frees p);
  wf_default : ArrayList.defaultValue (items p) = zero
}.

(** [n] calls of [Alloc] in a row, none of which panics, with the indices
    in the order they were handed out. *)
Inductive AllocMany : nat → t T → list Z → t T → Prop :=
| AllocMany_nil p : AllocMany 0 p [] p
| AllocMany_cons n p id r p1 ids p2 :
    Alloc p (Ret (id, r, p1)) →
    AllocMany n p1 ids p2 →
    AllocMany (S n) p (id :: ids) p2.

(** [Free] of each index of [ids], in that order. *)
Fixpoint FreeAll (ids : list Z) (p : t T) : outcome (t T) :=
  match ids with
  | [] => Ret p
  | id :: ids => p ← Free id p; FreeAll ids p
  end.

(** The pools a caller can build: a new pool of a segment size up to 2^32,
    changed by the operations and by writes through the pointers that
    [Alloc] returns. *)
Inductive reachable : t T → Prop :=
| reachable_new n : n ≤ 2 ^ 32 → reachable (NewPool n)
| reachable_Alloc p id r p' :
    reachable p → Alloc p (Ret (id, r, p')) → reachable p'
| reachable_store p r v al :
    reachable p → ArrayList.store (items p) r v = Ret al →
    reachable (mk (frees p) al)
| reachable_Free p id p' :
    reachable p → Free id p = Ret p' → reachable p'
| reachable_Clear p : reachable p → reachable (Clear p).

(** An index is live when it was handed out and has not been released. *)
Definition live (p : t T) (id : Z) : Prop :=
  0 ≤ id < ArrayList.Count (items p) ∧ id ∉ frees p.

(** The live indices, as a set. *)
Definition live_set (p : t T) : gset Z :=
  list_to_set (seqZ 0 (ArrayList.Count (items p))) ∖ frees p.

(** The slots that are not live hold the zero value: those of the free
    indices, and those behind the elements of the list. *)
Record clean (p : t T) : Prop := Clean {
  clean_frees : ∀ k, k ∈ frees p → ArrayList.Get (items p) k = Ret zero;
  clean_tail : ArrayList.fresh_tail (items p)
}.

(** The pools of a caller that writes only to the slots of live indices. *)
Inductive used : t T → Prop :=
| used_new n : n ≤ 2 ^ 32 → used (NewPool n)
| used_Alloc p id r p' :
    used p → Alloc p (Ret (id, r, p')) → used p'
| used_store p id r v al :
    used p → live p id → ArrayList.GetRef (items p) id = Ret r →
    ArrayList.store (items p) r v = Ret al →
    used (mk (frees p) al)
| used_Free p id p' :
    used p → Free id p = Ret p' → used p'
| used_Clear p : used p → used (Clear p).

End Ops.

End Pool.

(** ** The growable array pool: [ArrayPool] *)

Module ArrayPool.

Record t (T : Type) : Type := mk {
  arr : list T;
  alloc : Z;
  free : gset Z
}.
Arguments mk {T}.
Arguments arr {T} _.
Arguments alloc {T} _.
Arguments free {T} _.

Definition threshold : Z := 256.

(** [func (ap *ArrayPool[T]) nextCap(oldCap int) int] *)
Definition nextCap (oldCap : Z) : Z :=
  let doubleCap := wrap_int (oldCap + oldCap) in
  if oldCap <? threshold then doubleCap
  else wrap_int (oldCap + Z.shiftr (wrap_int (oldCap + 3 * threshold)) 2).

Section Ops.
Context {T : Type} `{Zero T}.

(** [func NewArrayPool[T any](cap int) *ArrayPool[T]] *)
Definition NewArrayPool (cap : Z) : outcome (t T) :=
  if cap <? 0 then Panic CapLessThanZero
  else
    let cap := wrap_int (cap + 1) in
    a ← make cap;
    Ret (mk a 1 ∅).

(** [func (ap *ArrayPool[T]) grow()] *)
Definition grow (ap : t T) : outcome (t T) :=
  let newCap := nextCap (len (arr ap)) in
  newArray ← make newCap;
  Ret (mk (copy newArray (arr ap)) (alloc ap) (free ap)).

(** [func (ap *ArrayPool[T]) Alloc() int].  The first index counts the
    nested activations of [Alloc]: the call itself and the retries
    after [grow]. *)
Inductive Alloc : nat → t T → outcome (Z * t T) → Prop :=
| Alloc_next ap :
    alloc ap < len (arr ap) →
    Alloc 1 ap (Ret (alloc ap, mk (arr ap) (alloc ap + 1) (free ap)))
| Alloc_range ap k :
    ¬ alloc ap < len (arr ap) →
    (0 < size (free ap))%nat → k ∈ free ap →
    Alloc 1 ap (Ret (k, mk (arr ap) (alloc ap) (free ap ∖ {[k]})))
| Alloc_grow_panic ap e :
    ¬ alloc ap < len (arr ap) →
    ¬ (0 < size (free ap))%nat →
    grow ap = Panic e →
    Alloc 1 ap (Panic e)
| Alloc_retry ap ap' n r :
    ¬ alloc ap < len (arr ap) →
    ¬ (0 < size (free ap))%nat →
    grow ap = Ret ap' →
    Alloc n ap' r →
    Alloc (S n) ap r.

(** [func (ap *ArrayPool[T]) Free(id int)] *)
Definition Free (id : Z) (ap : t T) : outcome (t T) :=
  if (id <=? 0) || (id >=? alloc ap)
  then Panic (FreeInvalidId id (alloc ap))
  else
    z ← index (arr ap) 0;
    _ ← index (arr ap) id;
    let ap := mk (update (arr ap) id z) (alloc ap) (free ap) in
    if id =? alloc ap - 1
    then Ret (mk (arr ap) (alloc ap - 1) (free ap))
    else if decide (id ∈ free ap) then Ret ap
    else Ret (mk (arr ap) (alloc ap) ({[id]} ∪ free ap)).

(** [func (ap *ArrayPool[T]) Get(id int) T] *)
Definition Get (ap : t T) (id : Z) : outcome T :=
  index (arr ap) id.

(** [func (ap *ArrayPool[T]) GetRef(id int) *T] *)
Definition GetRef (ap : t T) (id : Z) : outcome Z :=
  _ ← index (arr ap) id;
  Ret id.

(** [*ap.GetRef(id) = v] *)
Definition store (ap : t T) (id : Z) (v : T) : outcome (t T) :=
  p ← GetRef ap id;
  Ret (mk (update (arr ap) p v) (alloc ap) (free ap)).

(** *** Pool states and batches of calls *)

(** The allocation pointer lies behind the sentinel and within the array,
    and the sentinel slot holds the zero value. *)
Record wf (ap : t T) : Prop := Wf {
  wf_alloc : 1 ≤ alloc ap ≤ len (arr ap);
  wf_sentinel : arr ap !! 0%nat = Some zero
}.

(** [n] calls of [Alloc] in a row, none of which panics, with the indices
    in the order they were handed out. *)
Inductive AllocMany : nat → t T → list Z → t T → Prop :=
| AllocMany_nil ap : AllocMany 0 ap [] ap
| AllocMany_cons n d ap id ap1 ids ap2 :
    Alloc d ap (Ret (id, ap1)) →
    AllocMany n ap1 ids ap2 →
    AllocMany (S n) ap (id :: ids) ap2.

(** [Free] of each index of [ids], in that order. *)
Fixpoint FreeAll (ids : list Z) (ap : t T) : outcome (t T) :=
  match ids with
  | [] => Ret ap
  | id :: ids => ap ← Free id ap; FreeAll ids ap
  end.

(** The pools a caller can build: a new pool, changed by the operations
    and by writes to the indices [Alloc] hands out, which are positive. *)
Inductive reachable : t T → Prop :=
| reachable_new cap ap :
    - 2 ^ 63 ≤ cap < 2 ^ 63 → NewArrayPool cap = Ret ap → reachable ap
| reachable_Alloc ap d id ap' :
    reachable ap → Alloc d ap (Ret (id, ap')) → reachable ap'
| reachable_store ap id v ap' :
    reachable ap → 0 < id → store ap id v = Ret ap' → reachable ap'
| reachable_Free ap id ap' :
    reachable ap → Free id ap = Ret ap' → reachable ap'.

(** An index is live when it was handed out and has not been released. *)
Definition live (ap : t T) (id : Z) : Prop :=
  0 < id < alloc ap ∧ id ∉ free ap.

(** Every free index lies behind the sentinel and before the allocation
    pointer. *)
Definition free_bounded (ap : t T) : Prop :=
  set_Forall (λ k, 0 < k < alloc ap) (free ap).

(** The slots that are not live hold the zero value: those from the
    allocation pointer on, and those of the free indices. *)
Definition clean (ap : t T) : Prop :=
  ∀ (j : nat) v, arr ap !! j = Some v →
                 alloc ap ≤ Z.of_nat j ∨ Z.of_nat j ∈ free ap → v = zero.

(** The pools of a caller that writes to and releases only live indices. *)
Inductive used : t T → Prop :=
| used_new cap ap :
    - 2 ^ 63 ≤ cap < 2 ^ 63 → NewArrayPool cap = Ret ap → used ap
| used_Alloc ap d id ap' :
    used ap → Alloc d ap (Ret (id, ap')) → used ap'
| used_store ap id v ap' :
    used ap → live ap id → store ap id v = Ret ap' → used ap'
| used_Free ap id ap' :
    used ap → live ap id → Free id ap = Ret ap' → used ap'.

End Ops.

End ArrayPool.

(** ** Powers of two *)

Definition is_pow2 (n : Z) : Prop := ∃ k, 0 ≤ k ∧ n = 2 ^ k.

(** [r] is the smallest power of two that is at least [n]. *)
Definition round_up_pow2 (n r : Z) : Prop :=
  is_pow2 r ∧ n ≤ r ∧ ∀ m, is_pow2 m → n ≤ m → r ≤ m.

(** One line [n |= n >> k] of [NearestPowerOf2]. *)
Definition smear (k x : Z) : Z := Z.lor x (Z.shiftr x k).

(** The highest set bit of [x] is bit [L], and the [a] bits from [L]
    downwards are all set. *)
Definition filled (L a x : Z) : Prop :=
  0 ≤ x ∧
  (∀ i, L < i → Z.testbit x i = false) ∧
  (∀ i, 0 ≤ i → L - a < i ≤ L → Z.testbit x i = true).

(** ** Deciding the invariants

    The invariants are decidable, so that they can be checked on a concrete
    state by evaluation. *)

Section Decide.
Context {T : Type} `{Zero T} `{EqDecision T}.
Implicit Types (al : ArrayList.t T) (ss : list (Segment.t T)).

#[global] Instance wf_segments_dec size c ss :
  Decision (ArrayList.wf_segments size c ss).
Proof.
  revert c. induction ss as [|s ss IH]; intros c; simpl; apply _.
Defined.

#[global] Instance wf_dec al : Decision (ArrayList.wf al).
Proof.
  refine (cast_if (decide (
    0 ≤ ArrayList.segmentSizeShift al ∧
    ArrayList.segmentSize al = 2 ^ ArrayList.segmentSizeShift al ∧
    ArrayList.segmentSizeMask al = ArrayList.segmentSize al - 1 ∧
    0 ≤ ArrayList.segmentIdx al ∧
    (len (ArrayList.segments al) = 0 →
       ArrayList.segmentIdx al = 0 ∧ ArrayList.count al = 0) ∧
    (len (ArrayList.segments al) ≠ 0 →
       ArrayList.segmentIdx al < len (ArrayList.segments al)
       ≤ ArrayList.segmentIdx al + 2) ∧
    (ArrayList.segmentIdx al * ArrayList.segmentSize al ≤ ArrayList.count al
       ≤ ArrayList.segmentIdx al * ArrayList.segmentSize al
         + ArrayList.segmentSize al) ∧
    (0 < ArrayList.segmentIdx al →
       ArrayList.segmentIdx al * ArrayList.segmentSize al < ArrayList.count al) ∧
    ArrayList.wf_segments (ArrayList.segmentSize al) (ArrayList.count al)
      (ArrayList.segments al)))).
  - destruct a as (?&?&?&?&?&?&?&?&?). constructor; assumption.
  - intros []. apply n. repeat split; tauto.
Defined.

#[global] Instance Pool_wf_dec (p : Pool.t T) : Decision (Pool.wf p).
Proof.
  refine (cast_if (decide (
    ArrayList.wf (Pool.items p) ∧
    set_Forall (λ k, 0 ≤ k < ArrayList.count (Pool.items p)) (Pool.frees p) ∧
    ArrayList.defaultValue (Pool.items p) = zero))).
  - destruct a as (?&?&?). constructor; assumption.
  - intros [? ? ?]. apply n. split; [|split]; assumption.
Defined.

#[global] Instance ArrayPool_wf_dec (ap : ArrayPool.t T) :
  Decision (ArrayPool.wf ap).
Proof.
  refine (cast_if (decide (
    1 ≤ ArrayPool.alloc ap ≤ len (ArrayPool.arr ap) ∧
    ArrayPool.arr ap !! 0%nat = Some zero))).
  - destruct a as (?&?). constructor; assumption.
  - intros [? ?]. apply n. split; assumption.
Defined.

End Decide.

(** Settles a decidable statement about a concrete state by evaluation. *)
Ltac by_evaluation := apply (bool_decide_unpack _); vm_compute; exact I.

(** ** Concrete states

    States of runs of the package on [int] elements, used to exercise the
    theorems below. *)

(** [n] calls of [Add], storing [v], [v + 1], ... *)
Fixpoint AddN (n : nat) (v : Z) (al : ArrayList.t Z) : outcome (ArrayList.t Z) :=
  match n with
  | O => Ret al
  | S n => r ← ArrayList.Add v al; AddN n (v + 1) r.2
  end.

(** [n] calls of [RemoveLast]. *)
Fixpoint RemoveLastN (n : nat) (al : ArrayList.t Z) : outcome (ArrayList.t Z) :=
  match n with
  | O => Ret al
  | S n => al ← ArrayList.RemoveLast al; RemoveLastN n al
  end.

(** [FastRemoveAt] of each index of [ids], in that order. *)
Fixpoint FastRemoveAll (ids : list Z) (al : ArrayList.t Z) : outcome (ArrayList.t Z) :=
  match ids with
  | [] => Ret al
  | idx :: ids => al ← ArrayList.FastRemoveAt al idx; FastRemoveAll ids al
  end.

(** Five elements in segments of four. *)
Definition list5 : ArrayList.t Z :=
  ArrayList.mk 0 5
    [Segment.mk [1; 2; 3; 4] 4; Segment.mk [5; 0; 0; 0] 1] 1 4 3 2.

(** Nine elements added and four removed: one element is left in the
    cursor segment, and a spare empty segment stands behind it. *)
Definition list_drain : ArrayList.t Z :=
  ArrayList.mk 0 5
    [Segment.mk [1; 2; 3; 4] 4; Segment.mk [5; 6; 7; 8] 1;
     Segment.mk [9; 0; 0; 0] 0] 1 4 3 2.

(** [NewPool(4)], and the pool after two calls of [Alloc]. *)
Definition pool_new : Pool.t Z :=
  Pool.mk ∅ (ArrayList.mk 0 0 [] 0 4 3 2).
Definition pool_two : Pool.t Z :=
  Pool.mk ∅ (ArrayList.mk 0 2 [Segment.mk [0; 0; 0; 0] 2] 0 4 3 2).

(** A pool of segment size 4 that handed out the indices 0, 1, 2, stored
    10, 20, 30 in them, and had index 0 released. *)
Definition pool3 : Pool.t Z :=
  Pool.mk {[0]}
    (ArrayList.mk 0 3 [Segment.mk [0; 20; 30; 0] 3] 0 4 3 2).

(** A pool whose two indices 0 and 1 are both free. *)
Definition pool_both_free : Pool.t Z :=
  Pool.mk {[0; 1]} (ArrayList.mk 0 2 [Segment.mk [0; 0; 0; 0] 2] 0 4 3 2).

(** The indices released in the scenario of the pool's test. *)
Definition freed_ids : list Z := [0; 4; 34; 27; 3; 16; 11; 12; 8].

(** [NewArrayPool(4)], and the states of the run
    [Alloc, Alloc, Free(1), Free(2)] on it. *)
Definition apool_new : ArrayPool.t Z := ArrayPool.mk [0; 0; 0; 0; 0] 1 ∅.
Definition apool_two : ArrayPool.t Z := ArrayPool.mk [0; 0; 0; 0; 0] 3 ∅.
Definition apool_freed : ArrayPool.t Z := ArrayPool.mk [0; 0; 0; 0; 0] 2 {[1]}.

(** A contiguous pool of capacity 4 with the indices 1, 2, 3 handed out and
    holding 10, 20, 30. *)
Definition apool3 : ArrayPool.t Z :=
  ArrayPool.mk [0; 10; 20; 30; 0] 4 ∅.

(** A contiguous pool of capacity 4, all of whose indices are in use, and
    the same pool after index 2 was released. *)
Definition apool_full : ArrayPool.t Z :=
  ArrayPool.mk [0; 10; 20; 30; 40] 5 ∅.
Definition apool_hole : ArrayPool.t Z :=
  ArrayPool.mk [0; 10; 0; 30; 40] 5 {[2]}.

(** The contiguous pool of capacity 3 after [Alloc] three times, [Free(2)]
    and [Free(3)]: index 2 is free and is the most recent index. *)
Definition apool_stale : ArrayPool.t Z := ArrayPool.mk [0; 0; 0; 0] 3 {[2]}.

(** A list of segment size 4 whose one segment is full. *)
Definition list_full : ArrayList.t Z :=
  ArrayList.mk 0 4 [Segment.mk [1; 2; 3; 4] 4] 0 4 3 2.

(** The calls of the list's test up to its first four removals, followed
    by a [RemoveLast] and an [Add]. *)
Definition script_test : list (list_op Z) :=
  (OpAdd <$> seqZ 1 27) ++
  [OpFastRemoveAt 0; OpFastRemoveAt 5; OpFastRemoveAt 16; OpFastRemoveAt 23;
   OpRemoveLast; OpAdd 99].

(** * Properties *)

(** ** Rounding to a power of two *)

Section NearestPowerOf2.

Lemma wrap_uint_small z : 0 ≤ z < 2 ^ 64 → wrap_uint z = z.
Proof. intros Hz. unfold wrap_uint. by apply Z.mod_small. Qed.

Lemma wrap_int_small z : - 2 ^ 63 ≤ z < 2 ^ 63 → wrap_int z = z.
Proof. intros Hz. unfold wrap_int. rewrite Z.mod_small; lia. Qed.

Lemma NearestPowerOf2_smear n :
  ArrayList.NearestPowerOf2 n =
  wrap_uint (smear 16 (smear 8 (smear 4 (smear 2 (smear 1 (wrap_uint (n - 1)))))) + 1).
Proof. reflexivity. Qed.

Lemma smear_testbit k x i :
  0 ≤ k → 0 ≤ i →
  Z.testbit (smear k x) i = Z.testbit x i || Z.testbit x (i + k).
Proof.
  intros Hk Hi. unfold smear.
  by rewrite Z.lor_spec, Z.shiftr_spec.
Qed.

Lemma filled_smear L a x :
  0 ≤ L → 0 < a → filled L a x → filled L (2 * a) (smear a x).
Proof.
  intros HL Ha (Hx & Hhi & Hlo). split; [|split].
  - unfold smear. apply Z.lor_nonneg. split; [done|].
    by apply Z.shiftr_nonneg.
  - intros i Hi. rewrite smear_testbit by lia.
    rewrite !Hhi by lia. done.
  - intros i Hi0 Hi. rewrite smear_testbit by lia.
    destruct (decide (L - a < i)) as [Hin|Hout].
    + rewrite Hlo by lia. done.
    + rewrite (Hlo (i + a)) by lia. apply orb_true_r.
Qed.

Lemma filled_all L a x :
  0 ≤ L < a → filled L a x → x = 2 ^ (L + 1) - 1.
Proof.
  intros HL (Hx & Hhi & Hlo).
  replace (2 ^ (L + 1) - 1) with (Z.ones (L + 1))
    by (rewrite Z.ones_equiv; lia).
  apply Z.bits_inj'. intros i Hi.
  destruct (decide (i ≤ L)) as [Hle|Hgt].
  - rewrite Hlo by lia. by rewrite Z.ones_spec_low by lia.
  - rewrite Hhi by lia. by rewrite Z.ones_spec_high by lia.
Qed.

Lemma filled_log2 m : 0 < m → filled (Z.log2 m) 1 m.
Proof.
  intros Hm. split; [lia|split].
  - intros i Hi. apply Z.bits_above_log2; lia.
  - intros i Hi0 Hi. replace i with (Z.log2 m) by lia.
    by apply Z.bit_log2.
Qed.

(** The five shifts reach 31 bits below the highest one. *)
Lemma smear_all m :
  0 < m < 2 ^ 32 →
  smear 16 (smear 8 (smear 4 (smear 2 (smear 1 m)))) = 2 ^ (Z.log2 m + 1) - 1.
Proof.
  intros Hm.
  assert (0 ≤ Z.log2 m < 32) as HL.
  { split; [apply Z.log2_nonneg|]. apply Z.log2_lt_pow2; lia. }
  apply (filled_all _ 32); [done|].
  change 32 with (2 * (2 * (2 * (2 * (2 * 1))))).
  repeat (apply filled_smear; [lia|lia|]).
  apply filled_log2. lia.
Qed.

Lemma pow2_le_mono_inv j k : 0 ≤ j → 0 ≤ k → 2 ^ j < 2 ^ k → j < k.
Proof.
  intros Hj Hk Hlt. destruct (decide (j < k)) as [|Hge]; [done|].
  assert (2 ^ k ≤ 2 ^ j) by (apply Z.pow_le_mono_r; lia). lia.
Qed.

(** Up to 2^32 the function rounds up to a power of two. *)
Lemma NearestPowerOf2_spec n :
  0 < n ≤ 2 ^ 32 → round_up_pow2 n (ArrayList.NearestPowerOf2 n).
Proof.
  intros Hn. rewrite NearestPowerOf2_smear.
  rewrite (wrap_uint_small (n - 1)) by lia.
  destruct (decide (n = 1)) as [->|Hn1].
  { split; [by exists 0|split; [done|]].
    intros m (k & Hk & ->) _.
    change (wrap_uint _) with (2 ^ 0). apply Z.pow_le_mono_r; lia. }
  rewrite smear_all by lia.
  set (L := Z.log2 (n - 1)).
  assert (0 ≤ L < 32) as HL.
  { split; [apply Z.log2_nonneg|]. apply Z.log2_lt_pow2; lia. }
  assert (2 ^ L ≤ n - 1 < 2 ^ (L + 1)) as Hspec.
  { apply (Z.log2_spec (n - 1)). lia. }
  assert (2 ^ (L + 1) ≤ 2 ^ 32) by (apply Z.pow_le_mono_r; lia).
  rewrite wrap_uint_small by lia.
  replace (2 ^ (L + 1) - 1 + 1) with (2 ^ (L + 1)) by lia.
  split; [exists (L + 1); lia|split; [lia|]].
  intros m (k & Hk & ->) Hle.
  apply Z.pow_le_mono_r; [lia|].
  assert (L < k); [|lia].
  apply pow2_le_mono_inv; lia.
Qed.

End NearestPowerOf2.

(** ** Slices *)

Section SliceFacts.
Context {A : Type}.
Implicit Types (s : list A) (i : Z).

Lemma index_Ret s i a :
  0 ≤ i → s !! Z.to_nat i = Some a → index s i = Ret a.
Proof.
  intros Hi Hl. unfold index.
  destruct (Z.ltb_spec i 0); [lia|]. by rewrite Hl.
Qed.

Lemma index_in_range s i :
  0 ≤ i < len s → ∃ a, s !! Z.to_nat i = Some a ∧ index s i = Ret a.
Proof.
  intros Hi. unfold len in Hi.
  destruct (lookup_lt_is_Some_2 s (Z.to_nat i)) as [a Ha]; [lia|].
  exists a. split; [done|]. apply index_Ret; [lia|done].
Qed.

Lemma index_Ret_inv s i a :
  index s i = Ret a → 0 ≤ i < len s ∧ s !! Z.to_nat i = Some a.
Proof.
  unfold index, len. destruct (Z.ltb_spec i 0); [done|].
  destruct (s !! Z.to_nat i) as [b|] eqn:Hl; [|done].
  intros [= ->]. split; [|done].
  apply lookup_lt_Some in Hl. lia.
Qed.

Lemma index_out_of_range s i :
  ¬ 0 ≤ i < len s → index s i = Panic IndexOutOfRange.
Proof.
  intros Hi. unfold index, len in *.
  destruct (Z.ltb_spec i 0); [done|].
  rewrite lookup_ge_None_2; [done|lia].
Qed.

Lemma index_Panic_inv s i e :
  index s i = Panic e → e = IndexOutOfRange.
Proof.
  unfold index. destruct (i <? 0); [congruence|].
  destruct (s !! Z.to_nat i); congruence.
Qed.

Lemma len_update s i a : len (update s i a) = len s.
Proof. unfold len, update. by rewrite length_insert. Qed.

Lemma len_app s1 s2 : len (s1 ++ s2) = len s1 + len s2.
Proof. unfold len. rewrite length_app. lia. Qed.

Lemma len_nonneg s : 0 ≤ len s.
Proof. unfold len. lia. Qed.

End SliceFacts.

Section ArrayListShape.
Context {T : Type} `{Zero T}.
Implicit Types (al : ArrayList.t T) (ss : list (Segment.t T)).

Lemma wf_segments_lookup size c ss (i : nat) s :
  ArrayList.wf_segments size c ss → ss !! i = Some s →
  len (Segment.arr s) = size ∧
  Segment.count s = Z.max 0 (Z.min size (c - Z.of_nat i * size)).
Proof.
  revert c i. induction ss as [|s0 ss IH]; intros c i; [done|].
  intros (Hlen & Hcnt & Hrest). destruct i as [|i]; simpl.
  - intros [= <-]. split; [done|]. rewrite Hcnt. f_equal. f_equal. lia.
  - intros Hl. destruct (IH _ _ Hrest Hl) as [? ->]. split; [done|].
    f_equal. f_equal. lia.
Qed.

Lemma wf_segments_intro size c ss :
  (∀ (i : nat) s, ss !! i = Some s →
     len (Segment.arr s) = size ∧
     Segment.count s = Z.max 0 (Z.min size (c - Z.of_nat i * size))) →
  ArrayList.wf_segments size c ss.
Proof.
  revert c. induction ss as [|s0 ss IH]; intros c Hall; [done|].
  destruct (Hall 0%nat s0 eq_refl) as [Hlen Hcnt].
  split; [done|]. split.
  { rewrite Hcnt. f_equal. f_equal. lia. }
  apply IH. intros i s Hl.
  destruct (Hall (S i) s Hl) as [? ->]. split; [done|].
  f_equal. f_equal. lia.
Qed.

End ArrayListShape.

(** ** Addressing in the segmented list *)

Section ArrayListLocate.
Context {T : Type} `{Zero T}.
Implicit Types (al : ArrayList.t T) (ss : list (Segment.t T)).

Lemma wf_size_pos al : ArrayList.wf al → 0 < ArrayList.segmentSize al.
Proof.
  intros Hwf. rewrite (ArrayList.wf_size _ Hwf).
  apply Z.pow_pos_nonneg; [lia|]. apply (ArrayList.wf_shift _ Hwf).
Qed.

(** Shift and mask are division and remainder by the segment size. *)
Lemma wf_shift_div al idx :
  ArrayList.wf al →
  Z.shiftr idx (ArrayList.segmentSizeShift al) = idx / ArrayList.segmentSize al.
Proof.
  intros Hwf. rewrite (ArrayList.wf_size _ Hwf).
  apply Z.shiftr_div_pow2, (ArrayList.wf_shift _ Hwf).
Qed.

Lemma wf_mask_mod al idx :
  ArrayList.wf al →
  Z.land idx (ArrayList.segmentSizeMask al) = idx mod ArrayList.segmentSize al.
Proof.
  intros Hwf.
  rewrite (ArrayList.wf_mask _ Hwf), (ArrayList.wf_size _ Hwf).
  replace (2 ^ ArrayList.segmentSizeShift al - 1)
    with (Z.ones (ArrayList.segmentSizeShift al))
    by (rewrite Z.ones_equiv; lia).
  apply Z.land_ones, (ArrayList.wf_shift _ Hwf).
Qed.

Lemma div_mod_slot size i c :
  0 ≤ c < size → (i * size + c) / size = i ∧ (i * size + c) mod size = c.
Proof.
  intros Hc. split.
  - rewrite Z.add_comm, Z.div_add by lia. rewrite Z.div_small by lia. lia.
  - rewrite Z.add_comm, Z.mod_add by lia. by apply Z.mod_small.
Qed.

(** The cursor segment and the number of elements in it. *)
Lemma wf_cursor_lookup al :
  ArrayList.wf al → len (ArrayList.segments al) ≠ 0 →
  ∃ cur, ArrayList.segments al !! Z.to_nat (ArrayList.segmentIdx al) = Some cur ∧
         len (Segment.arr cur) = ArrayList.segmentSize al ∧
         Segment.count cur =
           ArrayList.count al - ArrayList.segmentIdx al * ArrayList.segmentSize al.
Proof.
  intros Hwf Hne.
  pose proof (ArrayList.wf_len _ Hwf Hne) as Hlen.
  pose proof (ArrayList.wf_idx _ Hwf) as Hidx.
  pose proof (ArrayList.wf_count _ Hwf) as Hcnt.
  destruct (index_in_range (ArrayList.segments al) (ArrayList.segmentIdx al))
    as (cur & Hcur & _); [lia|].
  exists cur. split; [done|].
  destruct (wf_segments_lookup _ _ _ _ _ (ArrayList.wf_segs _ Hwf) Hcur)
    as [Harr Hc].
  split; [done|]. rewrite Hc. rewrite Z2Nat.id by lia. lia.
Qed.

(** Where element [idx] of the list lives. *)
Lemma wf_locate al idx :
  ArrayList.wf al → 0 ≤ idx < ArrayList.count al →
  let q := Z.shiftr idx (ArrayList.segmentSizeShift al) in
  let r := Z.land idx (ArrayList.segmentSizeMask al) in
  ∃ s v, ArrayList.segments al !! Z.to_nat q = Some s ∧
         Segment.arr s !! Z.to_nat r = Some v ∧
         0 ≤ q ≤ ArrayList.segmentIdx al ∧
         0 ≤ r < Segment.count s ∧
         idx = q * ArrayList.segmentSize al + r.
Proof.
  intros Hwf Hidx q r. subst q r.
  rewrite wf_shift_div, wf_mask_mod by done.
  pose proof (wf_size_pos _ Hwf) as Hpos.
  set (size := ArrayList.segmentSize al) in *.
  pose proof (Z.div_mod idx size ltac:(lia)) as Hdm.
  pose proof (Z.mod_pos_bound idx size Hpos) as Hr.
  pose proof (ArrayList.wf_count _ Hwf) as Hcnt. fold size in Hcnt.
  pose proof (ArrayList.wf_idx _ Hwf) as Hi.
  assert (0 ≤ idx / size) as Hq0 by (apply Z.div_pos; lia).
  assert (idx / size ≤ ArrayList.segmentIdx al) as Hq by nia.
  assert (len (ArrayList.segments al) ≠ 0) as Hne.
  { intros Hl. destruct (ArrayList.wf_nil _ Hwf Hl). lia. }
  pose proof (ArrayList.wf_len _ Hwf Hne) as Hlen.
  destruct (index_in_range (ArrayList.segments al) (idx / size))
    as (s & Hs & _); [lia|].
  destruct (wf_segments_lookup _ _ _ _ _ (ArrayList.wf_segs _ Hwf) Hs)
    as [Harr Hc]. fold size in Harr, Hc.
  rewrite Z2Nat.id in Hc by lia.
  destruct (index_in_range (Segment.arr s) (idx mod size))
    as (v & Hv & _); [lia|].
  exists s, v. repeat split; try done; try lia.
Qed.

Lemma GetRef_in_range al idx :
  ArrayList.wf al → 0 ≤ idx < ArrayList.count al →
  ArrayList.GetRef al idx =
    Ret (ArrayList.Ptr (Z.shiftr idx (ArrayList.segmentSizeShift al))
                       (Z.land idx (ArrayList.segmentSizeMask al))).
Proof.
  intros Hwf Hidx.
  destruct (wf_locate al idx Hwf Hidx) as (s & v & Hs & Hv & Hq & Hr & _).
  unfold ArrayList.GetRef, ArrayList.load.
  destruct (Z.geb_spec idx (ArrayList.count al)); [lia|]. simpl.
  rewrite (index_Ret _ _ s) by (done || lia). simpl.
  rewrite (index_Ret _ _ v) by (done || lia). done.
Qed.

Lemma Get_in_range al idx :
  ArrayList.wf al → 0 ≤ idx < ArrayList.count al →
  ArrayList.Get al idx =
    ArrayList.load al
      (ArrayList.Ptr (Z.shiftr idx (ArrayList.segmentSizeShift al))
                     (Z.land idx (ArrayList.segmentSizeMask al))).
Proof.
  intros Hwf Hidx. unfold ArrayList.Get.
  destruct (Z.geb_spec idx (ArrayList.count al)); [lia|]. done.
Qed.

Lemma GetRef_out_of_bound al idx :
  ArrayList.count al ≤ idx → ArrayList.GetRef al idx = Panic OutOfBound.
Proof.
  intros Hidx. unfold ArrayList.GetRef.
  destruct (Z.geb_spec idx (ArrayList.count al)); [done|lia].
Qed.

Lemma Get_out_of_bound al idx :
  ArrayList.count al ≤ idx → ArrayList.Get al idx = Panic OutOfBound.
Proof.
  intros Hidx. unfold ArrayList.Get.
  destruct (Z.geb_spec idx (ArrayList.count al)); [done|lia].
Qed.

End ArrayListLocate.

(** ** Loads and stores *)

Section SliceUpdate.
Context {A : Type}.
Implicit Types (s : list A) (i j : Z).

Lemma index_update_eq s i a :
  0 ≤ i < len s → index (update s i a) i = Ret a.
Proof.
  intros Hi. apply index_Ret; [lia|]. unfold update.
  apply list_lookup_insert_eq. unfold len in Hi. lia.
Qed.

Lemma index_update_ne s i j a :
  0 ≤ i → i ≠ j → index (update s i a) j = index s j.
Proof.
  intros Hi Hne. unfold index, update.
  destruct (Z.ltb_spec j 0); [done|].
  rewrite list_lookup_insert_ne; [done|lia].
Qed.

End SliceUpdate.

Section ArrayListStore.
Context {T : Type} `{Zero T}.
Implicit Types (al : ArrayList.t T) (ss : list (Segment.t T)).

(** Replacing a segment by one of the same length and count keeps the
    shape. *)
Lemma wf_segments_update size c ss i s s' :
  ArrayList.wf_segments size c ss →
  ss !! Z.to_nat i = Some s →
  len (Segment.arr s') = len (Segment.arr s) →
  Segment.count s' = Segment.count s →
  ArrayList.wf_segments size c (update ss i s').
Proof.
  intros Hss Hs Hlen Hcnt. apply wf_segments_intro. intros j sj Hj.
  unfold update in Hj.
  destruct (decide (j = Z.to_nat i)) as [->|Hne].
  - rewrite list_lookup_insert_eq in Hj by (by eapply lookup_lt_Some).
    injection Hj as <-. rewrite Hlen, Hcnt.
    by eapply wf_segments_lookup.
  - rewrite list_lookup_insert_ne in Hj by done.
    by eapply wf_segments_lookup.
Qed.

Lemma store_spec al p v w :
  ArrayList.wf al → ArrayList.load al p = Ret w →
  ∃ al', ArrayList.store al p v = Ret al' ∧
         ArrayList.wf al' ∧
         ArrayList.load al' p = Ret v ∧
         ArrayList.count al' = ArrayList.count al ∧
         ArrayList.defaultValue al' = ArrayList.defaultValue al ∧
         ArrayList.segmentIdx al' = ArrayList.segmentIdx al ∧
         ArrayList.segmentSizeShift al' = ArrayList.segmentSizeShift al ∧
         ArrayList.segmentSizeMask al' = ArrayList.segmentSizeMask al ∧
         len (ArrayList.segments al') = len (ArrayList.segments al).
Proof.
  intros Hwf Hload. unfold ArrayList.load in Hload.
  destruct (index (ArrayList.segments al) (ArrayList.seg p)) as [s|] eqn:Hs;
    [|done]. simpl in Hload.
  apply index_Ret_inv in Hs as [Hseg Hs].
  pose proof Hload as Hw. apply index_Ret_inv in Hw as [Hoff Hw].
  unfold ArrayList.store.
  rewrite (index_Ret _ _ s) by (done || lia). simpl.
  rewrite Hload. simpl.
  eexists. split; [done|].
  split; [|split; [|simpl; by rewrite ?len_update]].
  - destruct Hwf. constructor; simpl; rewrite ?len_update; try done.
    eapply wf_segments_update; [done..| |done].
    simpl. by rewrite len_update.
  - unfold ArrayList.load. simpl.
    rewrite index_update_eq by done. simpl.
    by rewrite index_update_eq.
Qed.

(** A store leaves every other slot as it was. *)
Lemma store_other al p v al' p' :
  ArrayList.store al p v = Ret al' → p' ≠ p →
  ArrayList.load al' p' = ArrayList.load al p'.
Proof.
  unfold ArrayList.store. intros Hst Hne.
  destruct (index (ArrayList.segments al) (ArrayList.seg p)) as [s|] eqn:Hs;
    [|done]. simpl in Hst.
  destruct (index (Segment.arr s) (ArrayList.off p)) as [w|] eqn:Hw;
    [|done]. simpl in Hst. injection Hst as <-.
  pose proof Hs as Hs'. apply index_Ret_inv in Hs' as [Hseg _].
  pose proof Hw as Hw'. apply index_Ret_inv in Hw' as [Hoff _].
  unfold ArrayList.load. simpl.
  destruct (decide (ArrayList.seg p = ArrayList.seg p')) as [Heq|Hseg'].
  - rewrite <- Heq, Hs, index_update_eq by done. simpl.
    apply index_update_ne; [lia|].
    intros Hoff'. apply Hne. destruct p, p'; simpl in *. congruence.
  - by rewrite index_update_ne by (done || lia).
Qed.

End ArrayListStore.

(** ** Allocation in the segmented list *)

Section ArrayListAlloc.
Context {T : Type} `{Zero T}.
Implicit Types (al : ArrayList.t T) (ss : list (Segment.t T)).

Lemma make_Ret (n : Z) :
  0 ≤ n → make (T:=T) n = Ret (replicate (Z.to_nat n) zero).
Proof. intros Hn. unfold make. destruct (Z.ltb_spec n 0); [lia|done]. Qed.

Lemma len_replicate (n : Z) (x : T) :
  0 ≤ n → len (replicate (Z.to_nat n) x) = n.
Proof. intros Hn. unfold len. rewrite length_replicate. lia. Qed.

(** Appending an empty segment behind the elements. *)
Lemma wf_segments_snoc size c ss a :
  0 < size → ArrayList.wf_segments size c ss →
  c ≤ len ss * size → len a = size →
  ArrayList.wf_segments size c (ss ++ [Segment.mk a 0]).
Proof.
  intros Hsize Hss Hc Ha. apply wf_segments_intro. intros j s Hj.
  apply lookup_app_Some in Hj as [Hj|[Hge Hj]].
  - by eapply wf_segments_lookup.
  - apply list_lookup_singleton_Some in Hj as [Hj <-]. simpl.
    split; [done|]. unfold len in Hc. nia.
Qed.

(** Claiming the next slot of segment [i], the one element [c] falls in. *)
Lemma wf_segments_bump size c ss (i : nat) s :
  0 < size → ArrayList.wf_segments size c ss →
  ss !! i = Some s →
  Z.of_nat i * size ≤ c < Z.of_nat i * size + size →
  ArrayList.wf_segments size (c + 1)
    (<[i := Segment.mk (Segment.arr s) (Segment.count s + 1)]> ss).
Proof.
  intros Hsize Hss Hs Hc. apply wf_segments_intro. intros j sj Hj.
  destruct (decide (i = j)) as [<-|Hne].
  - rewrite list_lookup_insert_eq in Hj by (by eapply lookup_lt_Some).
    injection Hj as <-. simpl.
    destruct (wf_segments_lookup _ _ _ _ _ Hss Hs) as [-> ->].
    split; [done|]. lia.
  - rewrite list_lookup_insert_ne in Hj by done.
    destruct (wf_segments_lookup _ _ _ _ _ Hss Hj) as [-> ->].
    split; [done|].
    destruct (decide (j < i)%nat); nia.
Qed.

(** The first half of [Alloc] makes sure the cursor segment has room. *)
Lemma room_spec al :
  ArrayList.wf al →
  ∃ ss i,
    (if len (ArrayList.segments al) =? 0 then ArrayList.append_segment al
     else
       cur ← index (ArrayList.segments al) (ArrayList.segmentIdx al);
       if Segment.count cur =? ArrayList.segmentSize al then
         al ← (if ArrayList.segmentIdx al =? len (ArrayList.segments al) - 1
               then ArrayList.append_segment al else Ret al);
         Ret (ArrayList.with_segmentIdx al (ArrayList.segmentIdx al + 1))
       else Ret al) =
      Ret (ArrayList.with_segmentIdx (ArrayList.with_segments al ss) i) ∧
    ArrayList.wf_segments (ArrayList.segmentSize al) (ArrayList.count al) ss ∧
    0 ≤ i < len ss ∧ len ss ≤ i + 2 ∧
    i * ArrayList.segmentSize al ≤ ArrayList.count al
      < i * ArrayList.segmentSize al + ArrayList.segmentSize al.
Proof.
  intros Hwf. pose proof (wf_size_pos _ Hwf) as Hpos.
  pose proof (ArrayList.wf_idx _ Hwf) as Hidx.
  pose proof (ArrayList.wf_count _ Hwf) as Hcnt.
  pose proof (ArrayList.wf_segs _ Hwf) as Hsegs.
  unfold ArrayList.append_segment.
  destruct (Z.eqb_spec (len (ArrayList.segments al)) 0) as [Hnil|Hne].
  - destruct (ArrayList.wf_nil _ Hwf Hnil) as [Hi Hc].
    rewrite make_Ret by lia. simpl.
    exists (ArrayList.segments al ++
              [Segment.mk (replicate (Z.to_nat (ArrayList.segmentSize al)) zero) 0]), 0.
    split; [by destruct al; simpl in *; subst|].
    rewrite len_app. change (len [_]) with 1.
    split; [|lia].
    apply wf_segments_snoc; [done|done|lia|]. apply len_replicate. lia.
  - pose proof (ArrayList.wf_len _ Hwf Hne) as Hlen.
    destruct (wf_cursor_lookup _ Hwf Hne) as (cur & Hcur & Harr & Hc).
    rewrite (index_Ret _ _ cur) by done. simpl.
    destruct (Z.eqb_spec (Segment.count cur) (ArrayList.segmentSize al))
      as [Hfull|Hroom].
    + destruct (Z.eqb_spec (ArrayList.segmentIdx al)
                  (len (ArrayList.segments al) - 1)) as [Hlast|Hspare].
      * rewrite make_Ret by lia. simpl.
        eexists _, _. split; [done|].
        rewrite len_app. change (len [_]) with 1.
        split; [|lia].
        apply wf_segments_snoc; [done|done|nia|]. apply len_replicate. lia.
      * simpl. exists (ArrayList.segments al), (ArrayList.segmentIdx al + 1).
        split; [by destruct al|]. split; [done|]. lia.
    + exists (ArrayList.segments al), (ArrayList.segmentIdx al).
      split; [by destruct al|]. split; [done|]. lia.
Qed.

Lemma Alloc_spec al :
  ArrayList.wf al →
  ∃ al', ArrayList.Alloc al =
           Ret (ArrayList.Ptr
                  (Z.shiftr (ArrayList.count al) (ArrayList.segmentSizeShift al))
                  (Z.land (ArrayList.count al) (ArrayList.segmentSizeMask al)),
                al') ∧
         ArrayList.wf al' ∧
         ArrayList.count al' = ArrayList.count al + 1 ∧
         ArrayList.defaultValue al' = ArrayList.defaultValue al ∧
         ArrayList.segmentSize al' = ArrayList.segmentSize al ∧
         ArrayList.segmentSizeShift al' = ArrayList.segmentSizeShift al ∧
         ArrayList.segmentSizeMask al' = ArrayList.segmentSizeMask al.
Proof.
  intros Hwf. pose proof (wf_size_pos _ Hwf) as Hpos.
  destruct (room_spec al Hwf) as (ss & i & Hroom & Hss & Hi & Hlen & Hc).
  unfold ArrayList.Alloc. rewrite Hroom. simpl.
  destruct (index_in_range ss i) as (s & Hs & ->); [lia|]. simpl.
  destruct (wf_segments_lookup _ _ _ _ _ Hss Hs) as [Harr Hcs].
  rewrite Z2Nat.id in Hcs by lia.
  assert (Segment.count s = ArrayList.count al - i * ArrayList.segmentSize al)
    as Hcs' by lia.
  destruct (index_in_range (Segment.arr s) (Segment.count s + 1 - 1))
    as (v & _ & ->); [lia|]. simpl.
  eexists. split.
  { f_equal. f_equal.
    rewrite wf_shift_div, wf_mask_mod by done.
    destruct (div_mod_slot (ArrayList.segmentSize al) i (Segment.count s))
      as [Hq Hr]; [lia|].
    replace (ArrayList.count al)
      with (i * ArrayList.segmentSize al + Segment.count s) by lia.
    rewrite Hq, Hr. f_equal. lia. }
  split; [|done].
  destruct Hwf. constructor; simpl; rewrite ?len_update; try done; try lia.
  unfold update. apply wf_segments_bump; try done.
  by rewrite Z2Nat.id by lia.
Qed.

End ArrayListAlloc.

(** ** Removal at the tail of the segmented list *)

Section ArrayListRemove.
Context {T : Type} `{Zero T}.
Implicit Types (al : ArrayList.t T) (ss : list (Segment.t T)).

(** Giving back the last slot of segment [i], the one element [c - 1]
    falls in. *)
Lemma wf_segments_unbump size c ss (i : nat) s :
  0 < size → ArrayList.wf_segments size c ss →
  ss !! i = Some s →
  Z.of_nat i * size < c ≤ Z.of_nat i * size + size →
  ArrayList.wf_segments size (c - 1)
    (<[i := Segment.mk (Segment.arr s) (Segment.count s - 1)]> ss).
Proof.
  intros Hsize Hss Hs Hc. apply wf_segments_intro. intros j sj Hj.
  destruct (decide (i = j)) as [<-|Hne].
  - rewrite list_lookup_insert_eq in Hj by (by eapply lookup_lt_Some).
    injection Hj as <-. simpl.
    destruct (wf_segments_lookup _ _ _ _ _ Hss Hs) as [-> ->].
    split; [done|]. lia.
  - rewrite list_lookup_insert_ne in Hj by done.
    destruct (wf_segments_lookup _ _ _ _ _ Hss Hj) as [-> ->].
    split; [done|].
    destruct (decide (j < i)%nat); nia.
Qed.

Lemma wf_segments_take size c ss n :
  ArrayList.wf_segments size c ss → ArrayList.wf_segments size c (take n ss).
Proof.
  intros Hss. apply wf_segments_intro. intros j sj Hj.
  apply lookup_take_Some in Hj as [Hj _]. by eapply wf_segments_lookup.
Qed.

(** The three ways [RemoveLast] leaves a non-empty list: the cursor segment
    keeps elements; it is drained and was the last segment; it is drained
    and the segment behind it is released. *)
Lemma RemoveLast_cases al :
  ArrayList.wf al → 0 < ArrayList.count al →
  ∃ cur, ArrayList.segments al !! Z.to_nat (ArrayList.segmentIdx al) = Some cur ∧
    let i := ArrayList.segmentIdx al in
    let ss := update (ArrayList.segments al) i
                (Segment.mk (Segment.arr cur) (Segment.count cur - 1)) in
    let al1 := ArrayList.with_count (ArrayList.with_segments al ss)
                 (ArrayList.count al - 1) in
    let al2 := if i >? 0 then ArrayList.with_segmentIdx al1 (i - 1) else al1 in
    0 < Segment.count cur ∧
    ArrayList.RemoveLast al =
      Ret (if Segment.count cur - 1 >? 0 then al1
           else if len (ArrayList.segments al) - 1 =? i then al2
           else ArrayList.with_segments al2
                  (take (Z.to_nat (i + 1))
                     (update ss (i + 1) (Segment.mk [] 0)))).
Proof.
  intros Hwf Hcount.
  assert (len (ArrayList.segments al) ≠ 0) as Hne.
  { intros Hl. destruct (ArrayList.wf_nil _ Hwf Hl). lia. }
  pose proof (ArrayList.wf_len _ Hwf Hne) as Hlen.
  pose proof (ArrayList.wf_idx _ Hwf) as Hidx.
  pose proof (ArrayList.wf_cursor _ Hwf) as Hcur0.
  destruct (wf_cursor_lookup _ Hwf Hne) as (cur & Hcur & Harr & Hc).
  exists cur. split; [done|]. intros i ss al1 al2.
  split.
  { subst i. destruct (decide (0 < ArrayList.segmentIdx al)) as [Hpos|Hzero].
    - specialize (Hcur0 Hpos). lia.
    - replace (ArrayList.segmentIdx al) with 0 in Hc by lia. lia. }
  unfold ArrayList.RemoveLast.
  destruct (Z.leb_spec (ArrayList.count al) 0); [lia|].
  rewrite (index_Ret _ _ cur) by done. simpl.
  fold i. fold ss. fold al1.
  destruct (Segment.count cur - 1 >? 0); [done|].
  change (ArrayList.segmentIdx al1) with i.
  fold al2.
  replace (ArrayList.segments al2) with ss by (subst al2; by destruct (i >? 0)).
  subst ss. rewrite len_update.
  destruct (Z.eqb_spec (len (ArrayList.segments al) - 1) i) as [Hlast|Hspare];
    [done|].
  destruct (index_in_range
              (update (ArrayList.segments al) i
                 (Segment.mk (Segment.arr cur) (Segment.count cur - 1))) (i + 1))
    as (nxt & _ & ->); [rewrite len_update; lia|]. simpl.
  done.
Qed.

Lemma RemoveLast_spec al :
  ArrayList.wf al → 0 < ArrayList.count al →
  ∃ al', ArrayList.RemoveLast al = Ret al' ∧
         ArrayList.wf al' ∧
         ArrayList.count al' = ArrayList.count al - 1.
Proof.
  intros Hwf Hcount. pose proof (wf_size_pos _ Hwf) as Hpos.
  assert (len (ArrayList.segments al) ≠ 0) as Hne.
  { intros Hl. destruct (ArrayList.wf_nil _ Hwf Hl). lia. }
  pose proof (ArrayList.wf_len _ Hwf Hne) as Hlen.
  pose proof (ArrayList.wf_idx _ Hwf) as Hidx.
  pose proof (ArrayList.wf_count _ Hwf) as Hcnt.
  destruct (RemoveLast_cases al Hwf Hcount) as (cur & Hcur & Hc0 & ->).
  destruct (wf_segments_lookup _ _ _ _ _ (ArrayList.wf_segs _ Hwf) Hcur)
    as [Harr Hc]. rewrite Z2Nat.id in Hc by lia.
  assert (ArrayList.wf_segments (ArrayList.segmentSize al) (ArrayList.count al - 1)
            (update (ArrayList.segments al) (ArrayList.segmentIdx al)
               (Segment.mk (Segment.arr cur) (Segment.count cur - 1)))) as Hss.
  { unfold update. apply wf_segments_unbump; try done.
    - apply (ArrayList.wf_segs _ Hwf).
    - rewrite Z2Nat.id by lia. lia. }
  eexists. split; [done|].
  destruct (Z.gtb_spec (Segment.count cur - 1) 0) as [Hkeep|Hdrain].
  { split; [|done].
    destruct Hwf. constructor; simpl; rewrite ?len_update; try done; lia. }
  destruct (Z.eqb_spec (len (ArrayList.segments al) - 1) (ArrayList.segmentIdx al))
    as [Hlast|Hspare].
  - destruct (Z.gtb_spec (ArrayList.segmentIdx al) 0) as [Hback|Hzero].
    + split; [|done].
      destruct Hwf. constructor; simpl; rewrite ?len_update; try done; lia.
    + split; [|done].
      destruct Hwf. constructor; simpl; rewrite ?len_update; try done; lia.
  - assert (len (take (Z.to_nat (ArrayList.segmentIdx al + 1))
                   (update
                      (update (ArrayList.segments al) (ArrayList.segmentIdx al)
                         (Segment.mk (Segment.arr cur) (Segment.count cur - 1)))
                      (ArrayList.segmentIdx al + 1) (Segment.mk [] 0)))
            = ArrayList.segmentIdx al + 1) as Hlen'.
    { unfold len, update in *.
      rewrite length_take, !length_insert. lia. }
    assert (ArrayList.wf_segments (ArrayList.segmentSize al) (ArrayList.count al - 1)
              (take (Z.to_nat (ArrayList.segmentIdx al + 1))
                 (update
                    (update (ArrayList.segments al) (ArrayList.segmentIdx al)
                       (Segment.mk (Segment.arr cur) (Segment.count cur - 1)))
                    (ArrayList.segmentIdx al + 1) (Segment.mk [] 0)))) as Hss'.
    { unfold update at 1. rewrite take_insert_ge by lia.
      by apply wf_segments_take. }
    destruct (Z.gtb_spec (ArrayList.segmentIdx al) 0) as [Hback|Hzero].
    + split; [|done].
      destruct Hwf. constructor; simpl; rewrite ?Hlen'; try done; lia.
    + split; [|done].
      destruct Hwf. constructor; simpl; rewrite ?Hlen'; try done; lia.
Qed.

End ArrayListRemove.

(** ** Construction of the segmented list *)

Section NewArrayList.
Context {T : Type} `{Zero T}.

Lemma trailing_pow2 (fuel : nat) k :
  0 ≤ k < Z.of_nat fuel → trailing fuel (2 ^ k) = k.
Proof.
  revert k. induction fuel as [|fuel IH]; intros k Hk; [lia|].
  cbn [trailing]. rewrite Z.pow2_bits_eqb by lia.
  destruct (Z.eqb_spec k 0) as [->|Hne]; [done|].
  rewrite Z.shiftr_div_pow2 by lia.
  replace (2 ^ k) with (2 ^ (k - 1) * 2 ^ 1)
    by (rewrite <- Z.pow_add_r by lia; f_equal; lia).
  rewrite Z.div_mul by lia. rewrite IH by lia. lia.
Qed.

Lemma TrailingZeros_pow2 k : 0 ≤ k < 64 → TrailingZeros (2 ^ k) = k.
Proof.
  intros Hk. unfold TrailingZeros.
  destruct (Z.eqb_spec (2 ^ k) 0) as [H0|_].
  - pose proof (Z.pow_pos_nonneg 2 k). lia.
  - apply trailing_pow2. unfold uint_size. lia.
Qed.

(** For a segment size in range of the rounding, a new list has the
    rounded size, the matching mask and shift, and no segments. *)
Lemma NewArrayList_wf n :
  0 < n ≤ 2 ^ 32 →
  ArrayList.wf (ArrayList.NewArrayList (T:=T) n) ∧
  round_up_pow2 n (ArrayList.segmentSize (ArrayList.NewArrayList (T:=T) n)).
Proof.
  intros Hn. unfold ArrayList.NewArrayList.
  destruct (Z.leb_spec n 0); [lia|].
  rewrite (wrap_uint_small n) by lia.
  pose proof (NearestPowerOf2_spec n Hn) as Hr.
  destruct Hr as (Hpow & Hle & Hmin).
  pose proof Hpow as (k & Hk & Hkeq).
  assert (k ≤ 32) as Hk32.
  { assert (ArrayList.NearestPowerOf2 n ≤ 2 ^ 32) as Hb
      by (apply Hmin; [by exists 32|lia]).
    rewrite Hkeq in Hb.
    destruct (decide (k ≤ 32)) as [|Hgt]; [done|].
    assert (2 ^ 33 ≤ 2 ^ k) by (apply Z.pow_le_mono_r; lia). lia. }
  assert (2 ^ k ≤ 2 ^ 32) by (apply Z.pow_le_mono_r; lia).
  assert (0 < 2 ^ k) by (apply Z.pow_pos_nonneg; lia).
  rewrite Hkeq. rewrite (wrap_int_small (2 ^ k)) by lia.
  rewrite (wrap_uint_small (2 ^ k)) by lia.
  rewrite TrailingZeros_pow2 by lia. simpl.
  split.
  - constructor; simpl; try done; try lia.
  - rewrite <- Hkeq. done.
Qed.

End NewArrayList.

(** ** The index pool: single calls *)

Section PoolFacts.
Context {T : Type} `{Zero T}.
Implicit Types (p : Pool.t T) (al : ArrayList.t T).

(** [Free] does nothing for an index outside the list or already free. *)
Lemma Pool_Free_noop p id :
  id < 0 ∨ ArrayList.count (Pool.items p) ≤ id ∨ id ∈ Pool.frees p →
  Pool.Free id p = Ret p.
Proof.
  intros Hid. unfold Pool.Free, ArrayList.Count.
  destruct (Z.ltb_spec id 0); [done|].
  destruct (Z.geb_spec id (ArrayList.count (Pool.items p))); [done|]. simpl.
  destruct (decide (id ∈ Pool.frees p)); [done|].
  destruct Hid as [?|[?|?]]; [lia|lia|done].
Qed.

(** [Free] of a live index resets its slot and registers it. *)
Lemma Pool_Free_live p id :
  Pool.wf p → 0 ≤ id < ArrayList.count (Pool.items p) → id ∉ Pool.frees p →
  ∃ al, Pool.Free id p = Ret (Pool.mk ({[id]} ∪ Pool.frees p) al) ∧
        Pool.wf (Pool.mk ({[id]} ∪ Pool.frees p) al) ∧
        ArrayList.count al = ArrayList.count (Pool.items p) ∧
        ArrayList.Get al id = Ret (ArrayList.defaultValue (Pool.items p)).
Proof.
  intros [Hitems Hfrees Hdef] Hid Hlive.
  unfold Pool.Free, ArrayList.Count.
  destruct (Z.ltb_spec id 0); [lia|].
  destruct (Z.geb_spec id (ArrayList.count (Pool.items p))); [lia|]. simpl.
  destruct (decide (id ∈ Pool.frees p)); [done|].
  rewrite GetRef_in_range by done. simpl.
  destruct (wf_locate _ id Hitems Hid) as (s & v & Hs & Hv & Hq & Hr & _).
  set (ptr := ArrayList.Ptr _ _).
  assert (ArrayList.load (Pool.items p) ptr = Ret v) as Hload.
  { unfold ArrayList.load. subst ptr. simpl.
    rewrite (index_Ret _ _ s) by (done || lia). simpl.
    apply index_Ret; [lia|done]. }
  destruct (store_spec _ ptr (ArrayList.defaultValue (Pool.items p)) v Hitems Hload)
    as (al & -> & Hwf & Hload' & Hcnt & Hdef' & _ & Hshift & Hmask & _).
  simpl. exists al. split; [done|]. split; [|split; [done|]].
  - constructor; simpl; [done| |congruence].
    rewrite Hcnt. apply set_Forall_union; [|done].
    by apply set_Forall_singleton.
  - rewrite Get_in_range by (done || lia).
    rewrite Hshift, Hmask. done.
Qed.

(** In every case [Free] returns, keeps the invariant and the list's count,
    and the free set is the old one with the index added when it was live. *)
Lemma Pool_Free_spec p id :
  Pool.wf p →
  ∃ p', Pool.Free id p = Ret p' ∧ Pool.wf p' ∧
        ArrayList.count (Pool.items p') = ArrayList.count (Pool.items p) ∧
        Pool.frees p' =
          if decide (0 ≤ id < ArrayList.count (Pool.items p))
          then {[id]} ∪ Pool.frees p else Pool.frees p.
Proof.
  intros Hwf.
  destruct (decide (0 ≤ id < ArrayList.count (Pool.items p))) as [Hin|Hout].
  - destruct (decide (id ∈ Pool.frees p)) as [Hfree|Hlive].
    + rewrite Pool_Free_noop by auto.
      exists p. split; [done|]. split; [done|]. split; [done|].
      symmetry. apply subseteq_union_1_L. by apply singleton_subseteq_l.
    + destruct (Pool_Free_live p id Hwf Hin Hlive) as (al & -> & Hwf' & Hcnt & _).
      by eexists.
  - rewrite Pool_Free_noop by lia. by exists p.
Qed.

Lemma Pool_reuse_spec p k :
  Pool.wf p → k ∈ Pool.frees p →
  Pool.reuse k p =
    Ret (k,
         ArrayList.Ptr (Z.shiftr k (ArrayList.segmentSizeShift (Pool.items p)))
                       (Z.land k (ArrayList.segmentSizeMask (Pool.items p))),
         Pool.mk (Pool.frees p ∖ {[k]}) (Pool.items p)) ∧
  Pool.wf (Pool.mk (Pool.frees p ∖ {[k]}) (Pool.items p)).
Proof.
  intros [Hitems Hfrees Hdef] Hk. unfold Pool.reuse. simpl.
  rewrite GetRef_in_range by (done || by apply Hfrees). simpl.
  split; [done|]. constructor; simpl; [done| |done].
  intros j Hj. apply Hfrees. by apply elem_of_difference in Hj as [? _].
Qed.

Lemma Pool_extend_spec p :
  Pool.wf p →
  ∃ al, Pool.extend p =
          Ret (ArrayList.count (Pool.items p),
               ArrayList.Ptr
                 (Z.shiftr (ArrayList.count (Pool.items p))
                    (ArrayList.segmentSizeShift (Pool.items p)))
                 (Z.land (ArrayList.count (Pool.items p))
                    (ArrayList.segmentSizeMask (Pool.items p))),
               Pool.mk (Pool.frees p) al) ∧
        Pool.wf (Pool.mk (Pool.frees p) al) ∧
        ArrayList.count al = ArrayList.count (Pool.items p) + 1 ∧
        ArrayList.segmentSizeShift al = ArrayList.segmentSizeShift (Pool.items p) ∧
        ArrayList.segmentSizeMask al = ArrayList.segmentSizeMask (Pool.items p).
Proof.
  intros [Hitems Hfrees Hdef]. unfold Pool.extend.
  destruct (Alloc_spec _ Hitems)
    as (al & -> & Hwf & Hcnt & Hdef' & _ & Hshift & Hmask).
  simpl. exists al. split; [done|]. split; [|done].
  constructor; simpl; [done| |congruence].
  intros j Hj. specialize (Hfrees j Hj). simpl in Hfrees. lia.
Qed.

(** A non-empty set has a positive size, and conversely. *)
Lemma size_pos_elem (X : gset Z) : (0 < size X)%nat ↔ ∃ k, k ∈ X.
Proof.
  split.
  - intros Hs. apply size_pos_elem_of. lia.
  - intros [k Hk]. destruct (decide (size X = 0%nat)) as [H0|]; [|lia].
    apply size_empty_inv in H0. by apply H0 in Hk.
Qed.

Lemma size_zero_empty (X : gset Z) : ¬ (0 < size X)%nat ↔ X = ∅.
Proof.
  split.
  - intros Hs. apply leibniz_equiv, size_empty_iff. lia.
  - intros ->. rewrite size_empty. lia.
Qed.

End PoolFacts.

(** ** The index pool: batches of calls *)

Section PoolBatches.
Context {T : Type} `{Zero T}.
Implicit Types (p : Pool.t T) (al : ArrayList.t T).

(** What a call of [Alloc] that returns has done. *)
Lemma Pool_Alloc_inv p id r p' :
  Pool.wf p → Pool.Alloc p (Ret (id, r, p')) →
  Pool.wf p' ∧
  r = ArrayList.Ptr (Z.shiftr id (ArrayList.segmentSizeShift (Pool.items p)))
                    (Z.land id (ArrayList.segmentSizeMask (Pool.items p))) ∧
  ((id ∈ Pool.frees p ∧ Pool.frees p' = Pool.frees p ∖ {[id]} ∧
    Pool.items p' = Pool.items p) ∨
   (Pool.frees p = ∅ ∧ Pool.frees p' = ∅ ∧
    id = ArrayList.count (Pool.items p) ∧
    ArrayList.count (Pool.items p') = ArrayList.count (Pool.items p) + 1)).
Proof.
  intros Hwf Halloc. inversion Halloc as [k Hsize Hk Hr|Hsize Hr].
  - destruct (Pool_reuse_spec p k Hwf Hk) as [Heq Hwf'].
    rewrite Heq in Hr. injection Hr as <- <- <-.
    split; [done|]. split; [done|]. left. done.
  - destruct (Pool_extend_spec p Hwf) as (al & Heq & Hwf' & Hcnt & _).
    rewrite Heq in Hr. injection Hr as <- <- <-.
    apply size_zero_empty in Hsize.
    split; [done|]. split; [done|]. right. simpl. by rewrite Hsize.
Qed.

(** Under the invariant [Alloc] always has an outcome, and it returns. *)
Lemma Pool_Alloc_total p :
  Pool.wf p → ∃ id r p', Pool.Alloc p (Ret (id, r, p')).
Proof.
  intros Hwf. destruct (decide (0 < size (Pool.frees p))%nat) as [Hpos|Hzero].
  - pose proof Hpos as Hk. apply size_pos_elem in Hk as [k Hk].
    destruct (Pool_reuse_spec p k Hwf Hk) as [Heq _].
    eexists _, _, _. rewrite <- Heq. by constructor.
  - destruct (Pool_extend_spec p Hwf) as (al & Heq & _).
    eexists _, _, _. rewrite <- Heq. by constructor.
Qed.

Lemma Pool_AllocMany_length n p ids p' :
  Pool.AllocMany n p ids p' → length ids = n.
Proof. induction 1; simpl; congruence. Qed.

Lemma Pool_AllocMany_total n p :
  Pool.wf p → ∃ ids p', Pool.AllocMany n p ids p'.
Proof.
  revert p. induction n as [|n IH]; intros p Hwf.
  - exists [], p. constructor.
  - destruct (Pool_Alloc_total p Hwf) as (id & r & p1 & Halloc).
    destruct (Pool_Alloc_inv _ _ _ _ Hwf Halloc) as [Hwf1 _].
    destruct (IH p1 Hwf1) as (ids & p2 & Hmany).
    exists (id :: ids), p2. by econstructor.
Qed.

(** With no free index, a batch extends the list: the indices are the next
    [n] ones, in order. *)
Lemma Pool_AllocMany_fresh n p ids p' :
  Pool.wf p → Pool.frees p = ∅ → Pool.AllocMany n p ids p' →
  ids = seqZ (ArrayList.count (Pool.items p)) (Z.of_nat n) ∧
  Pool.wf p' ∧ Pool.frees p' = ∅ ∧
  ArrayList.count (Pool.items p') = ArrayList.count (Pool.items p) + Z.of_nat n.
Proof.
  intros Hwf Hfrees Hmany. induction Hmany as [p|n p id r p1 ids p2 Halloc _ IH].
  - simpl. split; [done|]. split; [done|]. split; [done|]. lia.
  - destruct (Pool_Alloc_inv _ _ _ _ Hwf Halloc) as (Hwf1 & _ & Hcase).
    destruct Hcase as [(Hin & _)|(_ & Hfrees1 & -> & Hcnt)].
    { rewrite Hfrees in Hin. by apply not_elem_of_empty in Hin. }
    destruct (IH Hwf1 Hfrees1) as (-> & Hwf2 & Hfrees2 & Hcnt2).
    split; [|split; [done|split; [done|lia]]].
    rewrite (seqZ_cons _ (Z.of_nat (S n))) by lia.
    rewrite Hcnt. f_equal. f_equal; lia.
Qed.

(** With at least [n] free indices, a batch only reuses: the indices are
    distinct members of the free set, and the list is left alone. *)
Lemma Pool_AllocMany_reuse n p ids p' :
  Pool.wf p → (n ≤ size (Pool.frees p))%nat → Pool.AllocMany n p ids p' →
  NoDup ids ∧ (∀ k, k ∈ ids → k ∈ Pool.frees p) ∧
  Pool.frees p' = Pool.frees p ∖ list_to_set ids ∧
  Pool.items p' = Pool.items p ∧ Pool.wf p'.
Proof.
  intros Hwf Hsize Hmany.
  induction Hmany as [p|n p id r p1 ids p2 Halloc _ IH].
  - split; [constructor|]. split; [by intros k ?%elem_of_nil|].
    split; [|done]. simpl. apply leibniz_equiv. set_solver.
  - destruct (Pool_Alloc_inv _ _ _ _ Hwf Halloc) as (Hwf1 & _ & Hcase).
    destruct Hcase as [(Hin & Hfrees1 & Hitems1)|(Hempty & _)].
    2: { rewrite Hempty, size_empty in Hsize. lia. }
    assert (n ≤ size (Pool.frees p1))%nat as Hsize1.
    { rewrite Hfrees1, size_difference by (by apply singleton_subseteq_l).
      rewrite size_singleton. lia. }
    destruct (IH Hwf1 Hsize1) as (Hnd & Hsub & Hfrees2 & Hitems2 & Hwf2).
    split; [|split; [|split; [|split; [congruence|done]]]].
    + constructor; [|done]. intros Hid. apply Hsub in Hid.
      rewrite Hfrees1 in Hid. set_solver.
    + intros k [->|Hk]%elem_of_cons; [done|].
      apply Hsub in Hk. rewrite Hfrees1 in Hk. set_solver.
    + rewrite Hfrees2, Hfrees1. simpl. apply leibniz_equiv. set_solver.
Qed.

(** Freeing indices of the list registers all of them. *)
Lemma Pool_FreeAll_spec ids p :
  Pool.wf p →
  (∀ id, id ∈ ids → 0 ≤ id < ArrayList.count (Pool.items p)) →
  ∃ p', Pool.FreeAll ids p = Ret p' ∧ Pool.wf p' ∧
        ArrayList.count (Pool.items p') = ArrayList.count (Pool.items p) ∧
        Pool.frees p' = list_to_set ids ∪ Pool.frees p.
Proof.
  revert p. induction ids as [|id ids IH]; intros p Hwf Hids.
  - exists p. split; [done|]. split; [done|]. split; [done|].
    simpl. by rewrite (left_id_L ∅ (∪)).
  - destruct (Pool_Free_spec p id Hwf) as (p1 & Hfree & Hwf1 & Hcnt1 & Hfrees1).
    destruct (decide _) as [_|Hout] in Hfrees1.
    2: { exfalso. apply Hout, Hids. by left. }
    destruct (IH p1 Hwf1) as (p2 & Hall & Hwf2 & Hcnt2 & Hfrees2).
    { intros k Hk. rewrite Hcnt1. apply Hids. by right. }
    exists p2. simpl. rewrite Hfree. simpl.
    split; [done|]. split; [done|]. split; [congruence|].
    rewrite Hfrees2, Hfrees1. apply leibniz_equiv. set_solver.
Qed.

(** Round trip: from a pool without free indices, a batch of [n], freed in
    any order, comes back as the same indices. *)
Lemma Pool_round_trip n p ids1 p1 order :
  Pool.wf p → Pool.frees p = ∅ →
  Pool.AllocMany n p ids1 p1 → order ≡ₚ ids1 →
  ∃ p2, Pool.FreeAll order p1 = Ret p2 ∧
        (∃ ids2 p3, Pool.AllocMany n p2 ids2 p3) ∧
        (∀ ids2 p3, Pool.AllocMany n p2 ids2 p3 → ids2 ≡ₚ ids1).
Proof.
  intros Hwf Hfrees Hmany Hperm.
  pose proof (Pool_AllocMany_length _ _ _ _ Hmany) as Hlen1.
  destruct (Pool_AllocMany_fresh _ _ _ _ Hwf Hfrees Hmany)
    as (Hids1 & Hwf1 & Hfrees1 & Hcnt1).
  assert (NoDup ids1) as Hnd1 by (rewrite Hids1; apply NoDup_seqZ).
  destruct (Pool_FreeAll_spec order p1 Hwf1) as (p2 & Hall & Hwf2 & Hcnt2 & Hfrees2).
  { intros id Hid. rewrite Hperm, Hids1 in Hid.
    apply elem_of_seqZ in Hid.
    pose proof (ArrayList.wf_count _ (Pool.wf_items _ Hwf)).
    pose proof (ArrayList.wf_idx _ (Pool.wf_items _ Hwf)).
    pose proof (wf_size_pos _ (Pool.wf_items _ Hwf)). nia. }
  assert (Pool.frees p2 = list_to_set ids1) as Hset.
  { rewrite Hfrees2, Hfrees1. apply leibniz_equiv. rewrite Hperm. set_solver. }
  assert (size (Pool.frees p2) = n) as Hsize.
  { rewrite Hset, size_list_to_set by done. done. }
  exists p2. split; [done|]. split; [by apply Pool_AllocMany_total|].
  intros ids2 p3 Hmany2.
  pose proof (Pool_AllocMany_length _ _ _ _ Hmany2) as Hlen2.
  assert (n ≤ size (Pool.frees p2))%nat as Hle by lia.
  destruct (Pool_AllocMany_reuse _ _ _ _ Hwf2 Hle Hmany2)
    as (Hnd2 & Hsub & _).
  apply NoDup_Permutation; [done|done|].
  assert (list_to_set ids2 = Pool.frees p2) as Heq.
  { apply set_subseteq_size_eq.
    - intros k Hk. apply Hsub. by apply elem_of_list_to_set in Hk.
    - rewrite size_list_to_set by done. lia. }
  intros k. rewrite <- (elem_of_list_to_set (C:=gset Z) k ids2), Heq, Hset.
  apply elem_of_list_to_set.
Qed.

End PoolBatches.

(** ** The growable array pool *)

Section ArrayPoolFacts.
Context {T : Type} `{Zero T}.
Implicit Types (ap : ArrayPool.t T).

(** Below 2^62 the growth arithmetic does not wrap. *)
Lemma nextCap_spec c :
  0 ≤ c < 2 ^ 62 →
  ArrayPool.nextCap c = if c <? 256 then c * 2 else c + (c + 3 * 256) / 4.
Proof.
  intros Hc. unfold ArrayPool.nextCap, ArrayPool.threshold.
  destruct (Z.ltb_spec c 256).
  - rewrite wrap_int_small by lia. lia.
  - rewrite (wrap_int_small (c + 3 * 256)) by lia.
    rewrite Z.shiftr_div_pow2 by lia. change (2 ^ 2) with 4.
    assert (0 ≤ (c + 3 * 256) / 4 ≤ c) by (split; [apply Z.div_pos; lia|
      apply Z.div_le_upper_bound; lia]).
    rewrite wrap_int_small by lia. done.
Qed.

Lemma nextCap_grows c :
  1 ≤ c < 2 ^ 62 → c < ArrayPool.nextCap c < 2 ^ 63.
Proof.
  intros Hc. rewrite nextCap_spec by lia.
  destruct (Z.ltb_spec c 256); [lia|].
  assert (1 ≤ (c + 3 * 256) / 4 ≤ c); [|lia].
  split; [apply Z.div_le_lower_bound; lia|apply Z.div_le_upper_bound; lia].
Qed.

Lemma nextCap_ge c :
  0 ≤ c < 2 ^ 62 → c ≤ ArrayPool.nextCap c < 2 ^ 63.
Proof.
  intros Hc. destruct (decide (c = 0)) as [->|Hne]; [by vm_compute|].
  pose proof (nextCap_grows c). lia.
Qed.

(** [copy] into a longer array keeps the source and the tail of the
    destination. *)
Lemma copy_longer {A} (dst src : list A) :
  (length src ≤ length dst)%nat →
  copy dst src = src ++ drop (length src) dst.
Proof. intros Hle. unfold copy. by rewrite take_ge by done. Qed.

(** [grow] of a pool whose array is within range returns an array of the
    next capacity that starts with the old elements, followed by zero
    values. *)
Lemma ArrayPool_grow_spec ap :
  len (ArrayPool.arr ap) < 2 ^ 62 →
  let newCap := ArrayPool.nextCap (len (ArrayPool.arr ap)) in
  ArrayPool.grow ap =
    Ret (ArrayPool.mk
           (ArrayPool.arr ap ++
              replicate (Z.to_nat (newCap - len (ArrayPool.arr ap))) zero)
           (ArrayPool.alloc ap) (ArrayPool.free ap)) ∧
  len (ArrayPool.arr ap ++
         replicate (Z.to_nat (newCap - len (ArrayPool.arr ap))) zero) = newCap.
Proof.
  intros Hlen newCap. pose proof (len_nonneg (ArrayPool.arr ap)) as H0.
  pose proof (nextCap_ge (len (ArrayPool.arr ap)) ltac:(lia)) as Hgrow.
  fold newCap in Hgrow. unfold ArrayPool.grow. fold newCap.
  rewrite make_Ret by lia. simpl. split.
  - f_equal. f_equal. rewrite copy_longer.
    + f_equal. rewrite drop_replicate. f_equal. unfold len. lia.
    + rewrite length_replicate. unfold len in *. lia.
  - rewrite len_app, len_replicate by lia. lia.
Qed.

(** The explicit check of [Free]. *)
Lemma ArrayPool_Free_invalid ap id :
  id ≤ 0 ∨ ArrayPool.alloc ap ≤ id →
  ArrayPool.Free id ap = Panic (FreeInvalidId id (ArrayPool.alloc ap)).
Proof.
  intros Hid. unfold ArrayPool.Free.
  destruct (Z.leb_spec id 0); [done|].
  destruct (Z.geb_spec id (ArrayPool.alloc ap)); [done|lia].
Qed.

(** [Free] of a valid index: the slot takes the sentinel's value [z]; then
    either the allocation pointer steps back, or the index joins the free
    set. *)
Lemma ArrayPool_Free_valid ap id z :
  0 < id < ArrayPool.alloc ap → ArrayPool.alloc ap ≤ len (ArrayPool.arr ap) →
  ArrayPool.arr ap !! 0%nat = Some z →
  ArrayPool.Free id ap =
    Ret (ArrayPool.mk (update (ArrayPool.arr ap) id z)
           (if id =? ArrayPool.alloc ap - 1
            then ArrayPool.alloc ap - 1 else ArrayPool.alloc ap)
           (if id =? ArrayPool.alloc ap - 1
            then ArrayPool.free ap else {[id]} ∪ ArrayPool.free ap)).
Proof.
  intros Hid Halloc Hsent. unfold ArrayPool.Free.
  destruct (Z.leb_spec id 0); [lia|].
  destruct (Z.geb_spec id (ArrayPool.alloc ap)); [lia|]. simpl.
  rewrite (index_Ret _ 0 z) by done. simpl.
  destruct (index_in_range (ArrayPool.arr ap) id) as (v & _ & ->); [lia|].
  simpl. destruct (id =? ArrayPool.alloc ap - 1); [done|].
  destruct (decide (id ∈ ArrayPool.free ap)) as [Hin|Hout]; [|done].
  do 2 f_equal. symmetry. apply subseteq_union_1_L.
  by apply singleton_subseteq_l.
Qed.

Lemma ArrayPool_Free_wf ap id ap' :
  ArrayPool.wf ap → ArrayPool.Free id ap = Ret ap' → ArrayPool.wf ap'.
Proof.
  intros Hwf Hfree.
  destruct (decide (0 < id < ArrayPool.alloc ap)) as [Hid|Hid].
  - destruct Hwf as [Halloc Hsent].
    rewrite (ArrayPool_Free_valid _ _ zero) in Hfree by (done || lia).
    injection Hfree as <-. constructor; simpl.
    + rewrite len_update. destruct (Z.eqb_spec id (ArrayPool.alloc ap - 1)); lia.
    + unfold update. rewrite list_lookup_insert_ne by lia. done.
  - rewrite ArrayPool_Free_invalid in Hfree by lia. done.
Qed.

(** [grow] touches neither the allocation pointer nor the free set. *)
Lemma ArrayPool_grow_fields ap ap' :
  ArrayPool.grow ap = Ret ap' →
  ArrayPool.alloc ap' = ArrayPool.alloc ap ∧
  ArrayPool.free ap' = ArrayPool.free ap.
Proof.
  unfold ArrayPool.grow.
  destruct (make _) as [a|e]; [|done]. simpl. by intros [= <-].
Qed.

(** With room behind the allocation pointer, [Alloc] can only bump it. *)
Lemma ArrayPool_Alloc_room d ap r :
  ArrayPool.alloc ap < len (ArrayPool.arr ap) →
  ArrayPool.Alloc d ap r →
  d = 1%nat ∧
  r = Ret (ArrayPool.alloc ap,
           ArrayPool.mk (ArrayPool.arr ap) (ArrayPool.alloc ap + 1)
             (ArrayPool.free ap)).
Proof. intros Hroom Halloc. by destruct Halloc. Qed.

(** With an empty free set, a call that returns hands out the allocation
    pointer, however often it had to grow. *)
Lemma ArrayPool_Alloc_fresh d ap id ap' :
  ArrayPool.Alloc d ap (Ret (id, ap')) → ArrayPool.free ap = ∅ →
  id = ArrayPool.alloc ap ∧
  ArrayPool.alloc ap' = ArrayPool.alloc ap + 1 ∧
  ArrayPool.free ap' = ∅ ∧
  ArrayPool.alloc ap' ≤ len (ArrayPool.arr ap').
Proof.
  intros Halloc. remember (Ret (id, ap')) as r eqn:Hr.
  induction Halloc as [ap Hroom|ap k _ _ Hk|ap e _ _ _|ap ap1 n r _ _ Hgrow _ IH];
    intros Hfree.
  - injection Hr as <- <-. simpl. repeat split; try done. lia.
  - rewrite Hfree in Hk. by apply not_elem_of_empty in Hk.
  - done.
  - destruct (ArrayPool_grow_fields _ _ Hgrow) as [Ha Hf].
    rewrite <- Ha. apply IH; [done|congruence].
Qed.

Lemma ArrayPool_AllocMany_fresh n ap ids ap' :
  ArrayPool.free ap = ∅ → ArrayPool.AllocMany n ap ids ap' →
  ids = seqZ (ArrayPool.alloc ap) (Z.of_nat n) ∧
  ArrayPool.alloc ap' = ArrayPool.alloc ap + Z.of_nat n ∧
  ArrayPool.free ap' = ∅ ∧
  (n ≠ 0%nat → ArrayPool.alloc ap' ≤ len (ArrayPool.arr ap')).
Proof.
  intros Hfree Hmany.
  induction Hmany as [ap|n d ap id ap1 ids ap2 Halloc Hmany IH].
  - simpl. repeat split; try done. lia.
  - destruct (ArrayPool_Alloc_fresh _ _ _ _ Halloc Hfree)
      as (-> & Ha1 & Hf1 & Hlen1).
    destruct (IH Hf1) as (-> & Ha2 & Hf2 & Hlen2).
    split; [|split; [lia|split; [done|]]].
    + rewrite (seqZ_cons _ (Z.of_nat (S n))) by lia.
      rewrite Ha1. f_equal. f_equal; lia.
    + intros _. destruct n as [|n]; [|by apply Hlen2].
      by inversion Hmany; subst.
Qed.

(** With room for [n] more indices, a batch bumps the pointer [n] times. *)
Lemma ArrayPool_AllocMany_room n ap ids ap' :
  ArrayPool.alloc ap + Z.of_nat n ≤ len (ArrayPool.arr ap) →
  ArrayPool.AllocMany n ap ids ap' →
  ids = seqZ (ArrayPool.alloc ap) (Z.of_nat n) ∧
  ap' = ArrayPool.mk (ArrayPool.arr ap) (ArrayPool.alloc ap + Z.of_nat n)
          (ArrayPool.free ap).
Proof.
  intros Hroom Hmany.
  induction Hmany as [ap|n d ap id ap1 ids ap2 Halloc Hmany IH].
  - simpl. split; [done|]. destruct ap; simpl. f_equal. lia.
  - assert (ArrayPool.alloc ap < len (ArrayPool.arr ap)) as Hlt by lia.
    destruct (ArrayPool_Alloc_room _ _ _ Hlt Halloc) as [_ [= -> ->]].
    simpl in IH. destruct IH as [-> ->]; [lia|].
    split.
    + rewrite (seqZ_cons _ (Z.of_nat (S n))) by lia. f_equal. f_equal; lia.
    + f_equal. lia.
Qed.

Lemma ArrayPool_AllocMany_room_total n ap :
  ArrayPool.alloc ap + Z.of_nat n ≤ len (ArrayPool.arr ap) →
  ∃ ids ap', ArrayPool.AllocMany n ap ids ap'.
Proof.
  revert ap. induction n as [|n IH]; intros ap Hroom.
  - exists [], ap. constructor.
  - destruct (IH (ArrayPool.mk (ArrayPool.arr ap) (ArrayPool.alloc ap + 1)
                    (ArrayPool.free ap))) as (ids & ap' & Hmany);
      [simpl; lia|].
    eexists _, _. econstructor; [|done]. apply ArrayPool.Alloc_next. lia.
Qed.

(** Freeing the most recent index first walks the allocation pointer back
    without touching the free set. *)
Lemma ArrayPool_FreeAll_reverse n ap a :
  1 ≤ a → ArrayPool.alloc ap = a + Z.of_nat n →
  ArrayPool.alloc ap ≤ len (ArrayPool.arr ap) →
  ∃ arr', ArrayPool.FreeAll (reverse (seqZ a (Z.of_nat n))) ap =
            Ret (ArrayPool.mk arr' a (ArrayPool.free ap)) ∧
          len arr' = len (ArrayPool.arr ap).
Proof.
  revert ap. induction n as [|n IH]; intros ap Ha Halloc Hlen.
  - exists (ArrayPool.arr ap). split; [|done]. simpl.
    destruct ap; simpl in *. do 2 f_equal. lia.
  - rewrite seqZ_S, reverse_app. simpl.
    destruct (index_in_range (ArrayPool.arr ap) 0) as (z & Hz & _); [lia|].
    rewrite (ArrayPool_Free_valid _ _ z) by (done || lia).
    destruct (Z.eqb_spec (a + Z.of_nat n) (ArrayPool.alloc ap - 1)); [|lia].
    simpl.
    destruct (IH (ArrayPool.mk (update (ArrayPool.arr ap) (a + Z.of_nat n) z)
                    (ArrayPool.alloc ap - 1) (ArrayPool.free ap)))
      as (arr' & -> & Hlen'); simpl; try lia.
    { rewrite len_update. lia. }
    exists arr'. split; [done|]. rewrite Hlen'. simpl. apply len_update.
Qed.

(** Round trip of the contiguous pool: from a pool without free indices, a
    batch freed most recent first comes back index for index. *)
Lemma ArrayPool_round_trip n ap ids1 ap1 :
  1 ≤ ArrayPool.alloc ap → ArrayPool.free ap = ∅ →
  ArrayPool.AllocMany n ap ids1 ap1 →
  ∃ ap2, ArrayPool.FreeAll (reverse ids1) ap1 = Ret ap2 ∧
         (∃ ids2 ap3, ArrayPool.AllocMany n ap2 ids2 ap3) ∧
         (∀ ids2 ap3, ArrayPool.AllocMany n ap2 ids2 ap3 → ids2 = ids1).
Proof.
  intros Ha Hfree Hmany.
  destruct (ArrayPool_AllocMany_fresh _ _ _ _ Hfree Hmany)
    as (-> & Ha1 & Hf1 & Hlen1).
  destruct n as [|n].
  { inversion Hmany; subst. exists ap1. split; [done|].
    split; [exists [], ap1; constructor|].
    intros ids2 ap3 Hmany2. by inversion Hmany2. }
  specialize (Hlen1 ltac:(done)).
  destruct (ArrayPool_FreeAll_reverse (S n) ap1 (ArrayPool.alloc ap))
    as (arr' & Hall & Hlen'); [done..|].
  eexists. split; [done|].
  assert (ArrayPool.alloc ap + Z.of_nat (S n) ≤ len arr') as Hroom by lia.
  split.
  - by apply ArrayPool_AllocMany_room_total.
  - intros ids2 ap3 Hmany2.
    by destruct (ArrayPool_AllocMany_room (S n) (ArrayPool.mk arr' _ _) _ _
                   Hroom Hmany2) as [-> _].
Qed.

End ArrayPoolFacts.

(** ** Allocation in the growable array pool *)

Section ArrayPoolAlloc.
Context {T : Type} `{Zero T}.
Implicit Types (ap : ArrayPool.t T).

(** Within range, a call of [Alloc] takes one of three courses, and the
    third retries exactly once. *)
Lemma ArrayPool_Alloc_inv d ap r :
  ArrayPool.wf ap → len (ArrayPool.arr ap) < 2 ^ 62 →
  ArrayPool.Alloc d ap r →
  (ArrayPool.alloc ap < len (ArrayPool.arr ap) ∧ d = 1%nat ∧
   r = Ret (ArrayPool.alloc ap,
            ArrayPool.mk (ArrayPool.arr ap) (ArrayPool.alloc ap + 1)
              (ArrayPool.free ap))) ∨
  (ArrayPool.alloc ap = len (ArrayPool.arr ap) ∧ d = 1%nat ∧
   ∃ k, k ∈ ArrayPool.free ap ∧
        r = Ret (k, ArrayPool.mk (ArrayPool.arr ap) (ArrayPool.alloc ap)
                      (ArrayPool.free ap ∖ {[k]}))) ∨
  (ArrayPool.alloc ap = len (ArrayPool.arr ap) ∧ ArrayPool.free ap = ∅ ∧
   d = 2%nat ∧
   r = Ret (ArrayPool.alloc ap,
            ArrayPool.mk
              (ArrayPool.arr ap ++
                 replicate (Z.to_nat (ArrayPool.nextCap (len (ArrayPool.arr ap))
                                      - len (ArrayPool.arr ap))) zero)
              (ArrayPool.alloc ap + 1) (ArrayPool.free ap))).
Proof.
  intros [Halloc Hsent] Hlen Hcall.
  assert (1 ≤ len (ArrayPool.arr ap) < 2 ^ 62) as Hrange by lia.
  destruct (ArrayPool_grow_spec ap Hlen) as [Hgrow Hlen'].
  pose proof (nextCap_grows _ Hrange) as Hnext.
  destruct Hcall as [ap Hroom|ap k Hfull Hsize Hk|ap e Hfull Hsize Hpanic
                    |ap ap1 n r Hfull Hsize Hret Hinner].
  - left. done.
  - right. left. split; [lia|]. split; [done|]. by exists k.
  - rewrite Hgrow in Hpanic. done.
  - right. right. rewrite Hgrow in Hret. injection Hret as <-.
    apply size_zero_empty in Hsize.
    assert (ArrayPool.alloc ap <
              len (ArrayPool.arr ap ++
                     replicate (Z.to_nat (ArrayPool.nextCap (len (ArrayPool.arr ap))
                                          - len (ArrayPool.arr ap))) zero))
      as Hroom by lia.
    destruct (ArrayPool_Alloc_room _ (ArrayPool.mk _ _ _) _ Hroom Hinner)
      as [-> ->].
    split; [lia|]. done.
Qed.

(** Within range [Alloc] always has an outcome. *)
Lemma ArrayPool_Alloc_total ap :
  ArrayPool.wf ap → len (ArrayPool.arr ap) < 2 ^ 62 →
  ∃ d id ap', ArrayPool.Alloc d ap (Ret (id, ap')).
Proof.
  intros [Halloc Hsent] Hlen.
  destruct (decide (ArrayPool.alloc ap < len (ArrayPool.arr ap))) as [Hroom|Hfull].
  { eexists _, _, _. by apply ArrayPool.Alloc_next. }
  destruct (decide (0 < size (ArrayPool.free ap))%nat) as [Hpos|Hzero].
  { pose proof Hpos as Hk. apply size_pos_elem in Hk as [k Hk].
    eexists _, _, _. by apply ArrayPool.Alloc_range. }
  assert (1 ≤ len (ArrayPool.arr ap) < 2 ^ 62) as Hrange by lia.
  destruct (ArrayPool_grow_spec ap Hlen) as [Hgrow Hlen'].
  pose proof (nextCap_grows _ Hrange) as Hnext.
  eexists _, _, _. eapply ArrayPool.Alloc_retry; [done..|].
  apply ArrayPool.Alloc_next. simpl. lia.
Qed.

Lemma ArrayPool_Alloc_wf d ap id ap' :
  ArrayPool.wf ap → len (ArrayPool.arr ap) < 2 ^ 62 →
  ArrayPool.Alloc d ap (Ret (id, ap')) →
  ArrayPool.wf ap' ∧
  (ArrayPool.alloc ap' = ArrayPool.alloc ap ∨
   ArrayPool.alloc ap' = ArrayPool.alloc ap + 1) ∧
  len (ArrayPool.arr ap') ≤
    Z.max (len (ArrayPool.arr ap)) (2 * ArrayPool.alloc ap + 192).
Proof.
  intros Hwf Hlen Hcall. pose proof Hwf as [Halloc Hsent].
  destruct (ArrayPool_Alloc_inv _ _ _ Hwf Hlen Hcall)
    as [(Hroom & _ & [= -> ->])|[(Hfull & _ & k & Hk & [= -> ->])
       |(Hfull & Hfree & _ & [= -> ->])]]; simpl.
  - split; [constructor; simpl; [lia|done]|]. lia.
  - split; [constructor; simpl; [lia|done]|]. lia.
  - assert (1 ≤ len (ArrayPool.arr ap) < 2 ^ 62) as Hrange by lia.
    destruct (ArrayPool_grow_spec ap Hlen) as [_ Hlen'].
    pose proof (nextCap_grows _ Hrange) as Hnext.
    split; [constructor; simpl|].
    + lia.
    + apply lookup_app_l_Some. done.
    + split; [lia|]. rewrite Hlen', nextCap_spec by lia.
      destruct (Z.ltb_spec (len (ArrayPool.arr ap)) 256); [lia|].
      assert ((len (ArrayPool.arr ap) + 3 * 256) / 4
              ≤ len (ArrayPool.arr ap) + 192); [|lia].
      apply Z.div_le_upper_bound; lia.
Qed.

(** A batch of [n] calls runs to its end when the indices it can reach
    stay within range. *)
Lemma ArrayPool_AllocMany_total n ap :
  ArrayPool.wf ap → len (ArrayPool.arr ap) < 2 ^ 62 →
  2 * (ArrayPool.alloc ap + Z.of_nat n) + 192 < 2 ^ 62 →
  ∃ ids ap', ArrayPool.AllocMany n ap ids ap'.
Proof.
  revert ap. induction n as [|n IH]; intros ap Hwf Hlen Hbound.
  - exists [], ap. constructor.
  - destruct (ArrayPool_Alloc_total ap Hwf Hlen) as (d & id & ap1 & Hcall).
    destruct (ArrayPool_Alloc_wf _ _ _ _ Hwf Hlen Hcall) as (Hwf1 & Ha1 & Hlen1).
    destruct (IH ap1 Hwf1) as (ids & ap2 & Hmany); [lia|lia|].
    exists (id :: ids), ap2. by econstructor.
Qed.

End ArrayPoolAlloc.

(** ** New pools *)

Section NewPools.
Context {T : Type} `{Zero T}.

Lemma NewPool_wf n : 0 < n ≤ 2 ^ 32 → Pool.wf (Pool.NewPool (T:=T) n).
Proof.
  intros Hn. destruct (NewArrayList_wf (T:=T) n Hn) as [Hwf _].
  constructor; [done| |done].
  unfold Pool.NewPool. simpl. apply set_Forall_empty.
Qed.

Lemma NewArrayPool_wf cap :
  0 ≤ cap < 2 ^ 63 - 1 →
  ∃ ap, ArrayPool.NewArrayPool (T:=T) cap = Ret ap ∧ ArrayPool.wf ap ∧
        ArrayPool.alloc ap = 1 ∧ ArrayPool.free ap = ∅ ∧
        len (ArrayPool.arr ap) = cap + 1.
Proof.
  intros Hcap. unfold ArrayPool.NewArrayPool.
  destruct (Z.ltb_spec cap 0); [lia|].
  rewrite wrap_int_small by lia. rewrite make_Ret by lia. simpl.
  eexists. split; [done|]. simpl. rewrite len_replicate by lia.
  split; [|done]. constructor; simpl.
  - rewrite len_replicate by lia. lia.
  - apply lookup_replicate_2. lia.
Qed.

(** A call of [Alloc] on a pool without free indices extends the list. *)
Lemma Pool_Alloc_extend (p : Pool.t T) id r p' :
  Pool.frees p = ∅ → Pool.extend p = Ret (id, r, p') →
  Pool.Alloc p (Ret (id, r, p')).
Proof.
  intros Hfrees <-. apply Pool.Alloc_tail. rewrite Hfrees, size_empty. lia.
Qed.

End NewPools.

(** ** The invariants hold in every reachable state *)

Section Reachable.
Context {T : Type} `{Zero T}.

Lemma store_wf (al : ArrayList.t T) p v al' :
  ArrayList.wf al → ArrayList.store al p v = Ret al' →
  ArrayList.wf al' ∧
  ArrayList.count al' = ArrayList.count al ∧
  ArrayList.defaultValue al' = ArrayList.defaultValue al.
Proof.
  intros Hwf Hstore.
  assert (∃ w, ArrayList.load al p = Ret w) as [w Hload].
  { unfold ArrayList.store, ArrayList.load in *.
    destruct (index (ArrayList.segments al) (ArrayList.seg p)) as [s|]; [|done].
    simpl in *.
    destruct (index (Segment.arr s) (ArrayList.off p)) as [w|]; [|done].
    by exists w. }
  destruct (store_spec al p v w Hwf Hload) as (al'' & Heq & Hwf' & _ & Hcnt & Hdef & _).
  rewrite Hstore in Heq. injection Heq as <-. done.
Qed.

Lemma RemoveLast_wf (al : ArrayList.t T) al' :
  ArrayList.wf al → ArrayList.RemoveLast al = Ret al' → ArrayList.wf al'.
Proof.
  intros Hwf Hrm.
  destruct (decide (0 < ArrayList.count al)) as [Hpos|Hzero].
  - destruct (RemoveLast_spec al Hwf Hpos) as (al'' & Heq & Hwf' & _).
    congruence.
  - unfold ArrayList.RemoveLast in Hrm.
    destruct (Z.leb_spec (ArrayList.count al) 0); [|lia]. congruence.
Qed.

Lemma FastRemoveAt_wf (al : ArrayList.t T) idx al' :
  ArrayList.wf al → ArrayList.FastRemoveAt al idx = Ret al' → ArrayList.wf al'.
Proof.
  intros Hwf Hrm. unfold ArrayList.FastRemoveAt in Hrm.
  destruct (ArrayList.GetRef al (ArrayList.count al - 1)) as [lastPtr|]; [|done].
  simpl in Hrm.
  destruct (ArrayList.GetRef al idx) as [p|]; [|done]. simpl in Hrm.
  destruct (ArrayList.load al lastPtr) as [v|]; [|done]. simpl in Hrm.
  destruct (ArrayList.store al p v) as [al1|] eqn:Hs1; [|done]. simpl in Hrm.
  destruct (store_wf _ _ _ _ Hwf Hs1) as (Hwf1 & _).
  destruct (ArrayList.store al1 lastPtr (ArrayList.defaultValue al1))
    as [al2|] eqn:Hs2; [|done]. simpl in Hrm.
  destruct (store_wf _ _ _ _ Hwf1 Hs2) as (Hwf2 & _).
  by eapply RemoveLast_wf.
Qed.

Lemma Clear_wf (al : ArrayList.t T) :
  ArrayList.wf al → ArrayList.wf (ArrayList.Clear al).
Proof.
  intros [Hshift Hsize Hmask _ _ _ _ _ _].
  assert (0 < ArrayList.segmentSize al)
    by (rewrite Hsize; apply Z.pow_pos_nonneg; lia).
  constructor; simpl; try done; lia.
Qed.

Lemma NewArrayList_default n :
  n ≤ 0 → ArrayList.NewArrayList (T:=T) n = ArrayList.NewArrayList 128.
Proof.
  intros Hn. unfold ArrayList.NewArrayList.
  destruct (Z.leb_spec n 0); [done|lia].
Qed.

Lemma NewArrayList_wf' n :
  n ≤ 2 ^ 32 → ArrayList.wf (ArrayList.NewArrayList (T:=T) n).
Proof.
  intros Hn. destruct (decide (0 < n)) as [Hpos|Hneg].
  - by apply NewArrayList_wf.
  - rewrite NewArrayList_default by lia. apply NewArrayList_wf. lia.
Qed.

Theorem ArrayList_reachable_wf (al : ArrayList.t T) :
  ArrayList.reachable al → ArrayList.wf al.
Proof.
  induction 1 as [n Hn|al r _ IH Halloc|al p v al' _ IH Hstore
                 |al al' _ IH Hrm|al idx al' _ IH Hrm|al _ IH].
  - by apply NewArrayList_wf'.
  - destruct (Alloc_spec al IH) as (al' & Heq & Hwf & _).
    rewrite Heq in Halloc. by injection Halloc as <-.
  - by destruct (store_wf _ _ _ _ IH Hstore).
  - by eapply RemoveLast_wf.
  - by eapply FastRemoveAt_wf.
  - by apply Clear_wf.
Qed.

Theorem Pool_reachable_wf (p : Pool.t T) : Pool.reachable p → Pool.wf p.
Proof.
  induction 1 as [n Hn|p id r p' _ IH Halloc|p r v al _ IH Hstore
                 |p id p' _ IH Hfree|p _ IH].
  - constructor; [by apply NewArrayList_wf'| |done].
    unfold Pool.NewPool. simpl. apply set_Forall_empty.
  - by destruct (Pool_Alloc_inv _ _ _ _ IH Halloc).
  - destruct IH as [Hitems Hfrees Hdef].
    destruct (store_wf _ _ _ _ Hitems Hstore) as (Hwf & Hcnt & Hdef').
    constructor; simpl; [done| |congruence]. by rewrite Hcnt.
  - destruct (Pool_Free_spec p id IH) as (p'' & Heq & Hwf & _). congruence.
  - destruct IH as [Hitems Hfrees Hdef].
    constructor; simpl; [by apply Clear_wf| |done]. apply set_Forall_empty.
Qed.

(** [grow] keeps the sentinel as long as the array is not empty. *)
Lemma ArrayPool_grow_sentinel (ap ap1 : ArrayPool.t T) :
  ArrayPool.grow ap = Ret ap1 →
  ArrayPool.arr ap !! 0%nat = Some zero ∨ ArrayPool.arr ap = [] →
  ArrayPool.arr ap1 !! 0%nat = Some zero ∨ ArrayPool.arr ap1 = [].
Proof.
  unfold ArrayPool.grow, make.
  destruct (ArrayPool.nextCap (len (ArrayPool.arr ap)) <? 0); [done|].
  simpl. intros [= <-]. simpl. unfold copy. rewrite length_replicate.
  destruct (Z.to_nat (ArrayPool.nextCap (len (ArrayPool.arr ap)))) as [|n].
  { intros _. right. simpl. by rewrite drop_nil. }
  intros [Hsent| ->].
  - left. destruct (ArrayPool.arr ap) as [|z tl]; [done|].
    simpl in *. done.
  - left. done.
Qed.

Lemma ArrayPool_Alloc_fresh_wf d (ap : ArrayPool.t T) id ap' :
  ArrayPool.Alloc d ap (Ret (id, ap')) → ArrayPool.free ap = ∅ →
  1 ≤ ArrayPool.alloc ap →
  ArrayPool.arr ap !! 0%nat = Some zero ∨ ArrayPool.arr ap = [] →
  ArrayPool.wf ap'.
Proof.
  intros Halloc. remember (Ret (id, ap')) as r eqn:Hr.
  induction Halloc as [ap Hroom|ap k _ _ Hk|ap e _ _ _|ap ap1 n r _ _ Hgrow _ IH];
    intros Hfree Hpos Hsent.
  - injection Hr as <- <-. constructor; simpl; [lia|].
    destruct Hsent as [Hsent|Hnil]; [done|].
    rewrite Hnil in Hroom. unfold len in Hroom. simpl in Hroom. lia.
  - rewrite Hfree in Hk. by apply not_elem_of_empty in Hk.
  - done.
  - destruct (ArrayPool_grow_fields _ _ Hgrow) as [Ha Hf].
    apply IH; [done|congruence|lia|]. by eapply ArrayPool_grow_sentinel.
Qed.

(** [Alloc] keeps the invariant, however often it has to grow. *)
Lemma ArrayPool_Alloc_preserves_wf d (ap : ArrayPool.t T) id ap' :
  ArrayPool.wf ap → ArrayPool.Alloc d ap (Ret (id, ap')) → ArrayPool.wf ap'.
Proof.
  intros Hwf Halloc. pose proof Hwf as [Hlen Hsent].
  inversion Halloc as [ap0 Hroom|ap0 k _ _ Hk|ap0 e _ _ _|ap0 ap1 n r _ Hsize Hgrow Hin];
    subst.
  - constructor; simpl; [lia|done].
  - constructor; simpl; [lia|done].
  - apply size_zero_empty in Hsize.
    destruct (ArrayPool_grow_fields _ _ Hgrow) as [Ha Hf].
    eapply ArrayPool_Alloc_fresh_wf; [done|congruence|lia|].
    eapply ArrayPool_grow_sentinel; [done|]. by left.
Qed.

Lemma NewArrayPool_Ret_wf cap (ap : ArrayPool.t T) :
  - 2 ^ 63 ≤ cap < 2 ^ 63 → ArrayPool.NewArrayPool cap = Ret ap →
  ArrayPool.wf ap.
Proof.
  intros Hcap Hnew.
  destruct (decide (0 ≤ cap < 2 ^ 63 - 1)) as [Hin|Hout].
  - destruct (NewArrayPool_wf (T:=T) cap Hin) as (ap0 & Heq & Hwf & _).
    congruence.
  - unfold ArrayPool.NewArrayPool in Hnew.
    destruct (Z.ltb_spec cap 0); [done|].
    replace cap with (2 ^ 63 - 1) in Hnew by lia. done.
Qed.

Theorem ArrayPool_reachable_wf (ap : ArrayPool.t T) :
  ArrayPool.reachable ap → ArrayPool.wf ap.
Proof.
  induction 1 as [cap ap Hcap Hnew|ap d id ap' _ IH Halloc
                 |ap id v ap' _ IH Hid Hstore|ap id ap' _ IH Hfree].
  - by eapply NewArrayPool_Ret_wf.
  - by eapply ArrayPool_Alloc_preserves_wf.
  - unfold ArrayPool.store, ArrayPool.GetRef in Hstore.
    destruct (index (ArrayPool.arr ap) id) as [w|]; [|done]. simpl in Hstore.
    injection Hstore as <-. destruct IH as [Hlen Hsent].
    constructor; simpl.
    + by rewrite len_update.
    + unfold update. rewrite list_lookup_insert_ne by lia. done.
  - by eapply ArrayPool_Free_wf.
Qed.

End Reachable.

(** ** The slots of the segmented list *)

Section ListSlots.
Context {T : Type} `{Zero T}.
Implicit Types (al : ArrayList.t T) (ss : list (Segment.t T)).

Lemma index_fmap {A B} (f : A → B) (l : list A) i :
  index (f <$> l) i = (a ← index l i; Ret (f a)).
Proof.
  unfold index. destruct (i <? 0); [done|].
  rewrite list_lookup_fmap. by destruct (l !! _).
Qed.

(** A load depends on the arrays of the segments only. *)
Lemma load_arrs al q :
  ArrayList.load al q =
    (a ← index (Segment.arr <$> ArrayList.segments al) (ArrayList.seg q);
     index a (ArrayList.off q)).
Proof.
  unfold ArrayList.load. rewrite index_fmap.
  by destruct (index (ArrayList.segments al) (ArrayList.seg q)).
Qed.

Lemma index_app_l {A} (l ext : list A) i a :
  index l i = Ret a → index (l ++ ext) i = Ret a.
Proof.
  intros [Hi Hl]%index_Ret_inv. apply index_Ret; [lia|].
  by apply lookup_app_l_Some.
Qed.

Lemma index_take {A} (l : list A) (n : nat) i :
  i < Z.of_nat n → index (take n l) i = index l i.
Proof.
  intros Hi. unfold index. destruct (Z.ltb_spec i 0); [done|].
  rewrite lookup_take_lt by lia. done.
Qed.

(** Changing the count of a segment leaves the arrays as they are. *)
Lemma arrs_update_count ss i s c :
  index ss i = Ret s →
  Segment.arr <$> update ss i (Segment.mk (Segment.arr s) c) = Segment.arr <$> ss.
Proof.
  intros [Hi Hs]%index_Ret_inv. unfold update.
  rewrite list_fmap_insert. apply list_insert_id.
  rewrite list_lookup_fmap, Hs. done.
Qed.

(** [Alloc] keeps the arrays of the list and may append one of zero values. *)
Lemma Alloc_arrs al p al' :
  ArrayList.Alloc al = Ret (p, al') →
  ArrayList.same_geometry al al' ∧
  ∃ ext, Segment.arr <$> ArrayList.segments al' =
           (Segment.arr <$> ArrayList.segments al) ++ ext ∧
         ∀ a v, a ∈ ext → v ∈ a → v = zero.
Proof.
  unfold ArrayList.Alloc.
  assert (∀ al0, ArrayList.append_segment al = Ret al0 →
            ArrayList.same_geometry al al0 ∧
            ∃ ext, Segment.arr <$> ArrayList.segments al0 =
                     (Segment.arr <$> ArrayList.segments al) ++ ext ∧
                   ∀ a v, a ∈ ext → v ∈ a → v = zero) as Happ.
  { intros al0. unfold ArrayList.append_segment, make.
    destruct (ArrayList.segmentSize al <? 0); [done|]. simpl.
    intros [= <-]. split; [done|]. simpl. rewrite fmap_app. simpl.
    eexists. split; [done|].
    intros a v ->%list_elem_of_singleton Hv.
    by apply elem_of_replicate in Hv as [-> _]. }
  assert (∀ al0, Ret al = Ret al0 →
            ArrayList.same_geometry al al0 ∧
            ∃ ext, Segment.arr <$> ArrayList.segments al0 =
                     (Segment.arr <$> ArrayList.segments al) ++ ext ∧
                   ∀ a v, a ∈ ext → v ∈ a → v = zero) as Hsame.
  { intros al0 [= <-]. split; [done|]. exists []. rewrite app_nil_r.
    split; [done|]. by intros a v ?%elem_of_nil. }
  set (stage := if len (ArrayList.segments al) =? 0 then _ else _).
  assert (∀ al1, stage = Ret al1 →
            ArrayList.same_geometry al al1 ∧
            ∃ ext, Segment.arr <$> ArrayList.segments al1 =
                     (Segment.arr <$> ArrayList.segments al) ++ ext ∧
                   ∀ a v, a ∈ ext → v ∈ a → v = zero) as Hstage.
  { intros al1. subst stage.
    destruct (len (ArrayList.segments al) =? 0); [apply Happ|].
    destruct (index (ArrayList.segments al) (ArrayList.segmentIdx al)) as [cur|];
      [|done]. simpl.
    destruct (Segment.count cur =? ArrayList.segmentSize al); [|apply Hsame].
    destruct (ArrayList.segmentIdx al =? len (ArrayList.segments al) - 1).
    - destruct (ArrayList.append_segment al) as [al0|] eqn:Ha; [|done]. simpl.
      intros [= <-]. destruct (Happ al0 eq_refl) as (Hg & ext & He & Hz).
      split; [exact Hg|]. exists ext. split; [exact He|exact Hz].
    - simpl. intros [= <-]. destruct (Hsame al eq_refl) as (Hg & ext & He & Hz).
      split; [exact Hg|]. exists ext. split; [exact He|exact Hz]. }
  destruct stage as [al1|]; [|done]. simpl.
  destruct (Hstage al1 eq_refl) as (Hgeo & ext & Hext & Hzero).
  destruct (index (ArrayList.segments al1) (ArrayList.segmentIdx al1)) as [s|] eqn:Hs;
    [|done]. simpl.
  destruct (index (Segment.arr s) (Segment.count s + 1 - 1)); [|done]. simpl.
  intros [= <- <-]. split; [done|]. exists ext. split; [|done]. simpl.
  by rewrite arrs_update_count.
Qed.


Lemma load_extend al al' ext q w :
  Segment.arr <$> ArrayList.segments al' =
    (Segment.arr <$> ArrayList.segments al) ++ ext →
  ArrayList.load al q = Ret w → ArrayList.load al' q = Ret w.
Proof.
  intros He. rewrite !load_arrs, He.
  destruct (index (Segment.arr <$> ArrayList.segments al) (ArrayList.seg q))
    as [a|] eqn:Hi; [|done].
  by rewrite (index_app_l _ _ _ _ Hi).
Qed.

Lemma load_take al al' (n : nat) q :
  Segment.arr <$> ArrayList.segments al' =
    take n (Segment.arr <$> ArrayList.segments al) →
  ArrayList.seg q < Z.of_nat n →
  ArrayList.load al' q = ArrayList.load al q.
Proof. intros He Hq. by rewrite !load_arrs, He, index_take. Qed.

Lemma wf_count_nonneg al : ArrayList.wf al → 0 ≤ ArrayList.count al.
Proof.
  intros Hwf. pose proof (wf_size_pos _ Hwf).
  pose proof (ArrayList.wf_idx _ Hwf). pose proof (ArrayList.wf_count _ Hwf).
  nia.
Qed.

(** The slot of an element, and what [Get] reads there. *)
Lemma Get_load al idx :
  ArrayList.wf al → 0 ≤ idx < ArrayList.count al →
  let p := ArrayList.Ptr (Z.shiftr idx (ArrayList.segmentSizeShift al))
                         (Z.land idx (ArrayList.segmentSizeMask al)) in
  ∃ v, ArrayList.Get al idx = Ret v ∧ ArrayList.load al p = Ret v ∧
       0 ≤ ArrayList.seg p ≤ ArrayList.segmentIdx al ∧
       0 ≤ ArrayList.off p < ArrayList.segmentSize al ∧
       idx = ArrayList.seg p * ArrayList.segmentSize al + ArrayList.off p.
Proof.
  intros Hwf Hidx p.
  destruct (wf_locate al idx Hwf Hidx) as (s & v & Hs & Hv & Hq & Hr & Heq).
  destruct (wf_segments_lookup _ _ _ _ _ (ArrayList.wf_segs _ Hwf) Hs) as [Harr Hc].
  assert (ArrayList.load al p = Ret v) as Hload.
  { unfold ArrayList.load. subst p. simpl.
    rewrite (index_Ret _ _ s) by (done || lia). simpl.
    apply index_Ret; [lia|done]. }
  exists v. rewrite Get_in_range by done. split; [done|]. split; [done|].
  subst p. simpl. split; [done|]. split; [lia|done].
Qed.

(** Distinct indices have distinct slots. *)
Lemma slot_inj al i j :
  ArrayList.wf al →
  ArrayList.Ptr (Z.shiftr i (ArrayList.segmentSizeShift al))
                (Z.land i (ArrayList.segmentSizeMask al)) =
  ArrayList.Ptr (Z.shiftr j (ArrayList.segmentSizeShift al))
                (Z.land j (ArrayList.segmentSizeMask al)) →
  i = j.
Proof.
  intros Hwf. rewrite !wf_shift_div, !wf_mask_mod by done.
  pose proof (wf_size_pos _ Hwf) as Hpos. intros [= Hq Hr].
  rewrite (Z.div_mod i (ArrayList.segmentSize al)) by lia.
  rewrite (Z.div_mod j (ArrayList.segmentSize al)) by lia.
  congruence.
Qed.

(** A negative index passes the bound check of [Get] and fails in the
    run-time check of the slice access. *)
Lemma Get_negative al idx :
  ArrayList.wf al → idx < 0 →
  ArrayList.Get al idx = Panic IndexOutOfRange ∧
  ArrayList.GetRef al idx = Panic IndexOutOfRange.
Proof.
  intros Hwf Hidx. pose proof (wf_count_nonneg _ Hwf) as Hc.
  pose proof (wf_size_pos _ Hwf) as Hpos.
  assert (ArrayList.load al
            (ArrayList.Ptr (Z.shiftr idx (ArrayList.segmentSizeShift al))
                           (Z.land idx (ArrayList.segmentSizeMask al)))
          = Panic IndexOutOfRange) as Hload.
  { unfold ArrayList.load. simpl. rewrite wf_shift_div by done.
    rewrite index_out_of_range; [done|].
    assert (idx / ArrayList.segmentSize al < 0)
      by (apply Z.div_lt_upper_bound; lia). lia. }
  unfold ArrayList.Get, ArrayList.GetRef.
  destruct (Z.geb_spec idx (ArrayList.count al)); [lia|].
  rewrite Hload. done.
Qed.

(** [Alloc] leaves the elements of the list where they are. *)
Lemma Alloc_Get al p al' idx :
  ArrayList.wf al → ArrayList.Alloc al = Ret (p, al') →
  0 ≤ idx < ArrayList.count al →
  ArrayList.Get al' idx = ArrayList.Get al idx.
Proof.
  intros Hwf Halloc Hidx.
  destruct (Alloc_spec al Hwf) as (al'' & Heq & Hwf' & Hcnt & _ & _ & Hshift & Hmask).
  rewrite Halloc in Heq. injection Heq as _ <-.
  destruct (Alloc_arrs _ _ _ Halloc) as (_ & ext & Hext & _).
  destruct (Get_load al idx Hwf Hidx) as (v & -> & Hload & _).
  rewrite Get_in_range by (done || lia). rewrite Hshift, Hmask.
  by eapply load_extend.
Qed.

Lemma RemoveLast_geometry al al' :
  ArrayList.RemoveLast al = Ret al' → ArrayList.same_geometry al al'.
Proof.
  unfold ArrayList.RemoveLast.
  destruct (ArrayList.count al <=? 0); [by intros [= <-]|].
  destruct (index (ArrayList.segments al) (ArrayList.segmentIdx al)) as [s|];
    [|done]. simpl.
  destruct (Segment.count s - 1 >? 0); [by intros [= <-]|].
  destruct (ArrayList.segmentIdx al >? 0); simpl.
  - destruct (_ =? _); [by intros [= <-]|].
    destruct (index _ _); [|done]. simpl. by intros [= <-].
  - destruct (_ =? _); [by intros [= <-]|].
    destruct (index _ _); [|done]. simpl. by intros [= <-].
Qed.

(** [RemoveLast] keeps the arrays up to the cursor segment. *)
Lemma RemoveLast_arrs al al' :
  ArrayList.wf al → 0 < ArrayList.count al →
  ArrayList.RemoveLast al = Ret al' →
  ∃ n : nat, Segment.arr <$> ArrayList.segments al' =
               take n (Segment.arr <$> ArrayList.segments al) ∧
             ArrayList.segmentIdx al < Z.of_nat n.
Proof.
  intros Hwf Hcount Hrm.
  assert (len (ArrayList.segments al) ≠ 0) as Hne.
  { intros Hl. destruct (ArrayList.wf_nil _ Hwf Hl). lia. }
  pose proof (ArrayList.wf_len _ Hwf Hne) as Hlen.
  pose proof (ArrayList.wf_idx _ Hwf) as Hidx.
  destruct (RemoveLast_cases al Hwf Hcount) as (cur & Hcur & _ & Heq).
  rewrite Hrm in Heq. injection Heq as ->.
  assert (index (ArrayList.segments al) (ArrayList.segmentIdx al) = Ret cur)
    as Hcur' by (by apply index_Ret).
  set (i := ArrayList.segmentIdx al) in *.
  assert (Segment.arr <$>
            update (ArrayList.segments al) i
              (Segment.mk (Segment.arr cur) (Segment.count cur - 1))
          = Segment.arr <$> ArrayList.segments al) as Hss
    by (by apply arrs_update_count).
  destruct (Segment.count cur - 1 >? 0).
  { exists (length (ArrayList.segments al)). simpl. rewrite Hss.
    rewrite take_ge by (by rewrite length_fmap). split; [done|].
    unfold len in Hlen. lia. }
  destruct (len (ArrayList.segments al) - 1 =? i).
  { exists (length (ArrayList.segments al)).
    replace (ArrayList.segments (if i >? 0 then _ else _))
      with (update (ArrayList.segments al) i
              (Segment.mk (Segment.arr cur) (Segment.count cur - 1)))
      by (by destruct (i >? 0)).
    rewrite Hss. rewrite take_ge by (by rewrite length_fmap). split; [done|].
    unfold len in Hlen. lia. }
  exists (Z.to_nat (i + 1)). simpl. split; [|lia].
  rewrite fmap_take. unfold update at 1. rewrite list_fmap_insert.
  rewrite take_insert_ge by lia. by rewrite Hss.
Qed.


Lemma store_geometry al p v al' :
  ArrayList.store al p v = Ret al' → ArrayList.same_geometry al al'.
Proof.
  unfold ArrayList.store.
  destruct (index (ArrayList.segments al) (ArrayList.seg p)) as [s|]; [|done].
  simpl. destruct (index (Segment.arr s) (ArrayList.off p)); [|done].
  simpl. by intros [= <-].
Qed.

Lemma same_geometry_trans al1 al2 al3 :
  ArrayList.same_geometry al1 al2 → ArrayList.same_geometry al2 al3 →
  ArrayList.same_geometry al1 al3.
Proof.
  intros (?&?&?&?) (?&?&?&?). unfold ArrayList.same_geometry. split_and!; congruence.
Qed.

Lemma FastRemoveAt_geometry al idx al' :
  ArrayList.FastRemoveAt al idx = Ret al' → ArrayList.same_geometry al al'.
Proof.
  unfold ArrayList.FastRemoveAt.
  destruct (ArrayList.GetRef al (ArrayList.count al - 1)) as [lastPtr|]; [|done].
  simpl. destruct (ArrayList.GetRef al idx) as [p|]; [|done]. simpl.
  destruct (ArrayList.load al lastPtr) as [v|]; [|done]. simpl.
  destruct (ArrayList.store al p v) as [al1|] eqn:Hs1; [|done]. simpl.
  destruct (ArrayList.store al1 lastPtr (ArrayList.defaultValue al1))
    as [al2|] eqn:Hs2; [|done]. simpl.
  intros Hrm. eapply same_geometry_trans; [by eapply store_geometry|].
  eapply same_geometry_trans; [by eapply store_geometry|].
  by apply RemoveLast_geometry.
Qed.

(** No operation changes the default value or the segment geometry. *)
Lemma reaches_geometry al0 al :
  ArrayList.reaches al0 al → ArrayList.same_geometry al0 al.
Proof.
  induction 1 as [|al [p al'] _ IH Halloc|al p v al' _ IH Hstore
                 |al al' _ IH Hrm|al idx al' _ IH Hrm|al _ IH].
  - done.
  - eapply same_geometry_trans; [done|]. by destruct (Alloc_arrs _ _ _ Halloc).
  - eapply same_geometry_trans; [done|]. by eapply store_geometry.
  - eapply same_geometry_trans; [done|]. by eapply RemoveLast_geometry.
  - eapply same_geometry_trans; [done|]. by eapply FastRemoveAt_geometry.
  - done.
Qed.

Lemma Add_spec al v :
  ArrayList.wf al →
  ∃ p al', ArrayList.Add v al = Ret (p, al') ∧ ArrayList.wf al' ∧
    ArrayList.same_geometry al al' ∧
    ArrayList.count al' = ArrayList.count al + 1 ∧
    p = ArrayList.Ptr (Z.shiftr (ArrayList.count al) (ArrayList.segmentSizeShift al))
                      (Z.land (ArrayList.count al) (ArrayList.segmentSizeMask al)) ∧
    ArrayList.Get al' (ArrayList.count al) = Ret v ∧
    ∀ idx, 0 ≤ idx < ArrayList.count al →
           ArrayList.Get al' idx = ArrayList.Get al idx.
Proof.
  intros Hwf. pose proof (wf_count_nonneg _ Hwf) as Hc.
  destruct (Alloc_spec al Hwf)
    as (al1 & Halloc & Hwf1 & Hcnt1 & Hdef1 & Hsize1 & Hshift1 & Hmask1).
  destruct (Get_load al1 (ArrayList.count al)) as (w & _ & Hload & _);
    [done|lia|]. rewrite Hshift1, Hmask1 in Hload.
  set (p := ArrayList.Ptr _ _) in *.
  destruct (store_spec al1 p v w Hwf1 Hload)
    as (al' & Hstore & Hwf' & Hload' & Hcnt' & Hdef' & Hidx' & Hshift' & Hmask' & _).
  pose proof (store_geometry _ _ _ _ Hstore) as Hgeo.
  exists p, al'. unfold ArrayList.Add. rewrite Halloc. simpl.
  rewrite Hstore. simpl. split; [done|]. split; [done|].
  split. { eapply same_geometry_trans; [|done]. done. }
  split; [lia|]. split; [done|]. split.
  { rewrite Get_in_range by (done || lia).
    by rewrite Hshift', Hmask', Hshift1, Hmask1. }
  intros idx Hidx. rewrite <- (Alloc_Get al p al1 idx Hwf Halloc Hidx).
  rewrite !Get_in_range by (done || lia). rewrite Hshift', Hmask'.
  eapply store_other; [done|]. intros Heq. subst p.
  rewrite <- Hshift1, <- Hmask1 in Heq. apply slot_inj in Heq; [lia|done].
Qed.

Lemma RemoveLast_Get al al' idx :
  ArrayList.wf al → 0 < ArrayList.count al →
  ArrayList.RemoveLast al = Ret al' →
  0 ≤ idx < ArrayList.count al - 1 →
  ArrayList.Get al' idx = ArrayList.Get al idx.
Proof.
  intros Hwf Hcount Hrm Hidx.
  destruct (RemoveLast_spec al Hwf Hcount) as (al'' & Heq & Hwf' & Hcnt).
  rewrite Hrm in Heq. injection Heq as <-.
  destruct (RemoveLast_geometry _ _ Hrm) as (_ & _ & Hmask & Hshift).
  destruct (RemoveLast_arrs _ _ Hwf Hcount Hrm) as (n & Htake & Hn).
  destruct (Get_load al idx Hwf) as (v & -> & Hload & Hseg & _); [lia|].
  rewrite Get_in_range by (done || lia). rewrite Hshift, Hmask.
  rewrite (load_take al al' n); [done|done|simpl in *; lia].
Qed.

Lemma FastRemoveAt_spec al idx :
  ArrayList.wf al → 0 ≤ idx < ArrayList.count al →
  ∃ al', ArrayList.FastRemoveAt al idx = Ret al' ∧ ArrayList.wf al' ∧
    ArrayList.count al' = ArrayList.count al - 1 ∧
    ArrayList.same_geometry al al' ∧
    (∀ j, 0 ≤ j < ArrayList.count al - 1 →
          ArrayList.Get al' j =
            if decide (j = idx) then ArrayList.Get al (ArrayList.count al - 1)
            else ArrayList.Get al j) ∧
    ArrayList.load al'
      (ArrayList.Ptr (Z.shiftr (ArrayList.count al - 1) (ArrayList.segmentSizeShift al))
                     (Z.land (ArrayList.count al - 1) (ArrayList.segmentSizeMask al)))
      = Ret (ArrayList.defaultValue al).
Proof.
  intros Hwf Hidx.
  set (last := ArrayList.count al - 1).
  assert (0 ≤ last < ArrayList.count al) as Hlast by (subst last; lia).
  destruct (Get_load al last Hwf Hlast) as (vl & Hgl & Hll & Hsegl & _).
  destruct (Get_load al idx Hwf Hidx) as (vi & Hgi & Hli & _).
  set (lastPtr := ArrayList.Ptr (Z.shiftr last _) _) in *.
  set (p := ArrayList.Ptr (Z.shiftr idx _) _) in *.
  destruct (store_spec al p vl vi Hwf Hli)
    as (al1 & Hs1 & Hwf1 & Hl1 & Hcnt1 & Hdef1 & Hidx1 & Hshift1 & Hmask1 & _).
  assert (ArrayList.load al1 lastPtr = Ret vl) as Hll1.
  { destruct (decide (last = idx)) as [Heq|Hne].
    - subst lastPtr p. by rewrite Heq.
    - rewrite (store_other _ _ _ _ lastPtr Hs1); [done|].
      intros Heq. apply slot_inj in Heq; [lia|done]. }
  destruct (store_spec al1 lastPtr (ArrayList.defaultValue al1) vl Hwf1 Hll1)
    as (al2 & Hs2 & Hwf2 & Hl2 & Hcnt2 & Hdef2 & Hidx2 & Hshift2 & Hmask2 & _).
  assert (0 < ArrayList.count al2) as Hpos2 by lia.
  destruct (RemoveLast_spec al2 Hwf2 Hpos2) as (al' & Hrm & Hwf' & Hcnt').
  pose proof (RemoveLast_geometry _ _ Hrm) as Hgeo.
  destruct (RemoveLast_arrs _ _ Hwf2 Hpos2 Hrm) as (n & Htake & Hn).
  pose proof (same_geometry_trans _ _ _ (store_geometry _ _ _ _ Hs1)
                (same_geometry_trans _ _ _ (store_geometry _ _ _ _ Hs2) Hgeo))
    as Hall.
  exists al'. split.
  { unfold ArrayList.FastRemoveAt. fold last.
    rewrite (GetRef_in_range al last) by done. simpl.
    rewrite (GetRef_in_range al idx) by done. simpl.
    fold lastPtr. fold p. rewrite Hll. simpl. rewrite Hs1. simpl.
    rewrite Hs2. simpl. done. }
  split; [done|]. split; [lia|]. split; [done|].
  destruct Hall as (_ & _ & Hmask & Hshift).
  split.
  - intros j Hj.
    assert (0 ≤ j < ArrayList.count al) as Hj' by lia.
    destruct (Get_load al j Hwf Hj') as (vj & Hgj & Hlj & Hsegj & _).
    set (pj := ArrayList.Ptr (Z.shiftr j _) _) in *.
    assert (pj ≠ lastPtr) as Hnel.
    { intros Heq. apply slot_inj in Heq; [lia|done]. }
    rewrite Get_in_range by (done || lia). rewrite Hshift, Hmask. fold pj.
    rewrite (load_take al2 al' n); [|done|simpl in *; lia].
    rewrite (store_other _ _ _ _ _ Hs2 Hnel).
    destruct (decide (j = idx)) as [->|Hne].
    + rewrite Hgl. done.
    + rewrite Hgj. rewrite (store_other _ _ _ _ pj Hs1); [done|].
      intros Heq. apply slot_inj in Heq; [lia|done].
  - fold last. fold lastPtr.
    rewrite (load_take al2 al' n); [|done|simpl in *; lia].
    rewrite Hl2. by rewrite Hdef1.
Qed.

End ListSlots.

Section ListAllocGrowth.
Context {T : Type} `{Zero T}.
Implicit Types (al : ArrayList.t T).

(** [Alloc] appends a segment exactly when all slots are taken. *)
Lemma Alloc_len al p al' :
  ArrayList.wf al → ArrayList.Alloc al = Ret (p, al') →
  len (ArrayList.segments al') =
    if decide (ArrayList.count al =
               len (ArrayList.segments al) * ArrayList.segmentSize al)
    then len (ArrayList.segments al) + 1 else len (ArrayList.segments al).
Proof.
  intros Hwf. pose proof (wf_size_pos _ Hwf) as Hpos.
  pose proof (ArrayList.wf_idx _ Hwf) as Hidx.
  pose proof (ArrayList.wf_count _ Hwf) as Hcnt.
  assert (∀ al1 : ArrayList.t T,
            (segment ← index (ArrayList.segments al1) (ArrayList.segmentIdx al1);
             let segment := Segment.mk (Segment.arr segment) (Segment.count segment + 1) in
             let al2 := ArrayList.with_segments al1
                          (update (ArrayList.segments al1) (ArrayList.segmentIdx al1) segment) in
             let al2 := ArrayList.with_count al2 (ArrayList.count al2 + 1) in
             _ ← index (Segment.arr segment) (Segment.count segment - 1);
             Ret (ArrayList.Ptr (ArrayList.segmentIdx al2) (Segment.count segment - 1), al2))
            = Ret (p, al') →
            len (ArrayList.segments al') = len (ArrayList.segments al1)) as Hstage.
  { intros al1.
    destruct (index (ArrayList.segments al1) (ArrayList.segmentIdx al1)) as [s|];
      [|done]. simpl.
    destruct (index (Segment.arr s) (Segment.count s + 1 - 1)); [|done]. simpl.
    intros [= _ <-]. simpl. apply len_update. }
  unfold ArrayList.Alloc, ArrayList.append_segment.
  destruct (Z.eqb_spec (len (ArrayList.segments al)) 0) as [Hnil|Hne].
  - destruct (ArrayList.wf_nil _ Hwf Hnil) as [_ Hc].
    rewrite make_Ret by lia. intros Hrest. apply Hstage in Hrest.
    rewrite Hrest. simpl. rewrite len_app. change (len [_]) with 1.
    destruct (decide _) as [|Hno]; [done|]. rewrite Hnil, Hc in Hno. lia.
  - pose proof (ArrayList.wf_len _ Hwf Hne) as Hlen.
    destruct (wf_cursor_lookup _ Hwf Hne) as (cur & Hcur & _ & Hc).
    rewrite (index_Ret _ _ cur) by done. simpl.
    destruct (Z.eqb_spec (Segment.count cur) (ArrayList.segmentSize al))
      as [Hfull|Hroom].
    + destruct (Z.eqb_spec (ArrayList.segmentIdx al)
                  (len (ArrayList.segments al) - 1)) as [Hlast|Hspare].
      * rewrite make_Ret by lia. intros Hrest. apply Hstage in Hrest.
        rewrite Hrest. simpl. rewrite len_app. change (len [_]) with 1.
        destruct (decide _) as [|Hno]; [done|]. nia.
      * intros Hrest. apply Hstage in Hrest. rewrite Hrest. simpl.
        destruct (decide _) as [Hyes|]; [|done]. nia.
    + intros Hrest. apply Hstage in Hrest. rewrite Hrest.
      destruct (decide _) as [Hyes|]; [|done]. nia.
Qed.

End ListAllocGrowth.

(** ** Zero values behind the elements *)

Section ListFresh.
Context {T : Type} `{Zero T}.
Implicit Types (al : ArrayList.t T).

(** A store through the pointer of an index leaves every other index as
    it reads. *)
Lemma store_Get_other al id v al' j :
  ArrayList.wf al →
  ArrayList.store al
    (ArrayList.Ptr (Z.shiftr id (ArrayList.segmentSizeShift al))
                   (Z.land id (ArrayList.segmentSizeMask al))) v = Ret al' →
  j ≠ id → ArrayList.Get al' j = ArrayList.Get al j.
Proof.
  intros Hwf Hstore Hne.
  destruct (store_wf _ _ _ _ Hwf Hstore) as (_ & Hcnt & _).
  destruct (store_geometry _ _ _ _ Hstore) as (_ & _ & Hmask & Hshift).
  unfold ArrayList.Get. rewrite Hcnt, Hshift, Hmask.
  destruct (j >=? ArrayList.count al); [done|].
  eapply store_other; [done|]. intros Heq. by apply slot_inj in Heq.
Qed.

Lemma load_app_cases al al' ext q v :
  Segment.arr <$> ArrayList.segments al' =
    (Segment.arr <$> ArrayList.segments al) ++ ext →
  ArrayList.load al' q = Ret v →
  ArrayList.load al q = Ret v ∨ ∃ a, a ∈ ext ∧ v ∈ a.
Proof.
  intros He. rewrite !load_arrs, He.
  destruct (index (_ ++ ext) (ArrayList.seg q)) as [a|] eqn:Ha; [|done].
  simpl. intros Hv. apply index_Ret_inv in Ha as [Hseg Ha].
  apply lookup_app_Some in Ha as [Ha|[_ Ha]].
  - left. rewrite (index_Ret _ _ a) by (done || lia). done.
  - right. exists a. split; [by eapply list_elem_of_lookup_2|].
    apply index_Ret_inv in Hv as [_ Hv]. by eapply list_elem_of_lookup_2.
Qed.

(** With zero values behind the elements, [Alloc] hands out a slot that
    holds the zero value, and zero values stay behind the elements. *)
Lemma Alloc_fresh_tail al p al' :
  ArrayList.wf al → ArrayList.fresh_tail al →
  ArrayList.Alloc al = Ret (p, al') →
  ArrayList.fresh_tail al' ∧ ArrayList.load al' p = Ret zero ∧
  ArrayList.Get al' (ArrayList.count al) = Ret zero.
Proof.
  intros Hwf Htail Halloc. pose proof (wf_count_nonneg _ Hwf) as Hc.
  destruct (Alloc_spec al Hwf)
    as (al'' & Heq & Hwf' & Hcnt & _ & Hsize & Hshift & Hmask).
  rewrite Halloc in Heq. injection Heq as Hp <-.
  destruct (Alloc_arrs _ _ _ Halloc) as (_ & ext & Hext & Hzero).
  assert (∀ q v, ArrayList.load al' q = Ret v →
            ArrayList.count al ≤
              ArrayList.seg q * ArrayList.segmentSize al + ArrayList.off q →
            v = zero) as Hnew.
  { intros q v Hload Hpos.
    destruct (load_app_cases _ _ _ _ _ Hext Hload) as [Hold|(a & Ha & Hv)].
    - by eapply Htail.
    - by eapply Hzero. }
  split; [|].
  { intros q v Hload Hpos. rewrite Hsize, Hcnt in Hpos.
    eapply Hnew; [done|lia]. }
  destruct (Get_load al' (ArrayList.count al)) as (w & Hget & Hload & _ & _ & Hdec);
    [done|lia|].
  rewrite Hshift, Hmask in Hload. rewrite <- Hp in Hload.
  assert (w = zero) as ->.
  { eapply Hnew; [done|]. rewrite Hp. rewrite <- Hsize, <- Hshift, <- Hmask.
    simpl in *. lia. }
  done.
Qed.

(** A store to an element leaves the slots behind the elements alone. *)
Lemma store_fresh_tail al id v al' :
  ArrayList.wf al → ArrayList.fresh_tail al →
  0 ≤ id < ArrayList.count al →
  ArrayList.store al
    (ArrayList.Ptr (Z.shiftr id (ArrayList.segmentSizeShift al))
                   (Z.land id (ArrayList.segmentSizeMask al))) v = Ret al' →
  ArrayList.fresh_tail al'.
Proof.
  intros Hwf Htail Hid Hstore q w Hload Hpos.
  destruct (store_wf _ _ _ _ Hwf Hstore) as (_ & Hcnt & _).
  destruct (store_geometry _ _ _ _ Hstore) as (_ & Hsize & _ & _).
  rewrite Hcnt, Hsize in Hpos.
  destruct (Get_load al id Hwf Hid) as (_ & _ & _ & _ & _ & Hdec).
  rewrite (store_other _ _ _ _ q Hstore) in Hload.
  - by eapply Htail.
  - intros ->. simpl in *. lia.
Qed.

(** A list without segments has no slots. *)
Lemma fresh_tail_nil al : ArrayList.segments al = [] → ArrayList.fresh_tail al.
Proof.
  intros Hnil q v Hload. unfold ArrayList.load in Hload. rewrite Hnil in Hload.
  rewrite index_out_of_range in Hload; [done|]. unfold len. simpl. lia.
Qed.

End ListFresh.

(** ** Live indices of the index pool *)

Section PoolLive.
Context {T : Type} `{Zero T}.
Implicit Types (p : Pool.t T).

Lemma live_set_spec p id : id ∈ Pool.live_set p ↔ Pool.live p id.
Proof.
  unfold Pool.live_set, Pool.live.
  rewrite elem_of_difference, elem_of_list_to_set, elem_of_seqZ.
  split; intros [? ?]; (split; [lia|done]).
Qed.

Lemma Pool_Count_spec p :
  Pool.wf p →
  Pool.Count p = Z.of_nat (size (Pool.live_set p)) ∧
  0 ≤ Pool.Count p ≤ ArrayList.Count (Pool.items p).
Proof.
  intros [Hitems Hfrees _]. pose proof (wf_count_nonneg _ Hitems) as Hc.
  assert (Pool.frees p ⊆
            list_to_set (seqZ 0 (ArrayList.Count (Pool.items p)))) as Hsub.
  { intros k Hk. apply elem_of_list_to_set, elem_of_seqZ.
    specialize (Hfrees k Hk). simpl in Hfrees. unfold ArrayList.Count. lia. }
  assert (size (list_to_set (C:=gset Z)
                  (seqZ 0 (ArrayList.Count (Pool.items p))))
          = Z.to_nat (ArrayList.Count (Pool.items p))) as Hall.
  { rewrite size_list_to_set by apply NoDup_seqZ. apply length_seqZ. }
  pose proof (subseteq_size _ _ Hsub) as Hle. rewrite Hall in Hle.
  unfold Pool.Count, Pool.live_set.
  rewrite size_difference by done. rewrite Hall.
  unfold ArrayList.Count in *. lia.
Qed.

(** The two courses of a call of [Alloc] that returns. *)
Lemma Pool_Alloc_cases p id r p' :
  Pool.wf p → Pool.Alloc p (Ret (id, r, p')) →
  Pool.wf p' ∧
  ((id ∈ Pool.frees p ∧
    ArrayList.GetRef (Pool.items p) id = Ret r ∧
    p' = Pool.mk (Pool.frees p ∖ {[id]}) (Pool.items p)) ∨
   (Pool.frees p = ∅ ∧ id = ArrayList.count (Pool.items p) ∧
    ∃ al, ArrayList.Alloc (Pool.items p) = Ret (r, al) ∧ p' = Pool.mk ∅ al)).
Proof.
  intros Hwf Hcall.
  destruct (Pool_Alloc_inv _ _ _ _ Hwf Hcall) as (Hwf' & _ & _).
  split; [done|].
  inversion Hcall as [k Hsize Hk Hr|Hsize Hr].
  - left. destruct (Pool_reuse_spec p k Hwf Hk) as [Heq _].
    rewrite Heq in Hr. injection Hr as <- <- <-.
    split; [done|]. split; [|done].
    apply GetRef_in_range; [apply Hwf|]. by apply (Pool.wf_frees _ Hwf).
  - right. apply size_zero_empty in Hsize. split; [done|].
    unfold Pool.extend in Hr.
    destruct (ArrayList.Alloc (Pool.items p)) as [[r0 al]|] eqn:Ha; [|done].
    simpl in Hr. injection Hr as <- <- <-. split; [done|].
    exists al. by rewrite Hsize.
Qed.

(** [Free] of a live index is a store of the default value to its slot. *)
Lemma Pool_Free_store p id :
  Pool.wf p → Pool.live p id →
  ∃ al, ArrayList.store (Pool.items p)
          (ArrayList.Ptr (Z.shiftr id (ArrayList.segmentSizeShift (Pool.items p)))
                         (Z.land id (ArrayList.segmentSizeMask (Pool.items p))))
          (ArrayList.defaultValue (Pool.items p)) = Ret al ∧
        Pool.Free id p = Ret (Pool.mk ({[id]} ∪ Pool.frees p) al) ∧
        Pool.wf (Pool.mk ({[id]} ∪ Pool.frees p) al) ∧
        ArrayList.count al = ArrayList.count (Pool.items p) ∧
        ArrayList.Get al id = Ret zero.
Proof.
  intros Hwf [Hid Hlive]. unfold ArrayList.Count in Hid.
  destruct (Pool_Free_live p id Hwf Hid Hlive) as (al & Hfree & Hwf' & Hcnt & Hget).
  exists al. rewrite (Pool.wf_default _ Hwf) in Hget.
  split; [|done].
  unfold Pool.Free, ArrayList.Count in Hfree.
  destruct (Z.ltb_spec id 0); [lia|].
  destruct (Z.geb_spec id (ArrayList.count (Pool.items p))); [lia|].
  simpl in Hfree. destruct (decide (id ∈ Pool.frees p)); [done|].
  rewrite GetRef_in_range in Hfree by (done || apply Hwf). simpl in Hfree.
  destruct (ArrayList.store _ _ _) as [al0|]; [|done]. simpl in Hfree.
  by injection Hfree as ->.
Qed.

Lemma Pool_Clear_wf p : Pool.wf p → Pool.wf (Pool.Clear p).
Proof.
  intros [Hitems Hfrees Hdef].
  constructor; simpl; [by apply Clear_wf| |done]. apply set_Forall_empty.
Qed.

Lemma Pool_used_reachable p : Pool.used p → Pool.reachable p.
Proof.
  induction 1 as [n Hn|p id r p' _ IH Halloc|p id r v al _ IH Hlive Hr Hstore
                 |p id p' _ IH Hfree|p _ IH].
  - by constructor.
  - by econstructor.
  - by econstructor.
  - by econstructor.
  - by constructor.
Qed.

(** The slots that are not live hold the zero value, as long as the caller
    writes only to live slots. *)
Lemma Pool_used_clean p : Pool.used p → Pool.clean p.
Proof.
  intros Hused.
  induction Hused as [n Hn|p id r p' Hused IH Halloc
                     |p id r v al Hused IH Hlive Hr Hstore
                     |p id p' Hused IH Hfree|p Hused IH].
  - constructor.
    + by intros k ?%not_elem_of_empty.
    + by apply fresh_tail_nil.
  - pose proof (Pool_reachable_wf _ (Pool_used_reachable _ Hused)) as Hwf.
    destruct IH as [Hfrees Htail].
    destruct (Pool_Alloc_cases _ _ _ _ Hwf Halloc)
      as (_ & [(Hin & _ & ->)|(Hempty & -> & al & Ha & ->)]).
    + constructor; simpl; [|done].
      intros k [Hk _]%elem_of_difference. by apply Hfrees.
    + constructor; simpl.
      * by intros k ?%not_elem_of_empty.
      * by destruct (Alloc_fresh_tail _ _ _ (Pool.wf_items _ Hwf) Htail Ha).
  - pose proof (Pool_reachable_wf _ (Pool_used_reachable _ Hused)) as Hwf.
    destruct IH as [Hfrees Htail]. destruct Hlive as [Hid Hlive].
    unfold ArrayList.Count in Hid.
    rewrite GetRef_in_range in Hr by (done || apply Hwf). injection Hr as <-.
    constructor; simpl.
    + intros k Hk.
      rewrite (store_Get_other _ id v al k (Pool.wf_items _ Hwf) Hstore);
        [by apply Hfrees|]. by intros ->.
    + by eapply store_fresh_tail; [apply Hwf|..].
  - pose proof (Pool_reachable_wf _ (Pool_used_reachable _ Hused)) as Hwf.
    destruct (decide (Pool.live p id)) as [Hlive|Hdead].
    + destruct (Pool_Free_store p id Hwf Hlive)
        as (al & Hstore & Heq & _ & _ & Hget).
      rewrite Hfree in Heq. injection Heq as ->.
      destruct IH as [Hfrees Htail]. constructor; simpl.
      * intros k [->%elem_of_singleton|Hk]%elem_of_union; [done|].
        destruct (decide (k = id)) as [->|Hne]; [done|].
        rewrite (store_Get_other _ id _ al k (Pool.wf_items _ Hwf) Hstore);
          [by apply Hfrees|done].
      * destruct Hlive as [Hid _].
        by eapply store_fresh_tail; [apply Hwf|..].
    + rewrite Pool_Free_noop in Hfree.
      * by injection Hfree as <-.
      * unfold Pool.live, ArrayList.Count in Hdead.
        destruct (decide (id ∈ Pool.frees p)); [by auto|].
        assert (¬ 0 ≤ id < ArrayList.count (Pool.items p)) by tauto. lia.
  - constructor; simpl.
    + by intros k ?%not_elem_of_empty.
    + by apply fresh_tail_nil.
Qed.

End PoolLive.

(** ** Live indices of the growable array pool *)

Section ArrayPoolLive.
Context {T : Type} `{Zero T}.
Implicit Types (ap : ArrayPool.t T).

Lemma ArrayPool_used_reachable ap : ArrayPool.used ap → ArrayPool.reachable ap.
Proof.
  induction 1 as [cap ap Hcap Hnew|ap d id ap' _ IH Halloc
                 |ap id v ap' _ IH Hlive Hstore|ap id ap' _ IH Hlive Hfree].
  - by econstructor.
  - by econstructor.
  - econstructor; [done| |done]. apply Hlive.
  - by econstructor.
Qed.

(** The courses of a call of [Alloc] that returns: the index is the
    allocation pointer, which moves on, or a member of the free set of a
    full array. *)
Lemma ArrayPool_Alloc_cases d ap id ap' :
  ArrayPool.wf ap → ArrayPool.Alloc d ap (Ret (id, ap')) →
  (id = ArrayPool.alloc ap ∧
   ArrayPool.alloc ap' = ArrayPool.alloc ap + 1 ∧
   ArrayPool.free ap' = ArrayPool.free ap ∧
   ArrayPool.alloc ap' ≤ len (ArrayPool.arr ap') ∧
   (ArrayPool.alloc ap < len (ArrayPool.arr ap) ∨ ArrayPool.free ap = ∅)) ∨
  (id ∈ ArrayPool.free ap ∧
   ArrayPool.alloc ap = len (ArrayPool.arr ap) ∧
   ap' = ArrayPool.mk (ArrayPool.arr ap) (ArrayPool.alloc ap)
           (ArrayPool.free ap ∖ {[id]})).
Proof.
  intros [Halloc _] Hcall.
  inversion Hcall as [ap0 Hroom|ap0 k Hfull _ Hk|ap0 e _ _ _
                     |ap0 ap1 n r Hfull Hsize Hgrow Hin]; subst.
  - left. simpl. split; [done|]. split; [done|]. split; [done|]. split; lia.
  - right. split; [done|]. split; [lia|done].
  - left. apply size_zero_empty in Hsize.
    destruct (ArrayPool_grow_fields _ _ Hgrow) as [Ha Hf].
    destruct (ArrayPool_Alloc_fresh _ _ _ _ Hin) as (-> & Ha' & Hf' & Hlen');
      [congruence|].
    split; [done|]. split; [lia|]. split; [congruence|]. split; [done|by right].
Qed.

(** [grow] keeps the slots that are not live at the zero value. *)
Lemma ArrayPool_grow_clean ap ap1 :
  ArrayPool.grow ap = Ret ap1 → ArrayPool.clean ap → ArrayPool.clean ap1.
Proof.
  unfold ArrayPool.grow, make.
  destruct (ArrayPool.nextCap (len (ArrayPool.arr ap)) <? 0); [done|]. simpl.
  intros [= <-] Hclean j v. simpl. unfold copy.
  intros [Hold|[_ Hnew]]%lookup_app_Some Hj.
  - apply lookup_take_Some in Hold as [Hold _]. by eapply Hclean.
  - rewrite lookup_drop in Hnew. by apply lookup_replicate in Hnew as [-> _].
Qed.

(** With an empty free set, the slot handed out is one behind the
    allocation pointer, however often the array grows. *)
Lemma ArrayPool_Alloc_fresh_clean d ap id ap' :
  ArrayPool.Alloc d ap (Ret (id, ap')) → ArrayPool.free ap = ∅ →
  0 ≤ ArrayPool.alloc ap → ArrayPool.clean ap →
  ArrayPool.clean ap' ∧ ArrayPool.arr ap' !! Z.to_nat id = Some zero.
Proof.
  intros Halloc. remember (Ret (id, ap')) as r eqn:Hr.
  induction Halloc as [ap Hroom|ap k _ _ Hk|ap e _ _ _|ap ap1 n r _ _ Hgrow _ IH];
    intros Hfree Hpos Hclean.
  - injection Hr as <- <-. simpl. split.
    + intros j v Hv Hj. simpl in *. eapply Hclean; [done|].
      destruct Hj as [?|?]; [left; lia|by right].
    + destruct (index_in_range (ArrayPool.arr ap) (ArrayPool.alloc ap))
        as (v & Hv & _); [lia|].
      rewrite Hv. f_equal. eapply Hclean; [done|]. left. lia.
  - rewrite Hfree in Hk. by apply not_elem_of_empty in Hk.
  - done.
  - destruct (ArrayPool_grow_fields _ _ Hgrow) as [Ha Hf].
    apply IH; [done|congruence|lia|]. by eapply ArrayPool_grow_clean.
Qed.

(** What [Alloc] keeps: the bound on the free set, and the zero value in
    the slots that are not live, among them the one it hands out. *)
Lemma ArrayPool_Alloc_clean d ap id ap' :
  ArrayPool.wf ap → ArrayPool.free_bounded ap → ArrayPool.clean ap →
  ArrayPool.Alloc d ap (Ret (id, ap')) →
  ArrayPool.free_bounded ap' ∧ ArrayPool.clean ap' ∧
  ArrayPool.arr ap' !! Z.to_nat id = Some zero.
Proof.
  intros Hwf Hbound Hclean Hcall. pose proof Hwf as [Halloc Hsent].
  split.
  { destruct (ArrayPool_Alloc_cases _ _ _ _ Hwf Hcall)
      as [(_ & Ha & Hf & _)|(_ & _ & ->)].
    - intros k Hk. rewrite Hf in Hk. specialize (Hbound k Hk). simpl in *. lia.
    - intros k Hk. simpl in Hk. apply elem_of_difference in Hk as [Hk _].
      by apply Hbound. }
  inversion Hcall as [ap0 Hroom|ap0 k Hfull _ Hk|ap0 e _ _ _
                     |ap0 ap1 n r Hfull Hsize Hgrow Hin]; subst.
  - simpl. split.
    + intros j v Hv Hj. simpl in *. eapply Hclean; [done|].
      destruct Hj as [?|?]; [left; lia|by right].
    + destruct (index_in_range (ArrayPool.arr ap) (ArrayPool.alloc ap))
        as (v & Hv & _); [lia|].
      rewrite Hv. f_equal. eapply Hclean; [done|]. left. lia.
  - simpl. split.
    + intros j v Hv Hj. simpl in *. eapply Hclean; [done|].
      destruct Hj as [?|?]; [by left|right; set_solver].
    + pose proof (Hbound id Hk) as Hk'. simpl in Hk'.
      destruct (index_in_range (ArrayPool.arr ap) id) as (v & Hv & _); [lia|].
      rewrite Hv. f_equal. eapply Hclean; [done|]. right.
      by rewrite Z2Nat.id by lia.
  - apply size_zero_empty in Hsize.
    destruct (ArrayPool_grow_fields _ _ Hgrow) as [Ha Hf].
    eapply ArrayPool_Alloc_fresh_clean; [done|congruence|lia|].
    by eapply ArrayPool_grow_clean.
Qed.


(** [Free] of a live index: the slot takes the zero value, and the index
    leaves the live ones by either of the two paths. *)
Lemma ArrayPool_Free_live ap id :
  ArrayPool.wf ap → ArrayPool.free_bounded ap → ArrayPool.live ap id →
  ∃ ap', ArrayPool.Free id ap = Ret ap' ∧ ArrayPool.wf ap' ∧
    ArrayPool.free_bounded ap' ∧
    ArrayPool.arr ap' = update (ArrayPool.arr ap) id zero ∧
    ¬ ArrayPool.live ap' id ∧
    (∀ j, j ≠ id → (ArrayPool.live ap' j ↔ ArrayPool.live ap j)) ∧
    (ArrayPool.clean ap → ArrayPool.clean ap').
Proof.
  intros Hwf Hbound [Hid Hlive]. pose proof Hwf as [Halloc Hsent].
  pose proof (ArrayPool_Free_valid ap id zero Hid ltac:(lia) Hsent) as Hfree.
  eexists. split; [exact Hfree|].
  split; [by eapply ArrayPool_Free_wf|].
  assert (∀ (j : nat) v,
            update (ArrayPool.arr ap) id zero !! j = Some v →
            Z.of_nat j = id ∨ ArrayPool.alloc ap ≤ Z.of_nat j
              ∨ Z.of_nat j ∈ ArrayPool.free ap →
            ArrayPool.clean ap → v = zero) as Hslots.
  { intros j v Hv Hj Hclean. unfold update in Hv.
    destruct (decide (j = Z.to_nat id)) as [->|Hne].
    - rewrite list_lookup_insert_eq in Hv by (unfold len in *; lia). congruence.
    - rewrite list_lookup_insert_ne in Hv by done.
      eapply Hclean; [done|]. destruct Hj as [?|[?|?]]; [lia|by left|by right]. }
  unfold ArrayPool.live, ArrayPool.free_bounded, ArrayPool.clean.
  destruct (Z.eqb_spec id (ArrayPool.alloc ap - 1)) as [Hlast|Hmid]; simpl.
  - split.
    { intros k Hk. pose proof (Hbound k Hk) as Hk'. simpl in Hk'.
      assert (k ≠ id) by (by intros ->). lia. }
    split; [done|]. split; [intros [? _]; lia|].
    split; [intros j Hne; split; intros [? ?]; (split; [lia|done])|].
    intros Hclean j v Hv Hj. eapply Hslots; [done| |done].
    destruct Hj as [?|?]; [|by auto].
    destruct (decide (Z.of_nat j = id)); [by left|right; left; lia].
  - split.
    { intros k [->%elem_of_singleton|Hk]%elem_of_union; [done|].
      by apply Hbound. }
    split; [done|]. split; [intros [_ ?]; set_solver|].
    split; [intros j Hne; split; intros [? ?]; (split; [done|set_solver])|].
    intros Hclean j v Hv Hj. eapply Hslots; [done| |done].
    destruct Hj as [?|[->%elem_of_singleton|?]%elem_of_union]; by auto.
Qed.

(** The pools of a caller that writes to and releases only live indices
    satisfy the invariant, keep the free set between the sentinel and the
    allocation pointer, and hold the zero value in every slot that is not
    live. *)
Lemma ArrayPool_used_inv ap :
  ArrayPool.used ap →
  ArrayPool.wf ap ∧ ArrayPool.free_bounded ap ∧ ArrayPool.clean ap.
Proof.
  intros Hused.
  split; [by apply ArrayPool_reachable_wf, ArrayPool_used_reachable|].
  induction Hused as [cap ap Hcap Hnew|ap d id ap' Hused IH Halloc
                     |ap id v ap' Hused IH Hlive Hstore
                     |ap id ap' Hused IH Hlive Hfree].
  - unfold ArrayPool.NewArrayPool, make in Hnew.
    destruct (cap <? 0); [done|].
    destruct (wrap_int (cap + 1) <? 0); [done|]. simpl in Hnew.
    injection Hnew as <-. split.
    + apply set_Forall_empty.
    + intros j v Hv _. simpl in Hv. by apply lookup_replicate in Hv as [-> _].
  - pose proof (ArrayPool_reachable_wf _ (ArrayPool_used_reachable _ Hused)) as Hwf.
    destruct IH as [Hbound Hclean].
    by destruct (ArrayPool_Alloc_clean _ _ _ _ Hwf Hbound Hclean Halloc)
      as (? & ? & _).
  - destruct IH as [Hbound Hclean]. destruct Hlive as [Hid Hlive].
    unfold ArrayPool.store, ArrayPool.GetRef in Hstore.
    destruct (index (ArrayPool.arr ap) id) as [w|]; [|done]. simpl in Hstore.
    injection Hstore as <-. split; [done|].
    intros j u Hu Hj. simpl in *. unfold update in Hu.
    rewrite list_lookup_insert_ne in Hu.
    + by eapply Hclean.
    + intros Heq. destruct Hj as [?|Hin]; [lia|].
      apply Hlive. replace id with (Z.of_nat j) by lia. done.
  - pose proof (ArrayPool_reachable_wf _ (ArrayPool_used_reachable _ Hused)) as Hwf.
    destruct IH as [Hbound Hclean].
    destruct (ArrayPool_Free_live ap id Hwf Hbound Hlive)
      as (ap'' & Heq & _ & Hbound' & _ & _ & _ & Hclean').
    rewrite Hfree in Heq. injection Heq as <-. auto.
Qed.

End ArrayPoolLive.

Section ArrayPoolFree.
Context {T : Type} `{Zero T}.

(** [Alloc] takes indices out of the free set and adds none. *)
Lemma ArrayPool_Alloc_free_subseteq d (ap : ArrayPool.t T) id ap' :
  ArrayPool.Alloc d ap (Ret (id, ap')) →
  ArrayPool.free ap' ⊆ ArrayPool.free ap ∧
  (id ∈ ArrayPool.free ap ∨ id = ArrayPool.alloc ap).
Proof.
  intros Halloc. remember (Ret (id, ap')) as r eqn:Hr.
  induction Halloc as [ap Hroom|ap k _ _ Hk|ap e _ _ _|ap ap1 n r _ _ Hgrow _ IH].
  - injection Hr as <- <-. simpl. split; [done|by right].
  - injection Hr as <- <-. simpl. split; [set_solver|by left].
  - done.
  - destruct (ArrayPool_grow_fields _ _ Hgrow) as [Ha Hf].
    rewrite <- Ha, <- Hf. by apply IH.
Qed.

(** In every reachable pool the free indices are positive. *)
Lemma ArrayPool_reachable_free_pos (ap : ArrayPool.t T) :
  ArrayPool.reachable ap → set_Forall (λ k, 0 < k) (ArrayPool.free ap).
Proof.
  induction 1 as [cap ap Hcap Hnew|ap d id ap' _ IH Halloc
                 |ap id v ap' _ IH Hid Hstore|ap id ap' _ IH Hfree].
  - unfold ArrayPool.NewArrayPool in Hnew.
    destruct (cap <? 0); [done|].
    destruct (make _) as [a|]; [|done]. simpl in Hnew.
    injection Hnew as <-. apply set_Forall_empty.
  - destruct (ArrayPool_Alloc_free_subseteq _ _ _ _ Halloc) as [Hsub _].
    intros k Hk. apply IH. by apply Hsub.
  - unfold ArrayPool.store, ArrayPool.GetRef in Hstore.
    destruct (index (ArrayPool.arr ap) id) as [w|]; [|done]. simpl in Hstore.
    by injection Hstore as <-.
  - unfold ArrayPool.Free in Hfree.
    destruct (Z.leb_spec id 0); [done|].
    destruct (id >=? ArrayPool.alloc ap); [done|]. simpl in Hfree.
    destruct (index (ArrayPool.arr ap) 0) as [z|]; [|done]. simpl in Hfree.
    destruct (index (ArrayPool.arr ap) id) as [w|]; [|done]. simpl in Hfree.
    destruct (id =? ArrayPool.alloc ap - 1); [by injection Hfree as <-|].
    destruct (decide (id ∈ ArrayPool.free ap)); injection Hfree as <-; [done|].
    simpl. apply set_Forall_union; [|done]. by apply set_Forall_singleton.
Qed.

End ArrayPoolFree.

(** ** The earlier revision of the list, through the current one *)

Section EarlyList.
Context {T : Type} `{Zero T}.
Implicit Types (o : ArrayList0.t T).

(** The segment in use: the last one, which is never empty. *)
Lemma wf0_last o :
  ArrayList0.wf o → len (ArrayList0.segments o) ≠ 0 →
  ∃ cur, index (ArrayList0.segments o) (len (ArrayList0.segments o) - 1) = Ret cur ∧
         len (Segment.arr cur) = ArrayList0.segmentSize o ∧
         Segment.count cur =
           ArrayList0.count o
           - (len (ArrayList0.segments o) - 1) * ArrayList0.segmentSize o ∧
         0 < Segment.count cur ≤ ArrayList0.segmentSize o.
Proof.
  intros [Hwf Htight] Hne.
  pose proof (len_nonneg (ArrayList0.segments o)) as Hlen.
  destruct (wf_cursor_lookup _ Hwf Hne) as (cur & Hcur & Harr & Hc).
  simpl in Hcur, Harr, Hc.
  replace (Z.max 0 (len (ArrayList0.segments o) - 1))
    with (len (ArrayList0.segments o) - 1) in * by lia.
  exists cur. split; [apply index_Ret; [lia|done]|]. split; [done|].
  split; [done|].
  pose proof (ArrayList.wf_count _ Hwf) as Hcount.
  pose proof (ArrayList.wf_cursor _ Hwf) as Hcursor. simpl in Hcount, Hcursor.
  pose proof (wf_count_nonneg _ Hwf) as Hc0. simpl in Hc0.
  replace (Z.max 0 (len (ArrayList0.segments o) - 1))
    with (len (ArrayList0.segments o) - 1) in * by lia.
  destruct (decide (0 < len (ArrayList0.segments o) - 1)) as [Hpos|Hzero].
  - specialize (Hcursor Hpos). lia.
  - assert (ArrayList0.count o ≠ 0).
    { intros H0. apply Htight in H0. rewrite H0 in Hne. by apply Hne. }
    assert (len (ArrayList0.segments o) - 1 = 0) as Hz by lia.
    rewrite Hz in *. lia.
Qed.

(** [Alloc] of the earlier revision is [Alloc] of the current one with the
    cursor on the last segment. *)
Lemma Alloc0_embed o :
  ArrayList0.wf o →
  ∃ p o', ArrayList0.Alloc o = Ret (p, o') ∧
          ArrayList.Alloc (ArrayList0.to_cursor o) = Ret (p, ArrayList0.to_cursor o') ∧
          ArrayList0.wf o'.
Proof.
  intros Hwf0. pose proof Hwf0 as [Hwf Htight].
  pose proof (wf_size_pos _ Hwf) as Hpos. simpl in Hpos.
  pose proof (wf_count_nonneg _ Hwf) as Hc0. simpl in Hc0.
  pose proof (len_nonneg (ArrayList0.segments o)) as Hlen.
  assert (∃ p o', ArrayList0.Alloc o = Ret (p, o') ∧
            ArrayList.Alloc (ArrayList0.to_cursor o) = Ret (p, ArrayList0.to_cursor o'))
    as (p & o' & Ho & Hn).
  { unfold ArrayList0.Alloc, ArrayList.Alloc, ArrayList.append_segment. simpl.
    destruct (Z.eqb_spec (len (ArrayList0.segments o)) 0) as [Hnil|Hne].
    - assert (ArrayList0.segments o = []) as Hsegs.
      { destruct (ArrayList0.segments o); [done|].
        unfold len in Hnil. simpl in Hnil. lia. }
      clear Hwf0 Hwf Htight Hnil Hlen.
      destruct o as [sent cnt segs size mask shift]. simpl in *. subst segs.
      simpl. rewrite make_Ret by lia. simpl.
      destruct (index_in_range (replicate (Z.to_nat size) (zero : T)) 0)
        as (v & _ & Hv); [rewrite len_replicate; lia|].
      change (0 + 1 - 1) with 0. rewrite Hv. simpl.
      eexists _, _. split; reflexivity.
    - destruct (wf0_last o Hwf0 Hne) as (cur & Hcur & Harr & Hc & Hrange).
      assert (Z.max 0 (len (ArrayList0.segments o) - 1)
              = len (ArrayList0.segments o) - 1) as Hmax by lia.
      rewrite !Hmax, Hcur. simpl.
      destruct (Z.eqb_spec (Segment.count cur) (ArrayList0.segmentSize o))
        as [Hfull|Hroom].
      + rewrite Z.eqb_refl. rewrite make_Ret by lia. simpl.
        rewrite len_app. change (len [_]) with 1. rewrite !Hmax.
        replace (len (ArrayList0.segments o) + 1 - 1)
          with (len (ArrayList0.segments o) - 1 + 1) by lia.
        set (a := replicate _ _).
        assert (index (ArrayList0.segments o ++ [Segment.mk a 0])
                  (len (ArrayList0.segments o) - 1 + 1) = Ret (Segment.mk a 0)) as Hnew.
        { apply index_Ret; [lia|]. rewrite lookup_app_r by (unfold len; lia).
          replace (Z.to_nat (len (ArrayList0.segments o) - 1 + 1)
                   - length (ArrayList0.segments o))%nat with 0%nat
            by (unfold len; lia). done. }
        rewrite Hnew. simpl.
        destruct (index_in_range a 0) as (v & _ & Hv);
          [subst a; rewrite len_replicate; lia|].
        change (0 + 1 - 1) with 0. rewrite Hv. simpl.
        eexists _, _. split; [done|].
        unfold ArrayList0.to_cursor, ArrayList.with_count,
          ArrayList.with_segments, ArrayList.with_segmentIdx. simpl.
        do 3 f_equal.
        rewrite len_update, len_app. change (len [_]) with 1. lia.
      + simpl. rewrite ?Hmax, Hcur. simpl.
        destruct (index_in_range (Segment.arr cur) (Segment.count cur + 1 - 1))
          as (v & _ & Hv); [lia|].
        rewrite Hv. simpl. eexists _, _. split; [done|].
        unfold ArrayList0.to_cursor, ArrayList.with_count,
          ArrayList.with_segments, ArrayList.with_segmentIdx. simpl.
        do 3 f_equal.
        rewrite len_update. lia. }
  exists p, o'. split; [done|]. split; [done|].
  destruct (Alloc_spec _ Hwf) as (al' & Heq & Hwf' & Hcnt & _).
  rewrite Hn in Heq. injection Heq as _ <-.
  constructor; [done|]. simpl in Hcnt. lia.
Qed.


(** A store of the earlier revision is the store of the current one. *)
Lemma store0_embed o p v :
  ArrayList.store (ArrayList0.to_cursor o) p v =
    (o' ← ArrayList0.store o p v; Ret (ArrayList0.to_cursor o')).
Proof.
  unfold ArrayList.store, ArrayList0.store. simpl.
  destruct (index (ArrayList0.segments o) (ArrayList.seg p)) as [s|]; [|done].
  simpl. destruct (index (Segment.arr s) (ArrayList.off p)); [|done]. simpl.
  unfold ArrayList0.to_cursor, ArrayList.with_segments. simpl.
  do 2 f_equal. by rewrite len_update.
Qed.

Lemma store0_wf o p v o' :
  ArrayList0.wf o → ArrayList0.store o p v = Ret o' →
  ArrayList0.wf o' ∧ ArrayList0.count o' = ArrayList0.count o ∧
  ArrayList0.sentinel o' = ArrayList0.sentinel o.
Proof.
  intros [Hwf Htight] Hstore.
  pose proof (store0_embed o p v) as Hn. rewrite Hstore in Hn. simpl in Hn.
  destruct (store_wf _ _ _ _ Hwf Hn) as (Hwf' & Hcnt & Hdef).
  split; [|done]. constructor; [done|].
  intros H0. simpl in Hcnt. rewrite Hcnt in H0. apply Htight in H0.
  unfold ArrayList0.store in Hstore. rewrite H0 in Hstore.
  rewrite index_out_of_range in Hstore; [done|]. unfold len. simpl. lia.
Qed.

(** [Add] of the earlier revision is [Add] of the current one. *)
Lemma Add0_embed o v :
  ArrayList0.wf o →
  ∃ p o', ArrayList0.Add v o = Ret (p, o') ∧
          ArrayList.Add v (ArrayList0.to_cursor o) = Ret (p, ArrayList0.to_cursor o') ∧
          ArrayList0.wf o'.
Proof.
  intros Hwf0.
  destruct (Alloc0_embed o Hwf0) as (p & o1 & Ho & Hn & Hwf1).
  destruct (Add_spec _ v (ArrayList0.wf_list _ Hwf0)) as (p' & al' & Hadd & _).
  unfold ArrayList.Add in Hadd. rewrite Hn in Hadd. simpl in Hadd.
  rewrite store0_embed in Hadd.
  destruct (ArrayList0.store o1 p v) as [o'|] eqn:Hstore; [|done].
  simpl in Hadd. injection Hadd as <- <-.
  exists p, o'. unfold ArrayList0.Add, ArrayList.Add.
  rewrite Ho, Hn. simpl. rewrite Hstore, store0_embed, Hstore. simpl.
  split; [done|]. split; [done|]. by destruct (store0_wf _ _ _ _ Hwf1 Hstore).
Qed.

(** [RemoveLast] of the earlier revision: a drained segment is given up
    at once. *)
Lemma RemoveLast0_spec o :
  ArrayList0.wf o → 0 < ArrayList0.count o →
  ∃ o', ArrayList0.RemoveLast o = Ret o' ∧ ArrayList0.wf o' ∧
    ArrayList0.count o' = ArrayList0.count o - 1 ∧
    ArrayList0.segmentSizeShift o' = ArrayList0.segmentSizeShift o ∧
    ArrayList0.segmentSizeMask o' = ArrayList0.segmentSizeMask o ∧
    ArrayList0.segmentSize o' = ArrayList0.segmentSize o ∧
    len (ArrayList0.segments o') * ArrayList0.segmentSize o
      < ArrayList0.count o - 1 + ArrayList0.segmentSize o ∧
    ∃ n : nat, Segment.arr <$> ArrayList0.segments o' =
                 take n (Segment.arr <$> ArrayList0.segments o) ∧
               ArrayList0.count o - 1 ≤ Z.of_nat n * ArrayList0.segmentSize o.
Proof.
  intros Hwf0 Hcount. pose proof Hwf0 as [Hwf Htight].
  pose proof (wf_size_pos _ Hwf) as Hpos. simpl in Hpos.
  pose proof (len_nonneg (ArrayList0.segments o)) as Hlen.
  assert (len (ArrayList0.segments o) ≠ 0) as Hne.
  { intros Hl. destruct (ArrayList.wf_nil _ Hwf Hl) as [_ Hc]. simpl in Hc. lia. }
  destruct (wf0_last o Hwf0 Hne) as (cur & Hcur & Harr & Hc & Hrange).
  set (i := len (ArrayList0.segments o) - 1) in *.
  assert (Z.max 0 i = i) as Hmax by lia.
  assert (Segment.arr <$>
            update (ArrayList0.segments o) i
              (Segment.mk (Segment.arr cur) (Segment.count cur - 1))
          = Segment.arr <$> ArrayList0.segments o) as Hss
    by (by apply arrs_update_count).
  unfold ArrayList0.RemoveLast.
  destruct (Z.leb_spec (ArrayList0.count o) 0); [lia|].
  fold i. rewrite Hcur. simpl.
  destruct (Z.gtb_spec (Segment.count cur - 1) 0) as [Hkeep|Hdrain].
  - eexists. split; [done|]. simpl. split; [|split; [done|]].
    + constructor; simpl; [|lia].
      destruct (RemoveLast_spec _ Hwf) as (al' & Hrm & Hwf' & _); [simpl; lia|].
      destruct (RemoveLast_cases _ Hwf) as (cur' & Hcur' & _ & Heq); [simpl; lia|].
      simpl in Hcur', Heq. fold i in Hcur', Heq. rewrite Hmax in Hcur', Heq.
      apply index_Ret_inv in Hcur as [_ Hcur].
      assert (cur' = cur) as -> by congruence.
      destruct (Z.gtb_spec (Segment.count cur - 1) 0); [|lia].
      assert (Ret al' = Ret (ArrayList.with_count
                (ArrayList.with_segments (ArrayList0.to_cursor o)
                   (update (ArrayList0.segments o) i
                      (Segment.mk (Segment.arr cur) (Segment.count cur - 1))))
                (ArrayList0.count o - 1))) as Hal by (by rewrite <- Hrm, <- Heq).
      injection Hal as ->.
      unfold ArrayList0.to_cursor. simpl. rewrite len_update. fold i.
      unfold ArrayList0.to_cursor, ArrayList.with_count,
        ArrayList.with_segments in Hwf'. simpl in Hwf'. fold i in Hwf'.
      by rewrite Hmax in *.
    + split; [done|]. split; [done|]. split; [done|].
      rewrite len_update. split; [subst i; nia|].
      exists (length (ArrayList0.segments o)). rewrite Hss.
      rewrite take_ge by (by rewrite length_fmap). split; [done|].
      unfold len in *. nia.
  - assert (Segment.count cur = 1) as Hone by lia.
    assert (ArrayList0.count o - 1 = i * ArrayList0.segmentSize o) as Hcnt by lia.
    assert (take (Z.to_nat (len (update
                (update (ArrayList0.segments o) i
                   (Segment.mk (Segment.arr cur) (Segment.count cur - 1))) i
                (Segment.mk [] (Segment.count cur - 1))) - 1))
              (update
                (update (ArrayList0.segments o) i
                   (Segment.mk (Segment.arr cur) (Segment.count cur - 1))) i
                (Segment.mk [] (Segment.count cur - 1)))
            = take (Z.to_nat i) (ArrayList0.segments o)) as Htake.
    { rewrite !len_update. fold i. unfold update.
      by rewrite !take_insert_ge by lia. }
    assert (len (take (Z.to_nat i) (ArrayList0.segments o)) = i) as Hlen'.
    { unfold len in *. rewrite length_take. lia. }
    eexists. split; [done|]. simpl. rewrite Htake.
    split; [|split; [done|]].
    + pose proof (ArrayList.wf_segs _ Hwf) as Hsegs. simpl in Hsegs.
      destruct Hwf as [Hshift Hsize Hmask _ _ _ _ _ _]. simpl in *.
      constructor; simpl; [|intros Hz; assert (i = 0) as -> by nia; done].
      constructor; simpl; rewrite ?Hlen'; try done; try lia; try nia.
      apply wf_segments_intro. intros j s Hj.
      apply lookup_take_Some in Hj as [Hj Hlt].
      destruct (wf_segments_lookup _ _ _ _ _ Hsegs Hj) as [Ha Hcs].
      split; [done|]. rewrite Hcs. nia.
    + split; [done|]. split; [done|]. split; [done|].
      rewrite Hlen'. split; [lia|].
      exists (Z.to_nat i). rewrite fmap_take. split; [done|]. lia.
Qed.

Lemma RemoveLast0_Get o o' idx :
  ArrayList0.wf o → 0 < ArrayList0.count o →
  ArrayList0.RemoveLast o = Ret o' →
  0 ≤ idx < ArrayList0.count o - 1 →
  ArrayList0.Get o' idx = ArrayList0.Get o idx.
Proof.
  intros Hwf0 Hcount Hrm Hidx.
  destruct (RemoveLast0_spec o Hwf0 Hcount)
    as (o'' & Heq & Hwf' & Hcnt & Hshift & Hmask & Hsize & _ & n & Htake & Hn).
  rewrite Hrm in Heq. injection Heq as <-.
  pose proof (ArrayList0.wf_list _ Hwf0) as Hwf.
  pose proof (wf_size_pos _ Hwf) as Hpos. simpl in Hpos.
  destruct (Get_load _ idx Hwf) as (v & Hget & Hload & _ & Hoff & Hdec);
    [simpl; lia|].
  change (ArrayList0.Get o idx) with (ArrayList.Get (ArrayList0.to_cursor o) idx).
  change (ArrayList0.Get o' idx) with (ArrayList.Get (ArrayList0.to_cursor o') idx).
  rewrite Hget.
  rewrite Get_in_range; [|apply (ArrayList0.wf_list _ Hwf')|simpl; lia]. simpl.
  rewrite Hshift, Hmask.
  rewrite (load_take (ArrayList0.to_cursor o) (ArrayList0.to_cursor o') n);
    [done|done|]. simpl in *. nia.
Qed.

End EarlyList.

Section SwapLast.
Context {T : Type} `{Zero T}.
Implicit Types (al : ArrayList.t T) (o : ArrayList0.t T).

(** The two writes of [FastRemoveAt]: the last value goes to the removed
    place and the default value to the last place. *)
Lemma swap_last_spec al idx :
  ArrayList.wf al → 0 ≤ idx < ArrayList.count al →
  let lastPtr :=
    ArrayList.Ptr (Z.shiftr (ArrayList.count al - 1) (ArrayList.segmentSizeShift al))
                  (Z.land (ArrayList.count al - 1) (ArrayList.segmentSizeMask al)) in
  let p := ArrayList.Ptr (Z.shiftr idx (ArrayList.segmentSizeShift al))
                         (Z.land idx (ArrayList.segmentSizeMask al)) in
  ∃ vl al1 al2,
    ArrayList.load al lastPtr = Ret vl ∧
    ArrayList.Get al (ArrayList.count al - 1) = Ret vl ∧
    ArrayList.store al p vl = Ret al1 ∧
    ArrayList.store al1 lastPtr (ArrayList.defaultValue al1) = Ret al2 ∧
    ArrayList.wf al2 ∧ ArrayList.count al2 = ArrayList.count al ∧
    ArrayList.same_geometry al al2 ∧
    ∀ j, 0 ≤ j < ArrayList.count al - 1 →
         ArrayList.Get al2 j = if decide (j = idx) then Ret vl else ArrayList.Get al j.
Proof.
  intros Hwf Hidx lastPtr p.
  set (last := ArrayList.count al - 1) in *.
  assert (0 ≤ last < ArrayList.count al) as Hlast by (subst last; lia).
  destruct (Get_load al last Hwf Hlast) as (vl & Hgl & Hll & _).
  destruct (Get_load al idx Hwf Hidx) as (vi & Hgi & Hli & _).
  fold lastPtr in Hll. fold p in Hli.
  destruct (store_spec al p vl vi Hwf Hli)
    as (al1 & Hs1 & Hwf1 & Hl1 & Hcnt1 & Hdef1 & Hidx1 & Hshift1 & Hmask1 & _).
  assert (ArrayList.load al1 lastPtr = Ret vl) as Hll1.
  { destruct (decide (last = idx)) as [Heq|Hne].
    - subst lastPtr p. by rewrite Heq.
    - rewrite (store_other _ _ _ _ lastPtr Hs1); [done|].
      intros Heq. apply slot_inj in Heq; [lia|done]. }
  destruct (store_spec al1 lastPtr (ArrayList.defaultValue al1) vl Hwf1 Hll1)
    as (al2 & Hs2 & Hwf2 & Hl2 & Hcnt2 & Hdef2 & Hidx2 & Hshift2 & Hmask2 & _).
  pose proof (same_geometry_trans _ _ _ (store_geometry _ _ _ _ Hs1)
                (store_geometry _ _ _ _ Hs2)) as Hgeo.
  exists vl, al1, al2. split; [done|]. split; [done|]. split; [done|].
  split; [done|]. split; [done|]. split; [lia|]. split; [done|].
  intros j Hj.
  assert (0 ≤ j < ArrayList.count al) as Hj' by lia.
  destruct (Get_load al j Hwf Hj') as (vj & Hgj & Hlj & _).
  set (pj := ArrayList.Ptr (Z.shiftr j _) _) in *.
  assert (pj ≠ lastPtr) as Hnel.
  { intros Heq. apply slot_inj in Heq; [lia|done]. }
  rewrite Get_in_range by (done || lia). rewrite Hshift2, Hmask2, Hshift1, Hmask1.
  fold pj. rewrite (store_other _ _ _ _ pj Hs2 Hnel).
  destruct (decide (j = idx)) as [->|Hne]; [done|].
  rewrite Hgj. rewrite (store_other _ _ _ _ pj Hs1); [done|].
  intros Heq. apply slot_inj in Heq; [lia|done].
Qed.

(** [FastRemoveAt] of the earlier revision. *)
Lemma FastRemoveAt0_spec o idx :
  ArrayList0.wf o → 0 ≤ idx < ArrayList0.count o →
  ∃ o', ArrayList0.FastRemoveAt o idx = Ret o' ∧ ArrayList0.wf o' ∧
    ArrayList0.count o' = ArrayList0.count o - 1 ∧
    ∀ j, 0 ≤ j < ArrayList0.count o - 1 →
         ArrayList0.Get o' j =
           if decide (j = idx) then ArrayList0.Get o (ArrayList0.count o - 1)
           else ArrayList0.Get o j.
Proof.
  intros Hwf0 Hidx. pose proof (ArrayList0.wf_list _ Hwf0) as Hwf.
  destruct (swap_last_spec _ idx Hwf Hidx)
    as (vl & al1 & al2 & Hll & Hgl & Hs1 & Hs2 & Hwf2 & Hcnt2 & _ & Hget2).
  simpl in Hll, Hgl, Hs1, Hs2, Hcnt2, Hget2.
  rewrite store0_embed in Hs1.
  destruct (ArrayList0.store o _ vl) as [o1|] eqn:Ho1; [|done].
  simpl in Hs1. injection Hs1 as <-.
  destruct (store0_wf _ _ _ _ Hwf0 Ho1) as (Hwf1 & Hcnt1 & Hsent1).
  rewrite store0_embed in Hs2. simpl in Hs2.
  destruct (ArrayList0.store o1 _ (ArrayList0.sentinel o1)) as [o2|] eqn:Ho2;
    [|done].
  simpl in Hs2. injection Hs2 as <-.
  destruct (store0_wf _ _ _ _ Hwf1 Ho2) as (Hwf02 & Hcnt02 & _).
  assert (0 < ArrayList0.count o2) as Hpos2 by lia.
  destruct (RemoveLast0_spec o2 Hwf02 Hpos2) as (o' & Hrm & Hwf' & Hcnt' & _).
  exists o'. split.
  { unfold ArrayList0.FastRemoveAt.
    change (ArrayList0.GetRef o (ArrayList0.count o - 1))
      with (ArrayList.GetRef (ArrayList0.to_cursor o) (ArrayList0.count o - 1)).
    rewrite GetRef_in_range by (done || simpl; lia). simpl.
    change (ArrayList0.GetRef o idx)
      with (ArrayList.GetRef (ArrayList0.to_cursor o) idx).
    rewrite GetRef_in_range by (done || simpl; lia). simpl.
    change (ArrayList0.load o ?q) with (ArrayList.load (ArrayList0.to_cursor o) q).
    rewrite Hll. simpl. rewrite Ho1. simpl. rewrite Ho2. simpl. done. }
  split; [done|]. split; [lia|].
  intros j Hj.
  rewrite (RemoveLast0_Get o2 o' j Hwf02 Hpos2 Hrm) by lia.
  change (ArrayList0.Get o2 j) with (ArrayList.Get (ArrayList0.to_cursor o2) j).
  rewrite Hget2 by lia.
  destruct (decide (j = idx)); [|done].
  by rewrite <- Hgl.
Qed.

End SwapLast.

(** ** The two revisions of the list, call by call *)

Section Revisions.
Context {T : Type} `{Zero T}.
Implicit Types (al : ArrayList.t T) (o : ArrayList0.t T).

(** The panics of [FastRemoveAt], in both revisions. *)
Lemma FastRemoveAt_errors al idx :
  ArrayList.wf al → ¬ 0 ≤ idx < ArrayList.count al →
  ArrayList.FastRemoveAt al idx =
    Panic (if decide (0 < ArrayList.count al ∧ ArrayList.count al ≤ idx)
           then OutOfBound else IndexOutOfRange).
Proof.
  intros Hwf Hidx. pose proof (wf_count_nonneg _ Hwf) as Hc.
  unfold ArrayList.FastRemoveAt.
  destruct (decide (0 < ArrayList.count al)) as [Hpos|Hzero].
  - rewrite (GetRef_in_range al (ArrayList.count al - 1)) by (done || lia).
    simpl. destruct (decide (ArrayList.count al ≤ idx)) as [Hout|Hneg].
    + rewrite GetRef_out_of_bound by done.
      by destruct (decide _) as [|Hno]; [|exfalso; apply Hno].
    + destruct (Get_negative al idx Hwf) as [_ ->]; [lia|].
      destruct (decide _) as [[_ ?]|]; [lia|done].
  - destruct (Get_negative al (ArrayList.count al - 1) Hwf) as [_ ->]; [lia|].
    destruct (decide _) as [[? _]|]; [lia|done].
Qed.

Lemma FastRemoveAt0_errors o idx :
  ArrayList0.wf o → ¬ 0 ≤ idx < ArrayList0.count o →
  ArrayList0.FastRemoveAt o idx =
    Panic (if decide (0 < ArrayList0.count o ∧ ArrayList0.count o ≤ idx)
           then OutOfBound else IndexOutOfRange).
Proof.
  intros [Hwf _] Hidx. pose proof (wf_count_nonneg _ Hwf) as Hc. simpl in Hc.
  unfold ArrayList0.FastRemoveAt.
  change (ArrayList0.GetRef o ?i) with (ArrayList.GetRef (ArrayList0.to_cursor o) i).
  destruct (decide (0 < ArrayList0.count o)) as [Hpos|Hzero].
  - rewrite (GetRef_in_range _ (ArrayList0.count o - 1)) by (done || simpl; lia).
    simpl. destruct (decide (ArrayList0.count o ≤ idx)) as [Hout|Hneg].
    + rewrite GetRef_out_of_bound by done.
      by destruct (decide _) as [|Hno]; [|exfalso; apply Hno].
    + destruct (Get_negative _ idx Hwf) as [_ ->]; [lia|].
      destruct (decide _) as [[_ ?]|]; [lia|done].
  - destruct (Get_negative _ (ArrayList0.count o - 1) Hwf) as [_ ->]; [lia|].
    destruct (decide _) as [[? _]|]; [lia|done].
Qed.

(** Lists that agree on their elements show the same. *)
Lemma same_view_intro o al :
  ArrayList0.wf o → ArrayList.wf al →
  ArrayList0.count o = ArrayList.count al →
  (∀ idx, 0 ≤ idx < ArrayList.count al →
          ArrayList0.Get o idx = ArrayList.Get al idx) →
  same_view o al.
Proof.
  intros [Hwf0 _] Hwf Hcnt Hget. split; [done|]. intros idx.
  change (ArrayList0.Get o idx) with (ArrayList.Get (ArrayList0.to_cursor o) idx).
  destruct (decide (idx < 0)) as [Hneg|Hnn].
  { destruct (Get_negative _ idx Hwf0 Hneg) as [-> _].
    by destruct (Get_negative _ idx Hwf Hneg) as [-> _]. }
  destruct (decide (idx < ArrayList.count al)) as [Hin|Hout].
  - apply Hget. lia.
  - rewrite !Get_out_of_bound by (simpl; lia). done.
Qed.

(** One call keeps the invariants and the view, or panics alike. *)
Lemma list_step_agree op o al :
  ArrayList0.wf o → ArrayList.wf al → same_view o al →
  match list0_step op o, list_step op al with
  | Ret o', Ret al' => ArrayList0.wf o' ∧ ArrayList.wf al' ∧ same_view o' al'
  | Panic e0, Panic e => e0 = e
  | _, _ => False
  end.
Proof.
  intros Hwf0 Hwf [Hcnt Hget]. unfold ArrayList0.Count, ArrayList.Count in Hcnt.
  pose proof (wf_count_nonneg _ Hwf) as Hc.
  destruct op as [v| |idx|]; simpl.
  - destruct (Add0_embed o v Hwf0) as (p & o' & Ho & Hn & Hwf0').
    destruct (Add_spec _ v (ArrayList0.wf_list _ Hwf0))
      as (p1 & alo & Hadd1 & _ & _ & Hcnt1 & _ & Hget1 & Hold1).
    rewrite Hn in Hadd1. injection Hadd1 as _ <-. simpl in Hcnt1, Hget1, Hold1.
    destruct (Add_spec al v Hwf)
      as (p2 & al' & Hadd2 & Hwf' & _ & Hcnt2 & _ & Hget2 & Hold2).
    rewrite Ho, Hadd2. simpl. split; [done|]. split; [done|].
    apply same_view_intro; [done|done|lia|].
    intros idx Hidx.
    change (ArrayList0.Get o' idx) with (ArrayList.Get (ArrayList0.to_cursor o') idx).
    destruct (decide (idx = ArrayList.count al)) as [->|Hne].
    + rewrite Hget2, <- Hcnt. done.
    + rewrite Hold1, Hold2 by lia. apply Hget.
  - destruct (decide (0 < ArrayList.count al)) as [Hpos|Hzero].
    + destruct (RemoveLast0_spec o Hwf0) as (o' & Ho & Hwf0' & Hcnt0 & _); [lia|].
      destruct (RemoveLast_spec al Hwf Hpos) as (al' & Hrm & Hwf' & Hcnt').
      rewrite Ho, Hrm. split; [done|]. split; [done|].
      apply same_view_intro; [done|done|lia|].
      intros idx Hidx.
      rewrite (RemoveLast0_Get o o' idx Hwf0) by (done || lia).
      rewrite (RemoveLast_Get al al' idx Hwf) by (done || lia).
      apply Hget.
    + unfold ArrayList0.RemoveLast, ArrayList.RemoveLast.
      destruct (Z.leb_spec (ArrayList0.count o) 0); [|lia].
      destruct (Z.leb_spec (ArrayList.count al) 0); [|lia].
      split; [done|]. split; [done|]. done.
  - destruct (decide (0 ≤ idx < ArrayList.count al)) as [Hin|Hout].
    + destruct (FastRemoveAt0_spec o idx Hwf0) as (o' & Ho & Hwf0' & Hcnt0 & Hget0);
        [lia|].
      destruct (FastRemoveAt_spec al idx Hwf Hin)
        as (al' & Hrm & Hwf' & Hcnt' & _ & Hget' & _).
      rewrite Ho, Hrm. split; [done|]. split; [done|].
      apply same_view_intro; [done|done|lia|].
      intros j Hj. rewrite Hget0, Hget' by lia. rewrite Hcnt.
      destruct (decide (j = idx)); apply Hget.
    + rewrite FastRemoveAt0_errors, FastRemoveAt_errors by (done || lia).
      rewrite Hcnt. done.
  - assert (ArrayList0.wf (ArrayList0.Clear o)) as Hwf0'.
    { destruct Hwf0 as [Hwf0 _]. constructor; [|done].
      by apply (Clear_wf (ArrayList0.to_cursor o)). }
    pose proof (Clear_wf al Hwf) as Hwf'.
    split; [done|]. split; [done|].
    apply same_view_intro; [done|done|done|]. simpl. lia.
Qed.

Lemma list_run_agree script o al :
  ArrayList0.wf o → ArrayList.wf al → same_view o al →
  same_outcome (list0_run script o) (list_run script al) ∧
  ∀ o', list0_run script o = Ret o' → ArrayList0.wf o'.
Proof.
  revert o al. induction script as [|op script IH]; intros o al Hwf0 Hwf Hview.
  - simpl. split; [done|]. by intros o' [= <-].
  - simpl. pose proof (list_step_agree op o al Hwf0 Hwf Hview) as Hstep.
    destruct (list0_step op o) as [o1|e0], (list_step op al) as [al1|e];
      simpl; try done.
    destruct Hstep as (Hwf1 & Hwf1' & Hview1). by apply IH.
Qed.

(** A new list of the earlier revision. *)
Lemma NewArrayList0_spec n o0 :
  n ≤ 2 ^ 32 → ArrayList0.NewArrayList (T:=T) n = Some o0 →
  0 < n ∧ ArrayList0.to_cursor o0 = ArrayList.NewArrayList n ∧
  ArrayList0.wf o0 ∧ same_view o0 (ArrayList.NewArrayList n).
Proof.
  intros Hn. unfold ArrayList0.NewArrayList.
  destruct (Z.leb_spec n 0) as [|Hpos]; [done|]. intros [= Hnew].
  assert (ArrayList0.to_cursor o0 = ArrayList.NewArrayList n) as Heq.
  { rewrite <- Hnew. unfold ArrayList.NewArrayList.
    destruct (Z.leb_spec n 0); [lia|]. reflexivity. }
  assert (ArrayList0.count o0 = 0 → ArrayList0.segments o0 = []) as Htight
    by (by rewrite <- Hnew).
  clear Hnew.
  pose proof (NewArrayList_wf' (T:=T) n Hn) as Hwf.
  rewrite <- Heq in *.
  assert (ArrayList0.wf o0) as Hwf0 by (by constructor).
  split; [done|]. split; [done|]. split; [done|].
  split; [reflexivity|]. intros idx. reflexivity.
Qed.

End Revisions.

(** ** The concrete states are states of runs *)

Ltac pool_extend :=
  eapply Pool.AllocMany_cons;
  [apply Pool_Alloc_extend; [reflexivity|vm_compute; reflexivity]|].

Ltac apool_next :=
  eapply ArrayPool.AllocMany_cons;
  [apply ArrayPool.Alloc_next; unfold len; simpl; lia|].

Lemma list5_reached : AddN 5 1 (ArrayList.NewArrayList 4) = Ret list5.
Proof. vm_compute. reflexivity. Qed.

Lemma list_drain_reached :
  (al ← AddN 9 1 (ArrayList.NewArrayList 4); RemoveLastN 4 al) = Ret list_drain.
Proof. vm_compute. reflexivity. Qed.

(** The run of the list's test: 27 elements in segments of four, reads at
    0, 5, 16, 26 and (out of bound) 100, then fast removals down to the
    empty list, which keeps one segment. *)
Lemma list_test_run :
  (al ← AddN 27 1 (ArrayList.NewArrayList 4);
   Ret (ArrayList.GetRef al <$> [0; 5; 16; 26; 100])) =
    Ret [Ret (ArrayList.Ptr 0 0); Ret (ArrayList.Ptr 1 1);
         Ret (ArrayList.Ptr 4 0); Ret (ArrayList.Ptr 6 2); Panic OutOfBound] ∧
  (al ← AddN 27 1 (ArrayList.NewArrayList 4);
   FastRemoveAll
     ([0; 5; 16; 23] ++ [22; 21; 20] ++ [19; 18; 17; 16]
        ++ [15; 14; 13; 12; 11; 10; 9; 8; 7; 6; 5; 4; 3; 2; 1; 0]) al) =
    Ret (ArrayList.mk 0 0 [Segment.mk [0; 0; 0; 0] 0] 0 4 3 2).
Proof. split; vm_compute; reflexivity. Qed.

Lemma pool_new_reached : Pool.NewPool 4 = pool_new.
Proof. reflexivity. Qed.

Lemma pool_two_reached : Pool.AllocMany 2 pool_new [0; 1] pool_two.
Proof. do 2 pool_extend. constructor. Qed.

Lemma pool3_reached :
  ∃ p p', Pool.AllocMany 3 pool_new [0; 1; 2] p ∧
          (al ← ArrayList.store (Pool.items p) (ArrayList.Ptr 0 0) 10;
           al ← ArrayList.store al (ArrayList.Ptr 0 1) 20;
           al ← ArrayList.store al (ArrayList.Ptr 0 2) 30;
           Ret (Pool.mk (Pool.frees p) al)) = Ret p' ∧
          Pool.Free 0 p' = Ret pool3.
Proof.
  eexists _, _. split; [do 3 pool_extend; constructor|].
  split; vm_compute; reflexivity.
Qed.

Lemma apool_new_reached : ArrayPool.NewArrayPool 4 = Ret apool_new.
Proof. reflexivity. Qed.

Lemma apool_two_reached : ArrayPool.AllocMany 2 apool_new [1; 2] apool_two.
Proof. do 2 apool_next. constructor. Qed.

Lemma apool_freed_reached : ArrayPool.FreeAll [1; 2] apool_two = Ret apool_freed.
Proof. vm_compute. reflexivity. Qed.

Lemma apool3_reached :
  ∃ ap, ArrayPool.AllocMany 3 apool_new [1; 2; 3] ap ∧
        (ap ← ArrayPool.store ap 1 10;
         ap ← ArrayPool.store ap 2 20;
         ArrayPool.store ap 3 30) = Ret apool3.
Proof.
  eexists. split; [do 3 apool_next; constructor|]. vm_compute. reflexivity.
Qed.

Lemma apool_full_reached :
  ∃ ap, ArrayPool.AllocMany 1 apool3 [4] ap ∧
        ArrayPool.store ap 4 40 = Ret apool_full ∧
        ArrayPool.Free 2 apool_full = Ret apool_hole.
Proof.
  eexists. split; [apool_next; constructor|].
  split; vm_compute; reflexivity.
Qed.

Lemma pool_both_free_reached :
  Pool.FreeAll [0; 1] pool_two = Ret pool_both_free.
Proof. vm_compute. reflexivity. Qed.

(** With indices already free, a round trip need not return the same
    index: which member of the free set [Alloc] takes is left open. *)
Lemma Pool_round_trip_needs_no_free_index :
  Pool.AllocMany 1 pool_both_free [0] (Pool.mk {[1]} (Pool.items pool_both_free)) ∧
  Pool.FreeAll [0] (Pool.mk {[1]} (Pool.items pool_both_free)) = Ret pool_both_free ∧
  Pool.AllocMany 1 pool_both_free [1] (Pool.mk {[0]} (Pool.items pool_both_free)).
Proof.
  assert (∀ k (F : gset Z),
            k ∈ ({[0; 1]} : gset Z) → F = {[0; 1]} ∖ {[k]} →
            Pool.AllocMany 1 pool_both_free [k]
              (Pool.mk F (Pool.items pool_both_free))) as Hone.
  { intros k F Hk ->.
    assert (Pool.Alloc pool_both_free (Pool.reuse k pool_both_free)) as Hcall
      by (apply Pool.Alloc_range; [by_evaluation|done]).
    destruct (Pool_reuse_spec pool_both_free k) as [Heq _];
      [by_evaluation|done|].
    rewrite Heq in Hcall. econstructor; [exact Hcall|constructor]. }
  split; [|split].
  - apply Hone; [by_evaluation|]. apply (bool_decide_unpack _). by vm_compute.
  - vm_compute. reflexivity.
  - apply Hone; [by_evaluation|]. apply (bool_decide_unpack _). by vm_compute.
Qed.

Lemma list5_wf : ArrayList.wf list5.
Proof. by_evaluation. Qed.

Lemma list_drain_wf : ArrayList.wf list_drain.
Proof. by_evaluation. Qed.

Lemma pool3_wf : Pool.wf pool3.
Proof. by_evaluation. Qed.

Lemma apool3_wf : ArrayPool.wf apool3.
Proof. by_evaluation. Qed.

Lemma ArrayList_reachable_AddN n v al al' :
  ArrayList.reachable al → AddN n v al = Ret al' → ArrayList.reachable al'.
Proof.
  revert v al. induction n as [|n IH]; intros v al Hreach; simpl.
  - by intros [= <-].
  - unfold ArrayList.Add.
    destruct (ArrayList.Alloc al) as [[p al1]|] eqn:Ha; [|done]. simpl.
    destruct (ArrayList.store al1 p v) as [al2|] eqn:Hs; [|done]. simpl.
    apply IH. eapply ArrayList.reachable_store; [|done].
    by apply (ArrayList.reachable_Alloc al (p, al1)).
Qed.

Lemma ArrayList_reaches_AddN n v al0 al al' :
  ArrayList.reaches al0 al → AddN n v al = Ret al' → ArrayList.reaches al0 al'.
Proof.
  revert v al. induction n as [|n IH]; intros v al Hreach; simpl.
  - by intros [= <-].
  - unfold ArrayList.Add.
    destruct (ArrayList.Alloc al) as [[p al1]|] eqn:Ha; [|done]. simpl.
    destruct (ArrayList.store al1 p v) as [al2|] eqn:Hs; [|done]. simpl.
    apply IH. eapply ArrayList.reaches_store; [|done].
    by apply (ArrayList.reaches_Alloc al0 al (p, al1)).
Qed.

Lemma Pool_used_AllocMany {T} `{Zero T} n (p : Pool.t T) ids p' :
  Pool.used p → Pool.AllocMany n p ids p' → Pool.used p'.
Proof.
  intros Hused Hmany. induction Hmany as [p|n p id r p1 ids p2 Halloc _ IH];
    [done|].
  apply IH. by econstructor.
Qed.

Lemma ArrayPool_used_AllocMany {T} `{Zero T} n (ap : ArrayPool.t T) ids ap' :
  ArrayPool.used ap → ArrayPool.AllocMany n ap ids ap' → ArrayPool.used ap'.
Proof.
  intros Hused Hmany.
  induction Hmany as [ap|n d ap id ap1 ids ap2 Halloc _ IH]; [done|].
  apply IH. by econstructor.
Qed.

Lemma list5_reachable : ArrayList.reachable list5.
Proof.
  apply (ArrayList_reachable_AddN 5 1 (ArrayList.NewArrayList 4)).
  - apply ArrayList.reachable_new. lia.
  - exact list5_reached.
Qed.

Lemma pool3_used : Pool.used pool3.
Proof.
  assert (Pool.used pool_new) as H0 by (apply (Pool.used_new 4); lia).
  assert (Pool.used (Pool.mk ∅ (ArrayList.mk 0 3 [Segment.mk [0; 0; 0; 0] 3] 0 4 3 2)))
    as H1.
  { apply (Pool_used_AllocMany 3 pool_new [0; 1; 2]); [done|].
    do 3 pool_extend. constructor. }
  assert (Pool.used (Pool.mk ∅ (ArrayList.mk 0 3 [Segment.mk [10; 0; 0; 0] 3] 0 4 3 2)))
    as H2.
  { apply (Pool.used_store _ 0 (ArrayList.Ptr 0 0) 10 _ H1).
    - split; [simpl; lia|by_evaluation].
    - reflexivity.
    - reflexivity. }
  assert (Pool.used (Pool.mk ∅ (ArrayList.mk 0 3 [Segment.mk [10; 20; 0; 0] 3] 0 4 3 2)))
    as H3.
  { apply (Pool.used_store _ 1 (ArrayList.Ptr 0 1) 20 _ H2).
    - split; [simpl; lia|by_evaluation].
    - reflexivity.
    - reflexivity. }
  assert (Pool.used (Pool.mk ∅ (ArrayList.mk 0 3 [Segment.mk [10; 20; 30; 0] 3] 0 4 3 2)))
    as H4.
  { apply (Pool.used_store _ 2 (ArrayList.Ptr 0 2) 30 _ H3).
    - split; [simpl; lia|by_evaluation].
    - reflexivity.
    - reflexivity. }
  apply (Pool.used_Free _ 0 _ H4). vm_compute. reflexivity.
Qed.

Lemma apool_hole_used : ArrayPool.used apool_full ∧ ArrayPool.used apool_hole.
Proof.
  assert (ArrayPool.used apool_new) as H0.
  { apply (ArrayPool.used_new 4); [lia|reflexivity]. }
  assert (ArrayPool.used (ArrayPool.mk [0; 0; 0; 0; 0] 5 ∅)) as H1.
  { apply (ArrayPool_used_AllocMany 4 apool_new [1; 2; 3; 4]); [done|].
    do 4 apool_next. constructor. }
  assert (ArrayPool.used (ArrayPool.mk [0; 10; 0; 0; 0] 5 ∅)) as H2.
  { apply (ArrayPool.used_store _ 1 10 _ H1); [|reflexivity].
    split; [simpl; lia|by_evaluation]. }
  assert (ArrayPool.used (ArrayPool.mk [0; 10; 20; 0; 0] 5 ∅)) as H3.
  { apply (ArrayPool.used_store _ 2 20 _ H2); [|reflexivity].
    split; [simpl; lia|by_evaluation]. }
  assert (ArrayPool.used (ArrayPool.mk [0; 10; 20; 30; 0] 5 ∅)) as H4.
  { apply (ArrayPool.used_store _ 3 30 _ H3); [|reflexivity].
    split; [simpl; lia|by_evaluation]. }
  assert (ArrayPool.used apool_full) as H5.
  { apply (ArrayPool.used_store _ 4 40 _ H4); [|reflexivity].
    split; [simpl; lia|by_evaluation]. }
  split; [done|].
  apply (ArrayPool.used_Free _ 2 _ H5); [|vm_compute; reflexivity].
  split; [simpl; lia|by_evaluation].
Qed.

(** The pool [apool_stale] arises from releases of live indices only. *)
Lemma apool_stale_used : ArrayPool.used apool_stale.
Proof.
  assert (ArrayPool.used (ArrayPool.mk [0; 0; 0; 0] 1 ∅)) as H0.
  { apply (ArrayPool.used_new 3); [lia|reflexivity]. }
  assert (ArrayPool.used (ArrayPool.mk [0; 0; 0; 0] 4 ∅)) as H1.
  { apply (ArrayPool_used_AllocMany 3 _ [1; 2; 3] _ H0).
    do 3 apool_next. constructor. }
  assert (ArrayPool.used (ArrayPool.mk [0; 0; 0; 0] 4 {[2]})) as H2.
  { apply (ArrayPool.used_Free _ 2 _ H1); [|vm_compute; reflexivity].
    split; [simpl; lia|by_evaluation]. }
  apply (ArrayPool.used_Free _ 3 _ H2); [|vm_compute; reflexivity].
  split; [simpl; lia|by_evaluation].
Qed.

(** * The properties of the specification *)

Section Properties.
Context {T : Type} `{Zero T}.

(** C1 -- Reset on free.  In the segmented pool, [Free] of a valid, live
    index returns, and reading the slot afterwards yields the list's default
    value, which is the zero value.  In the contiguous pool, [Free] of a
    valid index returns on each of its paths (pointer retracted, index
    already free, index added to the free set), and reading the slot
    afterwards yields the value held by the sentinel slot 0, which is the
    zero value. *)
Theorem reset_on_free :
  (∀ (p : Pool.t T) (id : Z),
     Pool.wf p → 0 ≤ id < ArrayList.Count (Pool.items p) → id ∉ Pool.frees p →
     ∃ p', Pool.Free id p = Ret p' ∧
           ArrayList.Get (Pool.items p') id =
             Ret (ArrayList.defaultValue (Pool.items p)) ∧
           ArrayList.defaultValue (Pool.items p) = zero) ∧
  (∀ (ap : ArrayPool.t T) (id : Z),
     ArrayPool.wf ap → 0 < id < ArrayPool.alloc ap →
     ∃ ap' z, ArrayPool.Free id ap = Ret ap' ∧
              ArrayPool.Get ap 0 = Ret z ∧
              ArrayPool.Get ap' id = Ret z ∧
              z = zero).
Proof.
  split.
  - intros p id Hwf Hid Hlive.
    destruct (Pool_Free_live p id Hwf Hid Hlive) as (al & Hfree & _ & _ & Hget).
    eexists. split; [done|]. split; [done|]. apply (Pool.wf_default _ Hwf).
  - intros ap id [Halloc Hsent] Hid.
    rewrite (ArrayPool_Free_valid ap id zero) by (done || lia).
    eexists _, zero. split; [done|]. unfold ArrayPool.Get. simpl.
    split; [by apply index_Ret|]. split; [|done].
    apply index_update_eq. lia.
Qed.

(** C2 -- Allocation order of the segmented pool.  Of a pool that satisfies
    the invariant, every outcome of [Alloc] is: when the free set is not
    empty, some member [k] of it, a pointer to slot [k], and the pool with
    [k] removed from the free set; when the free set is empty, the list's
    count as the new index, with the slot [ArrayList.Alloc] has just
    claimed, which is the slot of that index.  Every member of the free set
    is a possible result.  In the scenario: 35 calls on a new pool of
    segment size 3 hand out 0..34, and after [Free] of the nine indices of
    [freed_ids] every outcome of the next [Alloc] is one of these nine
    indices, not 35, and [Count] is 27 afterwards. *)
Theorem segmented_pool_alloc_order :
  (∀ (p : Pool.t T) r,
     Pool.wf p → Pool.Alloc p r →
     let ptr id := ArrayList.Ptr
                     (Z.shiftr id (ArrayList.segmentSizeShift (Pool.items p)))
                     (Z.land id (ArrayList.segmentSizeMask (Pool.items p))) in
     (Pool.frees p ≠ ∅ →
      ∃ k, k ∈ Pool.frees p ∧
           ArrayList.GetRef (Pool.items p) k = Ret (ptr k) ∧
           r = Ret (k, ptr k, Pool.mk (Pool.frees p ∖ {[k]}) (Pool.items p))) ∧
     (Pool.frees p = ∅ →
      let id := ArrayList.Count (Pool.items p) in
      ∃ al, ArrayList.Alloc (Pool.items p) = Ret (ptr id, al) ∧
            ArrayList.Count al = id + 1 ∧
            ArrayList.GetRef al id = Ret (ptr id) ∧
            r = Ret (id, ptr id, Pool.mk ∅ al))) ∧
  (∀ (p : Pool.t T) k,
     Pool.wf p → k ∈ Pool.frees p →
     ∃ ref, Pool.Alloc p
              (Ret (k, ref, Pool.mk (Pool.frees p ∖ {[k]}) (Pool.items p)))) ∧
  (∃ ids p1, Pool.AllocMany 35 (Pool.NewPool (T:=T) 3) ids p1) ∧
  (∀ ids p1,
     Pool.AllocMany 35 (Pool.NewPool (T:=T) 3) ids p1 →
     ids = seqZ 0 35 ∧
     ∃ p2, Pool.FreeAll freed_ids p1 = Ret p2 ∧
           (∃ r, Pool.Alloc p2 r) ∧
           ∀ r, Pool.Alloc p2 r →
                ∃ id ref p3, r = Ret (id, ref, p3) ∧
                             id ∈ freed_ids ∧ id ≠ 35 ∧ Pool.Count p3 = 27).
Proof.
  split; [|split; [|split]].
  - intros p r Hwf Hcall ptr. split.
    + intros Hne. destruct Hcall as [k _ Hk|Hsize].
      2: { by apply size_zero_empty in Hsize. }
      destruct (Pool_reuse_spec p k Hwf Hk) as [-> _].
      exists k. split; [done|]. split; [|done].
      apply GetRef_in_range; [apply Hwf|]. by apply (Pool.wf_frees _ Hwf).
    + intros Hempty id. destruct Hcall as [k _ Hk|_].
      { rewrite Hempty in Hk. by apply not_elem_of_empty in Hk. }
      destruct (Alloc_spec _ (Pool.wf_items _ Hwf))
        as (al & Halloc & Hwf' & Hcnt & _ & _ & Hshift & Hmask).
      exists al. split; [done|]. split; [done|]. split.
      * rewrite GetRef_in_range.
        -- subst ptr. simpl. by rewrite Hshift, Hmask.
        -- done.
        -- pose proof (ArrayList.wf_count _ (Pool.wf_items _ Hwf)).
           pose proof (ArrayList.wf_idx _ (Pool.wf_items _ Hwf)).
           pose proof (wf_size_pos _ (Pool.wf_items _ Hwf)).
           unfold id, ArrayList.Count. nia.
      * unfold Pool.extend. rewrite Halloc. simpl. by rewrite Hempty.
  - intros p k Hwf Hk. destruct (Pool_reuse_spec p k Hwf Hk) as [Heq _].
    eexists. rewrite <- Heq. apply Pool.Alloc_range; [|done].
    apply size_pos_elem. by exists k.
  - apply Pool_AllocMany_total, NewPool_wf. lia.
  - intros ids p1 Hmany.
    assert (Pool.wf (Pool.NewPool (T:=T) 3)) as Hwf0 by (apply NewPool_wf; lia).
    destruct (Pool_AllocMany_fresh _ _ _ _ Hwf0 eq_refl Hmany)
      as (Hids & Hwf1 & Hfrees1 & Hcnt1).
    split; [done|]. simpl in Hcnt1.
    destruct (Pool_FreeAll_spec freed_ids p1 Hwf1)
      as (p2 & Hall & Hwf2 & Hcnt2 & Hfrees2).
    { intros id Hid. rewrite Hcnt1. revert id Hid. apply Forall_forall.
      unfold freed_ids. repeat (constructor; [lia|]). constructor. }
    exists p2. split; [done|].
    assert (size (Pool.frees p2) = 9%nat) as Hsize.
    { rewrite Hfrees2, Hfrees1, (right_id_L ∅ (∪)).
      rewrite size_list_to_set; [done|]. by_evaluation. }
    split.
    { destruct (Pool_Alloc_total p2 Hwf2) as (id & ref & p3 & Hcall). by eexists. }
    intros r Hcall. destruct Hcall as [k _ Hk|Hzero]; [|lia].
    destruct (Pool_reuse_spec p2 k Hwf2 Hk) as [-> _].
    eexists _, _, _. split; [done|]. split; [|split].
    + rewrite Hfrees2, Hfrees1, (right_id_L ∅ (∪)) in Hk.
      by apply elem_of_list_to_set in Hk.
    + pose proof (Pool.wf_frees _ Hwf2 k Hk) as Hrange. simpl in Hrange. lia.
    + unfold Pool.Count, ArrayList.Count. simpl.
      rewrite size_difference by (by apply singleton_subseteq_l).
      rewrite size_singleton, Hsize, Hcnt2, Hcnt1. lia.
Qed.

(** C3, as amended -- Release idempotence.  In the segmented pool a second
    [Free] of any index, directly after the first, returns and leaves the
    pool as the first left it.  So it does in the contiguous pool for an
    index below the most recent one ([0 < id < alloc - 1], the free-set
    path).  For the most recent index ([id = alloc - 1]) the first [Free]
    retracts the allocation pointer to [id], and the second one aborts with
    the invalid-free error naming [id] and the pointer [id]. *)
Theorem release_idempotent :
  (∀ (p : Pool.t T) (id : Z),
     Pool.wf p →
     ∃ p', Pool.Free id p = Ret p' ∧ Pool.Free id p' = Ret p') ∧
  (∀ (ap : ArrayPool.t T) (id : Z),
     ArrayPool.wf ap → 0 < id < ArrayPool.alloc ap - 1 →
     ∃ ap', ArrayPool.Free id ap = Ret ap' ∧ ArrayPool.Free id ap' = Ret ap') ∧
  (∀ (ap : ArrayPool.t T) (id : Z),
     ArrayPool.wf ap → 0 < id → id = ArrayPool.alloc ap - 1 →
     ∃ ap', ArrayPool.Free id ap = Ret ap' ∧
            ArrayPool.alloc ap' = id ∧
            ArrayPool.Free id ap' = Panic (FreeInvalidId id id)).
Proof.
  split; [|split].
  - intros p id Hwf.
    destruct (Pool_Free_spec p id Hwf) as (p' & Hfree & Hwf' & Hcnt & Hfrees).
    exists p'. split; [done|]. apply Pool_Free_noop.
    rewrite Hcnt, Hfrees.
    destruct (decide (0 ≤ id < ArrayList.count (Pool.items p))) as [Hin|Hout].
    + right. right. apply elem_of_union_l. by apply elem_of_singleton.
    + lia.
  - intros ap id Hwf Hid. pose proof Hwf as [Halloc Hsent].
    rewrite (ArrayPool_Free_valid ap id zero) by (done || lia).
    destruct (Z.eqb_spec id (ArrayPool.alloc ap - 1)) as [|_]; [lia|].
    eexists. split; [done|].
    rewrite (ArrayPool_Free_valid _ id zero); simpl.
    + destruct (Z.eqb_spec id (ArrayPool.alloc ap - 1)) as [|_]; [lia|].
      f_equal. f_equal.
      * unfold update. apply list_insert_id.
        apply list_lookup_insert_eq. unfold len in Halloc. lia.
      * apply leibniz_equiv. set_solver.
    + lia.
    + rewrite len_update. lia.
    + unfold update. rewrite list_lookup_insert_ne by lia. done.
  - intros ap id Hwf Hid Hlast. pose proof Hwf as [Halloc Hsent].
    rewrite (ArrayPool_Free_valid ap id zero) by (done || lia).
    destruct (Z.eqb_spec id (ArrayPool.alloc ap - 1)) as [_|]; [|lia].
    eexists. split; [done|]. simpl. split; [lia|].
    rewrite ArrayPool_Free_invalid by (simpl; lia). simpl.
    do 2 f_equal. lia.
Qed.

(** C4, as amended -- Round trip.  From a segmented pool without free
    indices, a batch of [n] calls of [Alloc] runs to its end; when all its
    indices are released, in any order, a second batch of [n] runs to its
    end and every second batch is a permutation of the first.  From a
    contiguous pool without free indices (whose batch runs to its end while
    the capacities stay in range), when the indices are released most
    recent first, a second batch runs to its end and every second batch is
    the first one, index for index. *)
Theorem round_trip_reuse :
  (∀ (p : Pool.t T) n,
     Pool.wf p → Pool.frees p = ∅ →
     (∃ ids1 p1, Pool.AllocMany n p ids1 p1) ∧
     ∀ ids1 p1 order,
       Pool.AllocMany n p ids1 p1 → order ≡ₚ ids1 →
       ∃ p2, Pool.FreeAll order p1 = Ret p2 ∧
             (∃ ids2 p3, Pool.AllocMany n p2 ids2 p3) ∧
             ∀ ids2 p3, Pool.AllocMany n p2 ids2 p3 → ids2 ≡ₚ ids1) ∧
  (∀ (ap : ArrayPool.t T) n,
     ArrayPool.wf ap → ArrayPool.free ap = ∅ →
     (len (ArrayPool.arr ap) < 2 ^ 62 →
      2 * (ArrayPool.alloc ap + Z.of_nat n) + 192 < 2 ^ 62 →
      ∃ ids1 ap1, ArrayPool.AllocMany n ap ids1 ap1) ∧
     ∀ ids1 ap1,
       ArrayPool.AllocMany n ap ids1 ap1 →
       ∃ ap2, ArrayPool.FreeAll (reverse ids1) ap1 = Ret ap2 ∧
              (∃ ids2 ap3, ArrayPool.AllocMany n ap2 ids2 ap3) ∧
              ∀ ids2 ap3, ArrayPool.AllocMany n ap2 ids2 ap3 → ids2 = ids1).
Proof.
  split.
  - intros p n Hwf Hfrees. split; [by apply Pool_AllocMany_total|].
    intros ids1 p1 order Hmany Hperm. by eapply Pool_round_trip.
  - intros ap n Hwf Hfree. split; [by apply ArrayPool_AllocMany_total|].
    intros ids1 ap1 Hmany. eapply ArrayPool_round_trip; [|done..].
    apply (ArrayPool.wf_alloc _ Hwf).
Qed.

(** C5 -- Allocation policy of the contiguous pool.  With [alloc] below the
    array's length the only outcome of [Alloc] is [alloc], with the pointer
    incremented.  Otherwise, with a non-empty free set, the outcomes are
    exactly the members of the free set, each removed from it.  Otherwise
    [grow] returns an array of length [old * 2] when [old < 256] and
    [old + (old + 3 * 256) / 4] when [old >= 256] that starts with all the
    old elements, and the outcomes of [Alloc] are those of [Alloc] on the
    grown pool, one activation deeper.  (Lengths below 2^62, where the
    capacity arithmetic stays within [int].) *)
Theorem contiguous_alloc_policy (ap : ArrayPool.t T) :
  (ArrayPool.alloc ap < len (ArrayPool.arr ap) →
   ∀ d r, ArrayPool.Alloc d ap r ↔
          d = 1%nat ∧
          r = Ret (ArrayPool.alloc ap,
                   ArrayPool.mk (ArrayPool.arr ap) (ArrayPool.alloc ap + 1)
                     (ArrayPool.free ap))) ∧
  (¬ ArrayPool.alloc ap < len (ArrayPool.arr ap) → ArrayPool.free ap ≠ ∅ →
   ∀ d r, ArrayPool.Alloc d ap r ↔
          d = 1%nat ∧
          ∃ k, k ∈ ArrayPool.free ap ∧
               r = Ret (k, ArrayPool.mk (ArrayPool.arr ap) (ArrayPool.alloc ap)
                             (ArrayPool.free ap ∖ {[k]}))) ∧
  (¬ ArrayPool.alloc ap < len (ArrayPool.arr ap) → ArrayPool.free ap = ∅ →
   len (ArrayPool.arr ap) < 2 ^ 62 →
   let old := len (ArrayPool.arr ap) in
   ∃ ap', ArrayPool.grow ap = Ret ap' ∧
          (old < 256 → len (ArrayPool.arr ap') = old * 2) ∧
          (256 ≤ old → len (ArrayPool.arr ap') = old + (old + 3 * 256) / 4) ∧
          take (length (ArrayPool.arr ap)) (ArrayPool.arr ap') = ArrayPool.arr ap ∧
          ArrayPool.alloc ap' = ArrayPool.alloc ap ∧
          ArrayPool.free ap' = ArrayPool.free ap ∧
          ∀ d r, ArrayPool.Alloc d ap r ↔
                 ∃ d', d = S d' ∧ ArrayPool.Alloc d' ap' r).
Proof.
  split; [|split].
  - intros Hroom d r. split.
    + by apply ArrayPool_Alloc_room.
    + intros [-> ->]. by constructor.
  - intros Hfull Hne d r. split.
    + intros Hcall.
      destruct Hcall as [ap Hroom|ap k _ _ Hk|ap e _ Hsize _|ap ap1 n r _ Hsize _ _].
      * done.
      * split; [done|]. by exists k.
      * by apply size_zero_empty in Hsize.
      * by apply size_zero_empty in Hsize.
    + intros [-> (k & Hk & ->)]. apply ArrayPool.Alloc_range; [done| |done].
      apply size_pos_elem. by exists k.
  - intros Hfull Hfree Hrange old. subst old.
    pose proof (len_nonneg (ArrayPool.arr ap)) as Hold.
    destruct (ArrayPool_grow_spec ap Hrange) as [Hgrow Hlen'].
    eexists. split; [done|]. simpl.
    split; [|split].
    { intros Hsmall. rewrite Hlen', nextCap_spec by lia.
      destruct (Z.ltb_spec (len (ArrayPool.arr ap)) 256); [done|lia]. }
    { intros Hlarge. rewrite Hlen', nextCap_spec by lia.
      destruct (Z.ltb_spec (len (ArrayPool.arr ap)) 256); [lia|done]. }
    split; [by rewrite take_app_length|]. split; [done|]. split; [done|].
    intros d r. split.
    + intros Hcall.
      destruct Hcall as [ap Hroom|ap k _ _ Hk|ap e _ _ Hpanic|ap ap1 n r _ _ Hret Hin].
      * done.
      * rewrite Hfree in Hk. by apply not_elem_of_empty in Hk.
      * rewrite Hgrow in Hpanic. done.
      * rewrite Hgrow in Hret. injection Hret as <-. by exists n.
    + intros (d' & -> & Hin).
      eapply ArrayPool.Alloc_retry; [done| |done|done].
      apply size_zero_empty. done.
Qed.

(** C6 -- An invalid free is fatal in the contiguous pool.  [Free] aborts
    with the error that names the index and the allocation pointer exactly
    when [id <= 0] or [id >= alloc]; for [0 < id < alloc], in a pool that
    satisfies the invariant, it returns. *)
Theorem contiguous_invalid_free_fatal (ap : ArrayPool.t T) (id : Z) :
  (ArrayPool.Free id ap = Panic (FreeInvalidId id (ArrayPool.alloc ap))
   ↔ id ≤ 0 ∨ ArrayPool.alloc ap ≤ id) ∧
  (ArrayPool.wf ap → 0 < id < ArrayPool.alloc ap →
   ∃ ap', ArrayPool.Free id ap = Ret ap').
Proof.
  split; [split|].
  - intros Hpanic.
    destruct (decide (id ≤ 0 ∨ ArrayPool.alloc ap ≤ id)) as [|Hvalid]; [done|].
    exfalso. unfold ArrayPool.Free in Hpanic.
    destruct (Z.leb_spec id 0); [lia|].
    destruct (Z.geb_spec id (ArrayPool.alloc ap)); [lia|]. simpl in Hpanic.
    destruct (index (ArrayPool.arr ap) 0) as [z|e] eqn:Hz; simpl in Hpanic.
    2: { apply index_Panic_inv in Hz. congruence. }
    destruct (index (ArrayPool.arr ap) id) as [v|e] eqn:Hv; simpl in Hpanic.
    2: { apply index_Panic_inv in Hv. congruence. }
    destruct (id =? ArrayPool.alloc ap - 1); [done|].
    by destruct (decide (id ∈ ArrayPool.free ap)).
  - apply ArrayPool_Free_invalid.
  - intros [Halloc Hsent] Hid.
    rewrite (ArrayPool_Free_valid ap id zero) by (done || lia). by eexists.
Qed.

(** C7 -- Index mapping of the segmented list.  [Get] and [GetRef] panic
    with "out of bound" whenever [idx >= count].  For [0 <= idx < count], in
    a list that satisfies the invariant, [GetRef] returns the slot at
    segment [idx >> segmentSizeShift], offset [idx & segmentSizeMask]; that
    slot exists, is one of the occupied slots of its segment, and [Get]
    returns its value.  With segment size 4, after 5 allocations index 4 is
    at segment 1 (the second one), offset 0. *)
Theorem segmented_index_mapping (al : ArrayList.t T) (idx : Z) :
  ArrayList.wf al →
  (ArrayList.count al ≤ idx →
     ArrayList.Get al idx = Panic OutOfBound ∧
     ArrayList.GetRef al idx = Panic OutOfBound) ∧
  (0 ≤ idx < ArrayList.count al →
     let p := ArrayList.Ptr (Z.shiftr idx (ArrayList.segmentSizeShift al))
                            (Z.land idx (ArrayList.segmentSizeMask al)) in
     ArrayList.GetRef al idx = Ret p ∧
     ∃ s v, ArrayList.segments al !! Z.to_nat (ArrayList.seg p) = Some s ∧
            Segment.arr s !! Z.to_nat (ArrayList.off p) = Some v ∧
            0 ≤ ArrayList.off p < Segment.count s ∧
            ArrayList.Get al idx = Ret v) ∧
  (∃ al5, ArrayList.AllocN 5 (ArrayList.NewArrayList (T:=T) 4) = Ret al5 ∧
          ArrayList.GetRef al5 4 = Ret (ArrayList.Ptr 1 0)).
Proof.
  intros Hwf. split; [|split].
  - intros Hout. split; [by apply Get_out_of_bound|by apply GetRef_out_of_bound].
  - intros Hin p. split; [by apply GetRef_in_range|].
    destruct (wf_locate al idx Hwf Hin) as (s & v & Hs & Hv & Hq & Hr & _).
    exists s, v. split; [done|]. split; [done|]. split; [done|].
    rewrite Get_in_range by done. unfold ArrayList.load. simpl.
    rewrite (index_Ret _ _ s) by (done || lia). simpl.
    apply index_Ret; [lia|done].
  - eexists. split; vm_compute; reflexivity.
Qed.

(** C8, as amended -- Shrink policy of [RemoveLast].  When [RemoveLast]
    empties the cursor segment [i] of a non-empty list, the cursor becomes
    [max 0 (i - 1)], and the list is cut to its first [i + 1] segments: the
    segment behind the drained one, at [i + 1], is given up when there is
    one, and the drained segment itself stays.  Afterwards every segment
    behind the cursor is empty and there is at most one of them, exactly
    one when the cursor moved. *)
Theorem removeLast_shrink (al : ArrayList.t T) (cur : Segment.t T) :
  ArrayList.wf al → 0 < ArrayList.count al →
  index (ArrayList.segments al) (ArrayList.segmentIdx al) = Ret cur →
  Segment.count cur = 1 →
  ∃ al', ArrayList.RemoveLast al = Ret al' ∧ ArrayList.wf al' ∧
    let i := ArrayList.segmentIdx al in
    ArrayList.count al' = ArrayList.count al - 1 ∧
    ArrayList.segmentIdx al' = Z.max 0 (i - 1) ∧
    ArrayList.segments al' =
      take (Z.to_nat (i + 1))
        (update (ArrayList.segments al) i (Segment.mk (Segment.arr cur) 0)) ∧
    len (ArrayList.segments al') = i + 1 ∧
    (∀ (j : nat) s, ArrayList.segments al' !! j = Some s →
       ArrayList.segmentIdx al' < Z.of_nat j → Segment.count s = 0) ∧
    len (ArrayList.segments al') - 1 - ArrayList.segmentIdx al' ≤ 1 ∧
    (0 < i → len (ArrayList.segments al') - 1 - ArrayList.segmentIdx al' = 1).
Proof.
  intros Hwf Hcount Hcur Hone.
  apply index_Ret_inv in Hcur as [Hi Hcur].
  destruct (RemoveLast_cases al Hwf Hcount) as (cur' & Hcur' & _ & Hrm).
  assert (cur' = cur) as -> by congruence.
  destruct (RemoveLast_spec al Hwf Hcount) as (al' & Hrm' & Hwf' & Hcnt').
  exists al'. split; [done|]. split; [done|]. intros i.
  rewrite Hrm in Hrm'. rewrite Hone in Hrm'. simpl in Hrm'.
  assert (len (ArrayList.segments al) ≠ 0) as Hne by lia.
  pose proof (ArrayList.wf_len _ Hwf Hne) as Hlen. fold i in Hlen, Hi.
  assert (ArrayList.segments al' =
            take (Z.to_nat (i + 1))
              (update (ArrayList.segments al) i (Segment.mk (Segment.arr cur) 0)) ∧
          ArrayList.segmentIdx al' = Z.max 0 (i - 1)) as [Hsegs Hidx].
  { fold i in Hrm'.
    destruct (Z.eqb_spec (len (ArrayList.segments al) - 1) i) as [Hlast|Hspare];
      injection Hrm' as <-.
    - destruct (Z.gtb_spec i 0); simpl; (split; [|lia]);
        rewrite take_ge; try done;
        unfold update, len in *; rewrite length_insert; lia.
    - destruct (Z.gtb_spec i 0); simpl; (split; [|lia]);
        unfold update at 1; by rewrite take_insert_ge by lia. }
  assert (len (ArrayList.segments al') = i + 1) as Hlen'.
  { rewrite Hsegs. unfold len, update in *. rewrite length_take, length_insert. lia. }
  split; [done|]. split; [done|]. split; [done|]. split; [done|].
  split; [|lia].
  intros j s Hs Hj.
  destruct (wf_segments_lookup _ _ _ _ _ (ArrayList.wf_segs _ Hwf') Hs) as [_ ->].
  pose proof (ArrayList.wf_count _ Hwf') as Hc.
  pose proof (wf_size_pos _ Hwf'). nia.
Qed.

(** C10 -- Termination of the contiguous [Alloc].  Below 2^62,
    [nextCap c > c] for every [c >= 1].  For a pool that satisfies the
    invariant and whose array is in that range: [grow] returns a strictly
    longer array, in which [alloc] is below the length; [Alloc] has an
    outcome; and every outcome is reached within two nested activations and
    is a returned index with a pool that satisfies the invariant. *)
Theorem contiguous_alloc_terminates (ap : ArrayPool.t T) :
  ArrayPool.wf ap → len (ArrayPool.arr ap) < 2 ^ 62 →
  (∀ c, 1 ≤ c < 2 ^ 62 → c < ArrayPool.nextCap c) ∧
  (∃ ap1, ArrayPool.grow ap = Ret ap1 ∧
          len (ArrayPool.arr ap) < len (ArrayPool.arr ap1) ∧
          ArrayPool.alloc ap1 < len (ArrayPool.arr ap1)) ∧
  (∃ d id ap', ArrayPool.Alloc d ap (Ret (id, ap'))) ∧
  (∀ d r, ArrayPool.Alloc d ap r →
          (d ≤ 2)%nat ∧ ∃ id ap', r = Ret (id, ap') ∧ ArrayPool.wf ap').
Proof.
  intros Hwf Hlen. pose proof Hwf as [Halloc Hsent].
  assert (1 ≤ len (ArrayPool.arr ap) < 2 ^ 62) as Hrange by lia.
  split; [|split; [|split]].
  - intros c Hc. apply nextCap_grows. done.
  - destruct (ArrayPool_grow_spec ap Hlen) as [Hgrow Hlen'].
    eexists. split; [done|]. simpl.
    pose proof (nextCap_grows _ Hrange). lia.
  - by apply ArrayPool_Alloc_total.
  - intros d r Hcall.
    assert (∃ id ap', r = Ret (id, ap')) as (id & ap' & ->).
    { destruct (ArrayPool_Alloc_inv _ _ _ Hwf Hlen Hcall)
        as [(_ & _ & ->)|[(_ & _ & k & _ & ->)|(_ & _ & _ & ->)]]; by eexists _, _. }
    split.
    + destruct (ArrayPool_Alloc_inv _ _ _ Hwf Hlen Hcall)
        as [(_ & -> & _)|[(_ & -> & _)|(_ & _ & -> & _)]]; lia.
    + exists id, ap'. split; [done|].
      by destruct (ArrayPool_Alloc_wf _ _ _ _ Hwf Hlen Hcall) as [? _].
Qed.

End Properties.

(** C9 -- Power-of-two rounding beyond 32 bits.  On a 64-bit [uint] the
    smear of [NearestPowerOf2] stops at [n >> 16]: for [n = 2^32 + 1] it
    returns [2^33 - 1], which is no power of two, and [NewArrayList] takes
    it as segment size, with mask [2^33 - 2] and shift 0.  (Up to 2^32 the
    function rounds up: [NearestPowerOf2_spec].) *)
Theorem NearestPowerOf2_beyond_32_bits :
  ArrayList.NearestPowerOf2 (2 ^ 32 + 1) = 2 ^ 33 - 1 ∧
  ¬ is_pow2 (2 ^ 33 - 1) ∧
  ¬ round_up_pow2 (2 ^ 32 + 1) (ArrayList.NearestPowerOf2 (2 ^ 32 + 1)) ∧
  round_up_pow2 (2 ^ 32 + 1) (2 ^ 33) ∧
  ArrayList.segmentSize (ArrayList.NewArrayList (T:=Z) (2 ^ 32 + 1)) = 2 ^ 33 - 1 ∧
  ArrayList.segmentSizeMask (ArrayList.NewArrayList (T:=Z) (2 ^ 32 + 1)) = 2 ^ 33 - 2 ∧
  ArrayList.segmentSizeShift (ArrayList.NewArrayList (T:=Z) (2 ^ 32 + 1)) = 0.
Proof.
  assert (¬ is_pow2 (2 ^ 33 - 1)) as Hnot.
  { intros (k & Hk & Heq).
    destruct (decide (k = 0)) as [->|Hne]; [done|].
    replace k with (Z.succ (k - 1)) in Heq by lia.
    rewrite Z.pow_succ_r in Heq by lia.
    change (2 ^ 33 - 1) with (2 * (2 ^ 32 - 1) + 1) in Heq. lia. }
  split; [by vm_compute|]. split; [done|].
  split; [intros [Hpow _]; by vm_compute in Hpow|].
  split; [|by vm_compute].
  split; [by exists 33|]. split; [lia|].
  intros m (k & Hk & ->) Hle. apply Z.pow_le_mono_r; [lia|].
  assert (32 < k); [|lia]. apply pow2_le_mono_inv; lia.
Qed.

(** * Further properties of the code *)

Section ListProperties.
Context {T : Type} `{Zero T}.

(** X1 -- [Add] appends.  On a list that satisfies the invariant, [Add v]
    returns; the list has one element more; the new element is at the old
    count, where [Get] reads [v] and [GetRef] yields the pointer [Add]
    returned; and every element that was in the list reads as before. *)
Theorem list_Add_appends (al : ArrayList.t T) (v : T) :
  ArrayList.wf al →
  ∃ p al', ArrayList.Add v al = Ret (p, al') ∧ ArrayList.wf al' ∧
    ArrayList.Count al' = ArrayList.Count al + 1 ∧
    ArrayList.GetRef al' (ArrayList.Count al) = Ret p ∧
    ArrayList.Get al' (ArrayList.Count al) = Ret v ∧
    ∀ idx, 0 ≤ idx < ArrayList.Count al →
           ArrayList.Get al' idx = ArrayList.Get al idx.
Proof.
  intros Hwf. pose proof (wf_count_nonneg _ Hwf) as Hc.
  destruct (Add_spec al v Hwf)
    as (p & al' & Hadd & Hwf' & (_ & _ & Hmask & Hshift) & Hcnt & Hp & Hget & Hold).
  exists p, al'. unfold ArrayList.Count. split; [done|]. split; [done|].
  split; [done|]. split; [|done].
  rewrite GetRef_in_range by (done || lia). by rewrite Hshift, Hmask, Hp.
Qed.

(** X2 -- [RemoveLast] drops the last element.  On an empty list it does
    nothing.  On a non-empty list that satisfies the invariant it returns,
    the count goes down by one, the elements before the last read as
    before, and the index of the last element is out of bound. *)
Theorem list_RemoveLast_truncates (al : ArrayList.t T) :
  ArrayList.wf al →
  (ArrayList.Count al ≤ 0 → ArrayList.RemoveLast al = Ret al) ∧
  (0 < ArrayList.Count al →
   ∃ al', ArrayList.RemoveLast al = Ret al' ∧ ArrayList.wf al' ∧
     ArrayList.Count al' = ArrayList.Count al - 1 ∧
     (∀ idx, 0 ≤ idx < ArrayList.Count al - 1 →
             ArrayList.Get al' idx = ArrayList.Get al idx) ∧
     ArrayList.Get al' (ArrayList.Count al - 1) = Panic OutOfBound).
Proof.
  intros Hwf. unfold ArrayList.Count. split.
  - intros Hempty. unfold ArrayList.RemoveLast.
    destruct (Z.leb_spec (ArrayList.count al) 0); [done|lia].
  - intros Hpos.
    destruct (RemoveLast_spec al Hwf Hpos) as (al' & Hrm & Hwf' & Hcnt).
    exists al'. split; [done|]. split; [done|]. split; [done|]. split.
    + intros idx Hidx. by apply RemoveLast_Get.
    + apply Get_out_of_bound. lia.
Qed.

(** X3 -- [Alloc] does not clear the slot it hands out.  On a non-empty
    list that satisfies the invariant, [RemoveLast] followed by [Alloc]
    returns the pointer to the slot of the element just removed, and the
    list reads at every index as it did before the two calls: the removed
    value is back at the last index. *)
Theorem list_RemoveLast_Alloc_restores (al : ArrayList.t T) :
  ArrayList.wf al → 0 < ArrayList.Count al →
  ∃ al1 p al2, ArrayList.RemoveLast al = Ret al1 ∧
    ArrayList.Alloc al1 = Ret (p, al2) ∧
    ArrayList.GetRef al (ArrayList.Count al - 1) = Ret p ∧
    ArrayList.Count al2 = ArrayList.Count al ∧
    ∀ idx, ArrayList.Get al2 idx = ArrayList.Get al idx.
Proof.
  unfold ArrayList.Count. intros Hwf Hpos.
  destruct (RemoveLast_spec al Hwf Hpos) as (al1 & Hrm & Hwf1 & Hcnt1).
  destruct (RemoveLast_geometry _ _ Hrm) as (_ & _ & Hmask1 & Hshift1).
  destruct (RemoveLast_arrs _ _ Hwf Hpos Hrm) as (n & Htake & Hn).
  destruct (Alloc_spec al1 Hwf1)
    as (al2 & Halloc & Hwf2 & Hcnt2 & _ & _ & Hshift2 & Hmask2).
  destruct (Alloc_arrs _ _ _ Halloc) as (_ & ext & Hext & _).
  eexists al1, _, al2. split; [done|]. split; [done|].
  split. { rewrite GetRef_in_range by (done || lia).
           by rewrite Hcnt1, Hshift1, Hmask1. }
  split; [lia|]. intros idx.
  destruct (decide (idx < 0)) as [Hneg|Hnn].
  { destruct (Get_negative al idx Hwf Hneg) as [-> _].
    by destruct (Get_negative al2 idx Hwf2 Hneg) as [-> _]. }
  destruct (decide (idx < ArrayList.count al)) as [Hin|Hout].
  2: { rewrite !Get_out_of_bound by lia. done. }
  destruct (Get_load al idx Hwf) as (v & -> & Hload & Hseg & _); [lia|].
  rewrite Get_in_range by (done || lia).
  rewrite Hshift2, Hmask2, Hshift1, Hmask1.
  eapply load_extend; [done|].
  rewrite (load_take al al1 n); [done|done|simpl in *; lia].
Qed.

(** X4 -- [FastRemoveAt] moves the last element into the removed place.
    For an index of a list that satisfies the invariant it returns, the
    count goes down by one, the removed index reads the value that was
    last (unless it was the last index itself), and every other remaining
    index reads as before.  The slot given up is reset: [Alloc] directly
    afterwards hands out a slot that reads the default value. *)
Theorem list_FastRemoveAt_swaps (al : ArrayList.t T) (idx : Z) :
  ArrayList.wf al → 0 ≤ idx < ArrayList.Count al →
  ∃ al', ArrayList.FastRemoveAt al idx = Ret al' ∧ ArrayList.wf al' ∧
    ArrayList.Count al' = ArrayList.Count al - 1 ∧
    (∀ j, 0 ≤ j < ArrayList.Count al - 1 →
          ArrayList.Get al' j =
            if decide (j = idx) then ArrayList.Get al (ArrayList.Count al - 1)
            else ArrayList.Get al j) ∧
    ∃ p al'', ArrayList.Alloc al' = Ret (p, al'') ∧
              ArrayList.Get al'' (ArrayList.Count al - 1) =
                Ret (ArrayList.defaultValue al).
Proof.
  unfold ArrayList.Count. intros Hwf Hidx.
  destruct (FastRemoveAt_spec al idx Hwf Hidx)
    as (al' & Hrm & Hwf' & Hcnt & (_ & _ & Hmask & Hshift) & Hget & Hreset).
  exists al'. split; [done|]. split; [done|]. split; [done|]. split; [done|].
  destruct (Alloc_spec al' Hwf')
    as (al'' & Halloc & Hwf'' & Hcnt'' & _ & _ & Hshift'' & Hmask'').
  destruct (Alloc_arrs _ _ _ Halloc) as (_ & ext & Hext & _).
  eexists _, al''. split; [done|].
  rewrite Get_in_range by (done || lia).
  rewrite Hshift'', Hmask'', Hshift, Hmask.
  by eapply load_extend.
Qed.

(** X5 -- Indices outside the list.  In a list that satisfies the
    invariant a negative index passes the bound check of [Get] and
    [GetRef] and fails in the run-time check of the slice access.
    [FastRemoveAt] on an empty list fails in that run-time check, whatever
    the index; on a non-empty list it panics with "out of bound" for an
    index from the count on, and fails in the run-time check for a
    negative one. *)
Theorem list_index_errors (al : ArrayList.t T) (idx : Z) :
  ArrayList.wf al →
  (idx < 0 → ArrayList.Get al idx = Panic IndexOutOfRange ∧
             ArrayList.GetRef al idx = Panic IndexOutOfRange) ∧
  (ArrayList.Count al = 0 →
     ArrayList.FastRemoveAt al idx = Panic IndexOutOfRange) ∧
  (0 < ArrayList.Count al → ArrayList.Count al ≤ idx →
     ArrayList.FastRemoveAt al idx = Panic OutOfBound) ∧
  (0 < ArrayList.Count al → idx < 0 →
     ArrayList.FastRemoveAt al idx = Panic IndexOutOfRange).
Proof.
  unfold ArrayList.Count. intros Hwf. split; [by apply Get_negative|].
  unfold ArrayList.FastRemoveAt. split; [|split].
  - intros Hempty. rewrite Hempty.
    by destruct (Get_negative al (0 - 1) Hwf) as [_ ->].
  - intros Hpos Hout.
    rewrite (GetRef_in_range al (ArrayList.count al - 1)) by (done || lia).
    simpl. by rewrite GetRef_out_of_bound.
  - intros Hpos Hneg.
    rewrite (GetRef_in_range al (ArrayList.count al - 1)) by (done || lia).
    simpl. by destruct (Get_negative al idx Hwf Hneg) as [_ ->].
Qed.

(** X6 -- [Clear] returns a list to its initial state.  No operation
    changes the default value, the segment size, the mask or the shift, so
    [Clear] of any list reached from [NewArrayList n] is the list
    [NewArrayList n] again. *)
Theorem list_Clear_resets (n : Z) (al : ArrayList.t T) :
  ArrayList.reaches (ArrayList.NewArrayList n) al →
  ArrayList.Clear al = ArrayList.NewArrayList n.
Proof.
  intros Hreach. destruct (reaches_geometry _ _ Hreach) as (Hd & Hs & Hm & Hsh).
  unfold ArrayList.Clear. rewrite Hd, Hs, Hm, Hsh. done.
Qed.

(** X7 -- The geometry of a new list.  For a segment size up to 2^32
    (and the default 128 in place of a size that is not positive) the
    segment size of [NewArrayList] is the smallest power of two that is at
    least the requested size, the mask is the size minus one, the size is
    two to the shift, and the list is empty and satisfies the invariant. *)
Theorem NewArrayList_geometry (n : Z) :
  n ≤ 2 ^ 32 →
  let al := ArrayList.NewArrayList (T:=T) n in
  round_up_pow2 (if decide (0 < n) then n else ArrayList.DefaultSegmentSize)
    (ArrayList.segmentSize al) ∧
  ArrayList.segmentSizeMask al = ArrayList.segmentSize al - 1 ∧
  ArrayList.segmentSize al = 2 ^ ArrayList.segmentSizeShift al ∧
  0 ≤ ArrayList.segmentSizeShift al ≤ 32 ∧
  ArrayList.Count al = 0 ∧ ArrayList.segments al = [] ∧ ArrayList.wf al.
Proof.
  intros Hn al.
  assert (∃ m, 0 < m ≤ 2 ^ 32 ∧ al = ArrayList.NewArrayList m ∧
               m = if decide (0 < n) then n else ArrayList.DefaultSegmentSize)
    as (m & Hm & Heq & Hmn).
  { destruct (decide (0 < n)) as [Hpos|Hneg].
    - exists n. done.
    - exists 128. split; [lia|]. split; [|done].
      subst al. apply NewArrayList_default. lia. }
  rewrite <- Hmn, Heq.
  destruct (NewArrayList_wf (T:=T) m Hm) as [Hwf Hround].
  split; [done|]. split; [apply Hwf|]. split; [apply Hwf|].
  split; [|done].
  split; [apply Hwf|].
  destruct Hround as (_ & _ & Hmin).
  assert (ArrayList.segmentSize (ArrayList.NewArrayList (T:=T) m) ≤ 2 ^ 32) as Hle
    by (apply Hmin; [by exists 32|lia]).
  rewrite (ArrayList.wf_size _ Hwf) in Hle.
  pose proof (ArrayList.wf_shift _ Hwf) as H0.
  destruct (decide (ArrayList.segmentSizeShift (ArrayList.NewArrayList (T:=T) m) ≤ 32))
    as [|Hgt]; [done|].
  assert (2 ^ 33 ≤ 2 ^ ArrayList.segmentSizeShift (ArrayList.NewArrayList (T:=T) m))
    by (apply Z.pow_le_mono_r; lia). lia.
Qed.

End ListProperties.

(** X8 -- Rounding within 32 bits.  For [0 < n <= 2^32], [NearestPowerOf2]
    returns the smallest power of two that is at least [n]; the result is
    below [2 * n], and a power of two is returned as it is.  Zero wraps
    around to zero. *)
Theorem NearestPowerOf2_within_32_bits :
  (∀ n, 0 < n ≤ 2 ^ 32 →
     round_up_pow2 n (ArrayList.NearestPowerOf2 n) ∧
     ArrayList.NearestPowerOf2 n < 2 * n ∧
     (is_pow2 n → ArrayList.NearestPowerOf2 n = n)) ∧
  ArrayList.NearestPowerOf2 0 = 0.
Proof.
  split; [|by vm_compute].
  intros n Hn. pose proof (NearestPowerOf2_spec n Hn) as Hr.
  split; [done|]. destruct Hr as ((k & Hk & Heq) & Hle & Hmin).
  split.
  - rewrite Heq. destruct (decide (k = 0)) as [->|Hne]; [simpl; lia|].
    destruct (decide (n ≤ 2 ^ (k - 1))) as [Hsmall|Hbig].
    + assert (ArrayList.NearestPowerOf2 n ≤ 2 ^ (k - 1)) as Hb
        by (apply Hmin; [exists (k - 1); lia|done]).
      rewrite Heq in Hb.
      assert (2 ^ (k - 1) < 2 ^ k) by (apply Z.pow_lt_mono_r; lia). lia.
    + replace k with (Z.succ (k - 1)) by lia.
      rewrite Z.pow_succ_r by lia. lia.
  - intros Hpow. specialize (Hmin n Hpow). lia.
Qed.

Section ListAllocProperties.
Context {T : Type} `{Zero T}.

(** X24 -- [Alloc] claims the next slot and reuses the spare segment.  On
    a list that satisfies the invariant [Alloc] returns the pointer to the
    slot of the next index, the count goes up by one and the elements read
    as before.  The list gets a new segment exactly when every slot of
    every segment was taken; otherwise the number of segments stays, so a
    spare segment is used before a new one is made. *)
Theorem list_Alloc_reuses_spare (al : ArrayList.t T) :
  ArrayList.wf al →
  ∃ p al', ArrayList.Alloc al = Ret (p, al') ∧ ArrayList.wf al' ∧
    ArrayList.Count al' = ArrayList.Count al + 1 ∧
    ArrayList.GetRef al' (ArrayList.Count al) = Ret p ∧
    (∀ idx, 0 ≤ idx < ArrayList.Count al →
            ArrayList.Get al' idx = ArrayList.Get al idx) ∧
    len (ArrayList.segments al') =
      if decide (ArrayList.Count al =
                 len (ArrayList.segments al) * ArrayList.segmentSize al)
      then len (ArrayList.segments al) + 1 else len (ArrayList.segments al).
Proof.
  intros Hwf. pose proof (wf_count_nonneg _ Hwf) as Hc.
  destruct (Alloc_spec al Hwf)
    as (al' & Halloc & Hwf' & Hcnt & _ & _ & Hshift & Hmask).
  eexists _, al'. unfold ArrayList.Count. split; [done|]. split; [done|].
  split; [done|]. split; [|split].
  - rewrite GetRef_in_range by (done || lia). by rewrite Hshift, Hmask.
  - intros idx Hidx. by eapply Alloc_Get.
  - by eapply Alloc_len.
Qed.

End ListAllocProperties.

Section PoolProperties.
Context {T : Type} `{Zero T}.

(** X9 -- [Count] is the number of live indices.  In a pool that satisfies
    the invariant, [Count] is the size of the set of the indices of the
    list that are not free; it is never negative and never above the
    list's count. *)
Theorem pool_Count_counts_live (p : Pool.t T) :
  Pool.wf p →
  Pool.Count p = Z.of_nat (size (Pool.live_set p)) ∧
  (∀ id, id ∈ Pool.live_set p ↔ Pool.live p id) ∧
  0 ≤ Pool.Count p ≤ ArrayList.Count (Pool.items p).
Proof.
  intros Hwf. destruct (Pool_Count_spec p Hwf) as [Hcount Hrange].
  split; [done|]. split; [|done]. intros id. apply live_set_spec.
Qed.

(** X10 -- [Alloc] hands out an index that is not in use.  For every
    outcome of [Alloc] on a pool that satisfies the invariant: the index
    was not live before the call and is live after it; no other index
    changes between live and not live; [Count] goes up by one; the pointer
    returned is the one [GetRef] gives for the index; and every index of
    the list reads as before. *)
Theorem pool_Alloc_hands_out_unused (p : Pool.t T) id r p' :
  Pool.wf p → Pool.Alloc p (Ret (id, r, p')) →
  ¬ Pool.live p id ∧ Pool.live p' id ∧
  (∀ j, j ≠ id → (Pool.live p' j ↔ Pool.live p j)) ∧
  Pool.Count p' = Pool.Count p + 1 ∧
  ArrayList.GetRef (Pool.items p') id = Ret r ∧
  (∀ j, 0 ≤ j < ArrayList.Count (Pool.items p) →
        ArrayList.Get (Pool.items p') j = ArrayList.Get (Pool.items p) j).
Proof.
  intros Hwf Hcall. pose proof (wf_count_nonneg _ (Pool.wf_items _ Hwf)) as Hc.
  destruct (Pool_Alloc_cases _ _ _ _ Hwf Hcall)
    as (Hwf' & [(Hin & Hr & ->)|(Hempty & -> & al & Ha & ->)]).
  - pose proof (Pool.wf_frees _ Hwf id Hin) as Hid. simpl in Hid.
    unfold Pool.live, Pool.Count, ArrayList.Count. cbn [Pool.frees Pool.items].
    split; [by intros [_ ?]|]. split; [split; [done|set_solver]|].
    split; [intros j Hne; split; intros [? ?]; (split; [done|set_solver])|].
    split; [|done].
    rewrite size_difference by (by apply singleton_subseteq_l).
    rewrite size_singleton.
    assert (0 < size (Pool.frees p))%nat; [|lia].
    apply size_pos_elem. by exists id.
  - destruct (Alloc_spec _ (Pool.wf_items _ Hwf))
      as (al' & Heq & Hwfal & Hcnt & _ & _ & Hshift & Hmask).
    rewrite Ha in Heq. injection Heq as Hr <-.
    unfold Pool.live, Pool.Count, ArrayList.Count. cbn [Pool.frees Pool.items]. rewrite Hempty, Hcnt.
    split; [intros [? _]; lia|]. split; [split; [lia|set_solver]|].
    split; [intros j Hne; split; intros [? ?]; (split; [lia|set_solver])|].
    split; [rewrite size_empty; lia|]. split.
    + rewrite GetRef_in_range by (done || lia). by rewrite Hshift, Hmask, Hr.
    + intros j Hj. by eapply Alloc_Get; [apply Hwf|..].
Qed.

(** X11 -- [Free] releases exactly the index it is given.  In a pool that
    satisfies the invariant, [Free] of an index that is not live changes
    nothing.  [Free] of a live index returns; the index is no longer live
    and no other index changes between live and not live; [Count] goes
    down by one; and every other index reads as before. *)
Theorem pool_Free_releases (p : Pool.t T) (id : Z) :
  Pool.wf p →
  (¬ Pool.live p id → Pool.Free id p = Ret p) ∧
  (Pool.live p id →
   ∃ p', Pool.Free id p = Ret p' ∧ Pool.wf p' ∧
     ¬ Pool.live p' id ∧
     (∀ j, j ≠ id → (Pool.live p' j ↔ Pool.live p j)) ∧
     Pool.Count p' = Pool.Count p - 1 ∧
     (∀ j, j ≠ id →
           ArrayList.Get (Pool.items p') j = ArrayList.Get (Pool.items p) j)).
Proof.
  intros Hwf. split.
  - intros Hdead. apply Pool_Free_noop.
    unfold Pool.live, ArrayList.Count in Hdead.
    destruct (decide (id ∈ Pool.frees p)); [by auto|].
    assert (¬ 0 ≤ id < ArrayList.count (Pool.items p)) by tauto. lia.
  - intros Hlive.
    destruct (Pool_Free_store p id Hwf Hlive) as (al & Hstore & Hfree & Hwf' & Hcnt & _).
    destruct Hlive as [Hid Hlive].
    eexists. split; [done|]. split; [done|].
    unfold Pool.live, Pool.Count, ArrayList.Count. cbn [Pool.frees Pool.items]. rewrite Hcnt.
    split; [intros [_ ?]; set_solver|].
    split; [intros j Hne; split; intros [? ?]; (split; [done|set_solver])|].
    split.
    + rewrite size_union by set_solver. rewrite size_singleton. lia.
    + intros j Hne. by eapply store_Get_other; [apply Hwf|..].
Qed.

(** X12 -- [Clear] empties the pool.  After [Clear] of a pool that
    satisfies the invariant, the invariant holds, [Count] is 0 and no
    index is live; [Alloc] has an outcome, and every outcome hands out
    index 0. *)
Theorem pool_Clear_restarts (p : Pool.t T) :
  Pool.wf p →
  Pool.wf (Pool.Clear p) ∧ Pool.Count (Pool.Clear p) = 0 ∧
  (∀ id, ¬ Pool.live (Pool.Clear p) id) ∧
  (∃ r, Pool.Alloc (Pool.Clear p) r) ∧
  (∀ r, Pool.Alloc (Pool.Clear p) r →
        ∃ ref p', r = Ret (0, ref, p') ∧ Pool.Count p' = 1 ∧ Pool.live p' 0).
Proof.
  intros Hwf. pose proof (Pool_Clear_wf p Hwf) as Hwf'.
  split; [done|]. split; [done|].
  split; [intros id [Hid _]; simpl in Hid; lia|].
  split.
  { destruct (Pool_Alloc_total _ Hwf') as (id & ref & p' & Hcall). by eexists. }
  intros r Hcall.
  assert (∃ id ref p', r = Ret (id, ref, p')) as (id & ref & p' & ->).
  { destruct Hcall as [k _ Hk|_]; [by apply not_elem_of_empty in Hk|].
    destruct (Pool_extend_spec _ Hwf') as (al & -> & _). by eexists _, _, _. }
  destruct (Pool_Alloc_cases _ _ _ _ Hwf' Hcall)
    as (_ & [(Hin & _)|(_ & -> & al & Ha & ->)]);
    [by apply not_elem_of_empty in Hin|].
  destruct (Alloc_spec _ (Pool.wf_items _ Hwf')) as (al' & Heq & _ & Hcnt & _).
  rewrite Ha in Heq. injection Heq as _ <-.
  eexists _, _. split; [done|].
  unfold Pool.Count, Pool.live, ArrayList.Count. cbn [Pool.frees Pool.items].
  rewrite Hcnt. cbn [Pool.Clear Pool.items ArrayList.Clear ArrayList.count].
  split; [by rewrite size_empty|]. split; [lia|set_solver].
Qed.

(** X13 -- [Alloc] hands out zeroed slots.  In every pool of a caller that
    writes only to the slots of live indices, the slots that are not live
    hold the zero value, and so the slot that [Alloc] hands out reads the
    zero value, through the pointer and through the index. *)
Theorem pool_Alloc_zero_slot (p : Pool.t T) id r p' :
  Pool.used p → Pool.Alloc p (Ret (id, r, p')) →
  Pool.clean p ∧ Pool.clean p' ∧
  ArrayList.load (Pool.items p') r = Ret zero ∧
  ArrayList.Get (Pool.items p') id = Ret zero.
Proof.
  intros Hused Hcall.
  pose proof (Pool_reachable_wf _ (Pool_used_reachable _ Hused)) as Hwf.
  pose proof (Pool_used_clean _ Hused) as Hclean.
  split; [done|].
  split; [apply Pool_used_clean; by econstructor|].
  destruct (Pool_Alloc_cases _ _ _ _ Hwf Hcall)
    as (Hwf' & [(Hin & Hr & ->)|(Hempty & -> & al & Ha & ->)]); simpl.
  - pose proof (Pool.clean_frees _ Hclean id Hin) as Hget.
    split; [|done].
    pose proof (Pool.wf_frees _ Hwf id Hin) as Hid. simpl in Hid.
    rewrite GetRef_in_range in Hr by (done || apply Hwf). injection Hr as <-.
    by rewrite <- Get_in_range by (done || apply Hwf).
  - by destruct (Alloc_fresh_tail _ _ _ (Pool.wf_items _ Hwf)
                   (Pool.clean_tail _ Hclean) Ha) as (_ & ? & ?).
Qed.

End PoolProperties.

Section ArrayPoolProperties.
Context {T : Type} `{Zero T}.

(** X14 -- The contiguous [Alloc] hands out an index that is not in use.
    In a pool that satisfies the invariant and whose free indices lie
    between the sentinel and the allocation pointer, for every outcome of
    [Alloc]: the index is at least 1 and within the array, so the sentinel
    is never handed out; it was not live before the call and is live after
    it; no other index changes between live and not live; and the free
    indices still lie between the sentinel and the allocation pointer. *)
Theorem apool_Alloc_hands_out_unused (ap : ArrayPool.t T) d id ap' :
  ArrayPool.wf ap → ArrayPool.free_bounded ap →
  ArrayPool.Alloc d ap (Ret (id, ap')) →
  1 ≤ id < len (ArrayPool.arr ap') ∧
  ¬ ArrayPool.live ap id ∧ ArrayPool.live ap' id ∧
  (∀ j, j ≠ id → (ArrayPool.live ap' j ↔ ArrayPool.live ap j)) ∧
  ArrayPool.wf ap' ∧ ArrayPool.free_bounded ap'.
Proof.
  intros Hwf Hbound Hcall. pose proof Hwf as [Halloc _].
  pose proof (ArrayPool_Alloc_preserves_wf _ _ _ _ Hwf Hcall) as Hwf'.
  assert (ArrayPool.free_bounded ap') as Hbound'.
  { destruct (ArrayPool_Alloc_cases _ _ _ _ Hwf Hcall)
      as [(_ & Ha & Hf & _)|(_ & _ & ->)].
    - intros k Hk. rewrite Hf in Hk. specialize (Hbound k Hk). simpl in *. lia.
    - intros k Hk. simpl in Hk. apply elem_of_difference in Hk as [Hk _].
      by apply Hbound. }
  unfold ArrayPool.live.
  destruct (ArrayPool_Alloc_cases _ _ _ _ Hwf Hcall)
    as [(-> & Ha & Hf & Hlen & _)|(Hin & Hfull & ->)].
  - rewrite Ha, Hf.
    assert (ArrayPool.alloc ap ∉ ArrayPool.free ap) as Hout.
    { intros Hk. specialize (Hbound _ Hk). simpl in Hbound. lia. }
    split; [lia|]. split; [intros [? _]; lia|]. split; [split; [lia|done]|].
    split; [|done]. intros j Hne. split; intros [? ?]; (split; [lia|done]).
  - pose proof (Hbound id Hin) as Hid. simpl in *.
    split; [lia|]. split; [by intros [_ ?]|].
    split; [split; [done|set_solver]|]. split; [|done].
    intros j Hne. split; intros [? ?]; (split; [done|set_solver]).
Qed.

(** X15 -- The contiguous [Free] releases exactly the index it is given.
    In a pool that satisfies the invariant and whose free indices lie
    between the sentinel and the allocation pointer, [Free] of a live
    index returns on either path; the index is no longer live and no other
    index changes between live and not live; the index reads the zero
    value and every other index reads as before. *)
Theorem apool_Free_releases (ap : ArrayPool.t T) (id : Z) :
  ArrayPool.wf ap → ArrayPool.free_bounded ap → ArrayPool.live ap id →
  ∃ ap', ArrayPool.Free id ap = Ret ap' ∧
    ArrayPool.wf ap' ∧ ArrayPool.free_bounded ap' ∧
    ¬ ArrayPool.live ap' id ∧
    (∀ j, j ≠ id → (ArrayPool.live ap' j ↔ ArrayPool.live ap j)) ∧
    ArrayPool.Get ap' id = Ret zero ∧
    (∀ j, j ≠ id → ArrayPool.Get ap' j = ArrayPool.Get ap j).
Proof.
  intros Hwf Hbound Hlive.
  destruct (ArrayPool_Free_live ap id Hwf Hbound Hlive)
    as (ap' & Hfree & Hwf' & Hbound' & Harr & Hdead & Hothers & _).
  exists ap'. split; [done|]. split; [done|]. split; [done|].
  split; [done|]. split; [done|].
  destruct Hlive as [Hid _]. pose proof Hwf as [Halloc _].
  unfold ArrayPool.Get. rewrite Harr. split.
  - apply index_update_eq. lia.
  - intros j Hne. apply index_update_ne; [lia|done].
Qed.

(** X16 -- A second release after the pointer has stepped back.  When an
    index is in the free set and has become the most recent one
    ([alloc - 1]), [Free] of it passes the check, moves the allocation
    pointer back onto it and leaves it in the free set.  The next [Alloc]
    hands the index out by moving the pointer on; the calls that fill the
    array hand out other indices; and then [Alloc] can hand the same index
    out again from the free set, with no [Free] in between. *)
Theorem apool_second_free_hands_out_twice (ap : ArrayPool.t T) (id : Z) :
  ArrayPool.wf ap → 0 < id → id = ArrayPool.alloc ap - 1 →
  id ∈ ArrayPool.free ap →
  ∃ ap1 ap2 ids ap3 ap4,
    ArrayPool.Free id ap = Ret ap1 ∧
    ArrayPool.Alloc 1 ap1 (Ret (id, ap2)) ∧
    ArrayPool.AllocMany
      (Z.to_nat (len (ArrayPool.arr ap) - ArrayPool.alloc ap)) ap2 ids ap3 ∧
    (id ∉ ids) ∧
    ArrayPool.Alloc 1 ap3 (Ret (id, ap4)).
Proof.
  intros Hwf Hid Hlast Hin. pose proof Hwf as [Halloc Hsent].
  pose proof (ArrayPool_Free_valid ap id zero ltac:(lia) ltac:(lia) Hsent) as Hfree.
  destruct (Z.eqb_spec id (ArrayPool.alloc ap - 1)) as [_|]; [|lia].
  set (arr1 := update (ArrayPool.arr ap) id zero) in *.
  assert (len arr1 = len (ArrayPool.arr ap)) as Hlen1 by apply len_update.
  set (n := Z.to_nat (len (ArrayPool.arr ap) - ArrayPool.alloc ap)).
  set (ap2 := ArrayPool.mk arr1 (ArrayPool.alloc ap - 1 + 1) (ArrayPool.free ap)).
  assert (ArrayPool.alloc ap2 + Z.of_nat n ≤ len (ArrayPool.arr ap2)) as Hroom
    by (subst ap2 n; simpl; lia).
  destruct (ArrayPool_AllocMany_room_total n ap2 Hroom) as (ids & ap3 & Hmany).
  destruct (ArrayPool_AllocMany_room n ap2 ids ap3 Hroom Hmany) as [Hids Hap3].
  eexists _, ap2, ids, ap3, _. split; [exact Hfree|]. split; [|split; [done|split]].
  - replace (Ret (id, ap2)) with (Ret (ArrayPool.alloc ap - 1, ap2))
      by (by rewrite <- Hlast).
    apply (ArrayPool.Alloc_next
             (ArrayPool.mk arr1 (ArrayPool.alloc ap - 1) (ArrayPool.free ap))).
    simpl. lia.
  - rewrite Hids. intros Hmem%elem_of_seqZ. subst ap2. simpl in Hmem. lia.
  - rewrite Hap3. apply ArrayPool.Alloc_range; simpl.
    + subst n. lia.
    + apply size_pos_elem. by exists id.
    + done.
Qed.

(** X17 -- The contiguous [Alloc] keeps what the pool holds.  In a pool
    that satisfies the invariant, with an array shorter than 2^62, for
    every outcome of [Alloc] the array is at least as long as before and
    every index that could be read before the call reads the same value
    after it, also when the array has grown. *)
Theorem apool_Alloc_keeps_contents (ap : ArrayPool.t T) d id ap' :
  ArrayPool.wf ap → len (ArrayPool.arr ap) < 2 ^ 62 →
  ArrayPool.Alloc d ap (Ret (id, ap')) →
  len (ArrayPool.arr ap) ≤ len (ArrayPool.arr ap') ∧
  ∀ j v, ArrayPool.Get ap j = Ret v → ArrayPool.Get ap' j = Ret v.
Proof.
  intros Hwf Hlen Hcall.
  destruct (ArrayPool_Alloc_inv _ _ _ Hwf Hlen Hcall)
    as [(_ & _ & [= _ ->])|[(_ & _ & k & _ & [= _ ->])|(_ & _ & _ & [= _ ->])]];
    simpl; try done.
  split.
  - rewrite len_app. pose proof (len_nonneg (replicate
      (Z.to_nat (ArrayPool.nextCap (len (ArrayPool.arr ap)) - len (ArrayPool.arr ap)))
      (zero : T))). lia.
  - intros j v. unfold ArrayPool.Get. simpl. apply index_app_l.
Qed.

(** X18 -- A new contiguous pool.  [NewArrayPool] panics with "cap is less
    than zero" for a negative capacity, and in [make] for the largest
    [int], where [cap++] wraps around.  For every other capacity it
    returns a pool that satisfies the invariant, whose array has
    [cap + 1] slots that all read the zero value, with no live index; the
    first [cap] calls of [Alloc] run to their end, hand out 1 to [cap] in
    order and leave the array as it is. *)
Theorem NewArrayPool_cases (cap : Z) :
  (cap < 0 → ArrayPool.NewArrayPool (T:=T) cap = Panic CapLessThanZero) ∧
  (cap = 2 ^ 63 - 1 →
     ArrayPool.NewArrayPool (T:=T) cap = Panic MakeLenOutOfRange) ∧
  (0 ≤ cap < 2 ^ 63 - 1 →
   ∃ ap, ArrayPool.NewArrayPool (T:=T) cap = Ret ap ∧ ArrayPool.wf ap ∧
     len (ArrayPool.arr ap) = cap + 1 ∧
     (∀ j, 0 ≤ j ≤ cap → ArrayPool.Get ap j = Ret zero) ∧
     (∀ j, ¬ ArrayPool.live ap j) ∧
     (∃ ap', ArrayPool.AllocMany (Z.to_nat cap) ap (seqZ 1 cap) ap') ∧
     (∀ ids ap', ArrayPool.AllocMany (Z.to_nat cap) ap ids ap' →
                 ids = seqZ 1 cap ∧ ArrayPool.arr ap' = ArrayPool.arr ap)).
Proof.
  split; [|split].
  - intros Hneg. unfold ArrayPool.NewArrayPool.
    destruct (Z.ltb_spec cap 0); [done|lia].
  - intros ->. reflexivity.
  - intros Hcap.
    destruct (NewArrayPool_wf (T:=T) cap Hcap)
      as (ap & Hnew & Hwf & Halloc & Hfree & Hlen).
    exists ap. split; [done|]. split; [done|]. split; [done|].
    assert (ArrayPool.arr ap = replicate (Z.to_nat (cap + 1)) zero) as Harr.
    { unfold ArrayPool.NewArrayPool in Hnew.
      destruct (Z.ltb_spec cap 0); [lia|].
      rewrite wrap_int_small in Hnew by lia. rewrite make_Ret in Hnew by lia.
      simpl in Hnew. by injection Hnew as <-. }
    assert (ArrayPool.alloc ap + Z.of_nat (Z.to_nat cap) ≤ len (ArrayPool.arr ap))
      as Hroom by lia.
    split; [|split; [|split]].
    + intros j Hj. unfold ArrayPool.Get. rewrite Harr.
      apply index_Ret; [lia|]. apply lookup_replicate_2. lia.
    + intros j [Hj _]. lia.
    + destruct (ArrayPool_AllocMany_room_total _ ap Hroom) as (ids & ap' & Hmany).
      destruct (ArrayPool_AllocMany_room _ ap ids ap' Hroom Hmany) as [Hids _].
      exists ap'. rewrite Hids, Halloc, Z2Nat.id in Hmany by lia. done.
    + intros ids ap' Hmany.
      destruct (ArrayPool_AllocMany_room _ ap ids ap' Hroom Hmany) as [-> ->].
      rewrite Halloc, Z2Nat.id by lia. done.
Qed.

(** X19 -- The contiguous [Alloc] hands out zeroed slots.  In every pool
    of a caller that writes to and releases only live indices, the slots
    that are not live hold the zero value, and so the index that [Alloc]
    hands out reads the zero value. *)
Theorem apool_Alloc_zero_slot (ap : ArrayPool.t T) d id ap' :
  ArrayPool.used ap → ArrayPool.Alloc d ap (Ret (id, ap')) →
  ArrayPool.clean ap ∧ ArrayPool.clean ap' ∧
  ArrayPool.Get ap' id = Ret zero.
Proof.
  intros Hused Hcall.
  destruct (ArrayPool_used_inv ap Hused) as (Hwf & Hbound & Hclean).
  destruct (ArrayPool_Alloc_clean _ _ _ _ Hwf Hbound Hclean Hcall)
    as (_ & Hclean' & Hslot).
  split; [done|]. split; [done|].
  destruct (ArrayPool_Alloc_cases _ _ _ _ Hwf Hcall)
    as [(-> & _)|(Hin & _)].
  - apply index_Ret; [|done]. pose proof (ArrayPool.wf_alloc _ Hwf). lia.
  - apply index_Ret; [|done]. pose proof (Hbound id Hin) as Hid. simpl in Hid. lia.
Qed.


End ArrayPoolProperties.

Section ReachableProperties.
Context {T : Type} `{Zero T}.

(** X21 -- The list invariant in use.  Every list a caller can build (of a
    segment size up to 2^32) satisfies the invariant.  Its count is not
    negative, every index below the count can be read, and its segments
    hold room for the elements and for less than two segments more. *)
Theorem list_reachable_invariant (al : ArrayList.t T) :
  ArrayList.reachable al →
  ArrayList.wf al ∧ 0 ≤ ArrayList.Count al ∧
  (∀ idx, 0 ≤ idx < ArrayList.Count al → ∃ v, ArrayList.Get al idx = Ret v) ∧
  ArrayList.Count al ≤ len (ArrayList.segments al) * ArrayList.segmentSize al
    ≤ ArrayList.Count al + 2 * ArrayList.segmentSize al.
Proof.
  intros Hreach. pose proof (ArrayList_reachable_wf al Hreach) as Hwf.
  pose proof (wf_count_nonneg _ Hwf) as Hc. pose proof (wf_size_pos _ Hwf) as Hs.
  unfold ArrayList.Count. split; [done|]. split; [done|]. split.
  - intros idx Hidx. destruct (Get_load al idx Hwf Hidx) as (v & Hget & _).
    by exists v.
  - pose proof (ArrayList.wf_count _ Hwf) as Hcount.
    pose proof (ArrayList.wf_idx _ Hwf) as Hidx.
    destruct (decide (len (ArrayList.segments al) = 0)) as [Hnil|Hne].
    + destruct (ArrayList.wf_nil _ Hwf Hnil) as [_ ->]. rewrite Hnil. lia.
    + pose proof (ArrayList.wf_len _ Hwf Hne) as Hlen. nia.
Qed.

(** X22 -- The segmented pool does not panic.  In every pool a caller can
    build (of a segment size up to 2^32), [Alloc] has an outcome, every
    outcome of [Alloc] is a returned index, and [Free] returns for every
    index, valid or not. *)
Theorem pool_operations_return (p : Pool.t T) :
  Pool.reachable p →
  (∃ id ref p', Pool.Alloc p (Ret (id, ref, p'))) ∧
  (∀ r, Pool.Alloc p r → ∃ id ref p', r = Ret (id, ref, p') ∧ Pool.reachable p') ∧
  (∀ id, ∃ p', Pool.Free id p = Ret p' ∧ Pool.reachable p').
Proof.
  intros Hreach. pose proof (Pool_reachable_wf p Hreach) as Hwf.
  split; [by apply Pool_Alloc_total|]. split.
  - intros r Hcall.
    assert (∃ id ref p', r = Ret (id, ref, p')) as (id & ref & p' & ->).
    { destruct Hcall as [k _ Hk|_].
      - destruct (Pool_reuse_spec p k Hwf Hk) as [-> _]. by eexists _, _, _.
      - destruct (Pool_extend_spec p Hwf) as (al & -> & _). by eexists _, _, _. }
    eexists _, _, _. split; [done|]. by econstructor.
  - intros id. destruct (Pool_Free_spec p id Hwf) as (p' & Hfree & _).
    exists p'. split; [done|]. by econstructor.
Qed.

(** X23 -- The sentinel of the contiguous pool.  In every pool a caller
    can build, whatever it releases and as long as it writes only to
    positive indices: the allocation pointer lies behind the sentinel and
    within the array, index 0 reads the zero value, [Free] of index 0
    panics, and no outcome of [Alloc] is index 0. *)
Theorem apool_sentinel_kept (ap : ArrayPool.t T) :
  ArrayPool.reachable ap →
  1 ≤ ArrayPool.alloc ap ≤ len (ArrayPool.arr ap) ∧
  ArrayPool.Get ap 0 = Ret zero ∧
  ArrayPool.Free 0 ap = Panic (FreeInvalidId 0 (ArrayPool.alloc ap)) ∧
  (∀ d id ap', ArrayPool.Alloc d ap (Ret (id, ap')) → 0 < id).
Proof.
  intros Hreach. pose proof (ArrayPool_reachable_wf ap Hreach) as [Halloc Hsent].
  pose proof (ArrayPool_reachable_free_pos ap Hreach) as Hpos.
  split; [done|]. split; [by apply index_Ret|].
  split; [apply ArrayPool_Free_invalid; lia|].
  intros d id ap' Hcall.
  destruct (ArrayPool_Alloc_free_subseteq _ _ _ _ Hcall) as [_ [Hk| ->]]; [|lia].
  by apply Hpos.
Qed.

End ReachableProperties.

(** ** The earlier revision of the list *)

Section RevisionProperties.
Context {T : Type} `{Zero T}.

(** X25 -- The earlier revision keeps no spare segment.  Its
    [NewArrayList] panics exactly for a segment size that is not positive.
    Every list that a script of [Add], [RemoveLast], [FastRemoveAt] and
    [Clear] builds from a new list (of a segment size up to 2^32)
    satisfies the invariant of the earlier revision, and its segments hold
    room for the elements and for less than one segment more. *)
Theorem list0_keeps_no_spare :
  (∀ n, ArrayList0.NewArrayList (T:=T) n = None ↔ n ≤ 0) ∧
  (∀ n o0 (script : list (list_op T)) o,
     n ≤ 2 ^ 32 → ArrayList0.NewArrayList n = Some o0 →
     list0_run script o0 = Ret o →
     ArrayList0.wf o ∧
     ArrayList0.Count o
       ≤ len (ArrayList0.segments o) * ArrayList0.segmentSize o
       < ArrayList0.Count o + ArrayList0.segmentSize o).
Proof.
  split.
  - intros n. unfold ArrayList0.NewArrayList.
    destruct (Z.leb_spec n 0); split; (done || lia).
  - intros n o0 script o Hn Hnew Hrun.
    destruct (NewArrayList0_spec n o0 Hn Hnew) as (_ & _ & Hwf0 & Hview).
    destruct (list_run_agree script o0 _ Hwf0 (NewArrayList_wf' n Hn) Hview)
      as [_ Hwf]. clear Hview.
    specialize (Hwf o Hrun). split; [done|].
    pose proof (wf_size_pos _ (ArrayList0.wf_list _ Hwf)) as Hpos.
    pose proof (wf_count_nonneg _ (ArrayList0.wf_list _ Hwf)) as Hc.
    simpl in Hpos, Hc. unfold ArrayList0.Count.
    destruct (decide (len (ArrayList0.segments o) = 0)) as [Hnil|Hne].
    + destruct (ArrayList.wf_nil _ (ArrayList0.wf_list _ Hwf) Hnil) as [_ H0].
      simpl in H0. rewrite Hnil, H0. lia.
    + destruct (wf0_last o Hwf Hne) as (cur & _ & _ & Hcur & Hrange). lia.
Qed.

(** X26 -- The two revisions of the list behave alike.  For a segment size
    from 1 to 2^32 and every script of [Add], [RemoveLast],
    [FastRemoveAt] and [Clear], the run on a new list of the earlier
    revision and the run on a new list of the current revision end in the
    same panic, or in lists with the same count in which [Get] yields the
    same at every index. *)
Theorem list_revisions_agree (n : Z) (o0 : ArrayList0.t T)
    (script : list (list_op T)) :
  n ≤ 2 ^ 32 → ArrayList0.NewArrayList n = Some o0 →
  same_outcome (list0_run script o0)
    (list_run script (ArrayList.NewArrayList n)).
Proof.
  intros Hn Hnew.
  destruct (NewArrayList0_spec n o0 Hn Hnew) as (_ & _ & Hwf0 & Hview).
  by destruct (list_run_agree script o0 _ Hwf0 (NewArrayList_wf' n Hn) Hview).
Qed.

End RevisionProperties.

(** * The theorems at concrete states *)

(** C1 at [pool3] (index 1 holds 20) and at [apool3] (index 2 holds 20). *)
Lemma reset_on_free_witness :
  (∃ p', Pool.Free 1 pool3 = Ret p' ∧ ArrayList.Get (Pool.items p') 1 = Ret 0) ∧
  (∃ ap', ArrayPool.Free 2 apool3 = Ret ap' ∧ ArrayPool.Get ap' 2 = Ret 0).
Proof.
  destruct (reset_on_free (T:=Z)) as [Hpool Hap].
  split.
  - destruct (Hpool pool3 1) as (p' & Hfree & Hget & _).
    + by_evaluation.
    + simpl. lia.
    + by_evaluation.
    + exists p'. split; [exact Hfree|exact Hget].
  - destruct (Hap apool3 2) as (ap' & z & Hfree & _ & Hget & Hz).
    + by_evaluation.
    + simpl. lia.
    + exists ap'. split; [exact Hfree|]. rewrite Hget, Hz. reflexivity.
Defined.

(** C2 at [pool3], whose free set is {0}. *)
Lemma segmented_pool_alloc_order_witness :
  ∃ k, k ∈ Pool.frees pool3 ∧
       ArrayList.GetRef (Pool.items pool3) k =
         Ret (ArrayList.Ptr (Z.shiftr k 2) (Z.land k 3)) ∧
       Pool.reuse 0 pool3 =
         Ret (k, ArrayList.Ptr (Z.shiftr k 2) (Z.land k 3),
              Pool.mk (Pool.frees pool3 ∖ {[k]}) (Pool.items pool3)).
Proof.
  destruct (segmented_pool_alloc_order (T:=Z)) as (Hcall & _).
  destruct (Hcall pool3 (Pool.reuse 0 pool3)) as (Hreuse & _).
  - by_evaluation.
  - apply Pool.Alloc_range; by_evaluation.
  - apply Hreuse. by_evaluation.
Defined.

(** C3 at [pool3] and [apool3]: index 1 on the free-set path, index 3 on
    the fast path. *)
Lemma release_idempotent_witness :
  (∃ p', Pool.Free 1 pool3 = Ret p' ∧ Pool.Free 1 p' = Ret p') ∧
  (∃ ap', ArrayPool.Free 1 apool3 = Ret ap' ∧ ArrayPool.Free 1 ap' = Ret ap') ∧
  (∃ ap', ArrayPool.Free 3 apool3 = Ret ap' ∧
          ArrayPool.Free 3 ap' = Panic (FreeInvalidId 3 3)).
Proof.
  destruct (release_idempotent (T:=Z)) as (Hpool & Hset & Hfast).
  split; [|split].
  - apply Hpool. by_evaluation.
  - apply Hset; [by_evaluation|simpl; lia].
  - destruct (Hfast apool3 3) as (ap' & Hfree & _ & Hpanic);
      [by_evaluation|lia|reflexivity|].
    exists ap'. split; [exact Hfree|exact Hpanic].
Defined.

(** C3 fails on the fast path of the contiguous pool: index 3 is valid in
    [apool3] and its release returns, but the second release in a row
    aborts instead of leaving the state as it is. *)
Lemma release_idempotent_counterexample :
  ArrayPool.wf apool3 ∧ 0 < 3 < ArrayPool.alloc apool3 ∧
  ArrayPool.Free 3 apool3 = Ret (ArrayPool.mk [0; 10; 20; 0; 0] 3 ∅) ∧
  ArrayPool.Free 3 (ArrayPool.mk [0; 10; 20; 0; 0] 3 ∅) =
    Panic (FreeInvalidId 3 3).
Proof.
  split; [apply apool3_wf|]. split; [simpl; lia|].
  split; vm_compute; reflexivity.
Qed.

(** C4 at [pool_new] (indices 0, 1 released as 1, 0) and at [apool_new]
    (indices 1, 2 released as 2, 1). *)
Lemma round_trip_reuse_witness :
  (∃ p2, Pool.FreeAll [1; 0] pool_two = Ret p2 ∧
         (∃ ids2 p3, Pool.AllocMany 2 p2 ids2 p3) ∧
         ∀ ids2 p3, Pool.AllocMany 2 p2 ids2 p3 → ids2 ≡ₚ [0; 1]) ∧
  (∃ ap2, ArrayPool.FreeAll [2; 1] apool_two = Ret ap2 ∧
          (∃ ids2 ap3, ArrayPool.AllocMany 2 ap2 ids2 ap3) ∧
          ∀ ids2 ap3, ArrayPool.AllocMany 2 ap2 ids2 ap3 → ids2 = [1; 2]).
Proof.
  destruct (round_trip_reuse (T:=Z)) as [Hpool Hap].
  split.
  - destruct (Hpool pool_new 2%nat) as [_ Htrip].
    + by_evaluation.
    + reflexivity.
    + apply (Htrip [0; 1] pool_two [1; 0]).
      * exact pool_two_reached.
      * apply perm_swap.
  - destruct (Hap apool_new 2%nat) as [_ Htrip].
    + by_evaluation.
    + reflexivity.
    + apply (Htrip [1; 2] apool_two). exact apool_two_reached.
Defined.

(** C4 fails for the contiguous pool: on [NewArrayPool(4)] the first batch
    of two is 1, 2; after [Free(1)] and [Free(2)] the allocation pointer is
    2 and the free set is {1}; the second batch can only be 2, 3, since
    [Alloc] bumps the pointer while it is below the array's length. *)
Lemma round_trip_reuse_counterexample :
  ArrayPool.NewArrayPool 4 = Ret apool_new ∧
  ArrayPool.AllocMany 2 apool_new [1; 2] apool_two ∧
  ArrayPool.FreeAll [1; 2] apool_two = Ret apool_freed ∧
  (∃ ap3, ArrayPool.AllocMany 2 apool_freed [2; 3] ap3) ∧
  (∀ ids2 ap3, ArrayPool.AllocMany 2 apool_freed ids2 ap3 → ids2 = [2; 3]) ∧
  ¬ [2; 3] ≡ₚ [1; 2].
Proof.
  split; [reflexivity|]. split; [apply apool_two_reached|].
  split; [apply apool_freed_reached|]. split.
  { eexists. do 2 apool_next. constructor. }
  split.
  { intros ids2 ap3 Hmany.
    by destruct (ArrayPool_AllocMany_room 2 apool_freed ids2 ap3) as [-> _];
      [unfold len; simpl; lia|done|]. }
  intros Hperm. assert (3 ∈ [1; 2]) as Hin.
  { rewrite <- Hperm. apply list_elem_of_In. simpl. tauto. }
  apply list_elem_of_In in Hin. simpl in Hin. lia.
Qed.

(** C5 at [apool3] (room left), [apool_hole] (full, index 2 free) and
    [apool_full] (full, nothing free: the array of 5 grows to 10). *)
Lemma contiguous_alloc_policy_witness :
  ArrayPool.Alloc 1 apool3 (Ret (4, ArrayPool.mk [0; 10; 20; 30; 0] 5 ∅)) ∧
  ArrayPool.Alloc 1 apool_hole (Ret (2, ArrayPool.mk [0; 10; 0; 30; 40] 5 ∅)) ∧
  ArrayPool.Alloc 2 apool_full
    (Ret (5, ArrayPool.mk [0; 10; 20; 30; 40; 0; 0; 0; 0; 0] 6 ∅)).
Proof.
  split; [|split].
  - destruct (contiguous_alloc_policy apool3) as (Hnext & _ & _).
    apply Hnext; [unfold len; simpl; lia|]. split; reflexivity.
  - destruct (contiguous_alloc_policy apool_hole) as (_ & Hrange & _).
    apply Hrange.
    + unfold len; simpl; lia.
    + by_evaluation.
    + split; [reflexivity|]. exists 2. split; [by_evaluation|reflexivity].
  - destruct (contiguous_alloc_policy apool_full) as (_ & _ & Hgrow).
    destruct Hgrow as (ap' & Hret & _ & _ & _ & _ & _ & Hcall).
    + unfold len; simpl; lia.
    + reflexivity.
    + unfold len; simpl; lia.
    + apply Hcall. exists 1%nat. split; [reflexivity|].
      vm_compute in Hret. injection Hret as <-.
      apply (ArrayPool.Alloc_next
               (ArrayPool.mk [0; 10; 20; 30; 40; 0; 0; 0; 0; 0] 5 ∅)).
      unfold len; simpl; lia.
Defined.

(** C6 at [apool3], whose allocation pointer is 4. *)
Lemma contiguous_invalid_free_fatal_witness :
  ArrayPool.Free 4 apool3 = Panic (FreeInvalidId 4 4) ∧
  ArrayPool.Free 0 apool3 = Panic (FreeInvalidId 0 4) ∧
  ∃ ap', ArrayPool.Free 3 apool3 = Ret ap'.
Proof.
  split; [|split].
  - apply (contiguous_invalid_free_fatal apool3 4). simpl. lia.
  - apply (contiguous_invalid_free_fatal apool3 0). simpl. lia.
  - apply (contiguous_invalid_free_fatal apool3 3); [by_evaluation|simpl; lia].
Defined.

(** C7 at [list5]: index 5 is out of bound, index 4 is the first slot of
    the second segment and holds 5. *)
Lemma segmented_index_mapping_witness :
  ArrayList.wf list5 ∧
  ArrayList.Get list5 5 = Panic OutOfBound ∧
  ArrayList.GetRef list5 4 = Ret (ArrayList.Ptr 1 0) ∧
  ArrayList.Get list5 4 = Ret 5.
Proof.
  assert (ArrayList.wf list5) as Hwf by by_evaluation.
  destruct (segmented_index_mapping list5 5 Hwf) as (Hout & _ & _).
  destruct (segmented_index_mapping list5 4 Hwf) as (_ & Hin & _).
  split; [exact Hwf|]. split; [apply Hout; simpl; lia|].
  destruct Hin as (Href & s & v & Hs & Hv & _ & Hget); [simpl; lia|].
  split; [exact Href|]. rewrite Hget. vm_compute in Hs. injection Hs as <-.
  vm_compute in Hv. by injection Hv as <-.
Defined.

(** C8 at [list_drain]: the cursor segment 1 holds one element. *)
Lemma removeLast_shrink_witness :
  ∃ al', ArrayList.RemoveLast list_drain = Ret al' ∧
         ArrayList.segmentIdx al' = 0 ∧ len (ArrayList.segments al') = 2.
Proof.
  assert (ArrayList.wf list_drain) as Hwf by by_evaluation.
  destruct (removeLast_shrink list_drain (Segment.mk [5; 6; 7; 8] 1) Hwf)
    as (al' & Hrm & _ & _ & Hidx & _ & Hlen & _);
    [simpl; lia|reflexivity|reflexivity|].
  exists al'. split; [exact Hrm|]. split; [exact Hidx|exact Hlen].
Defined.

(** C8 fails as stated: in [list_drain] the cursor is segment 1 of three.
    [RemoveLast] drains it and moves the cursor to segment 0, but the
    segment behind the new cursor, segment 1, stays in the list with its
    array; the list is cut to two segments, and the one given up is
    segment 2. *)
Lemma removeLast_shrink_counterexample :
  ∃ al', ArrayList.RemoveLast list_drain = Ret al' ∧
         ArrayList.segmentIdx list_drain = 1 ∧ ArrayList.segmentIdx al' = 0 ∧
         len (ArrayList.segments list_drain) = 3 ∧
         len (ArrayList.segments al') = 2 ∧
         ArrayList.segments al' !! 1%nat = Some (Segment.mk [5; 6; 7; 8] 0).
Proof. eexists. repeat split; vm_compute; reflexivity. Qed.

(** C10 at [apool_full], where [Alloc] has to grow. *)
Lemma contiguous_alloc_terminates_witness :
  10 < ArrayPool.nextCap 10 ∧ 1000 < ArrayPool.nextCap 1000 ∧
  ∃ d id ap', ArrayPool.Alloc d apool_full (Ret (id, ap')) ∧ (d ≤ 2)%nat.
Proof.
  destruct (contiguous_alloc_terminates apool_full) as (Hcap & _ & Hex & Hdepth).
  - by_evaluation.
  - unfold len; simpl; lia.
  - split; [apply Hcap; lia|]. split; [apply Hcap; lia|].
    destruct Hex as (d & id & ap' & Hcall).
    exists d, id, ap'. split; [exact Hcall|].
    destruct (Hdepth d _ Hcall) as [Hd _]. exact Hd.
Defined.

(** * The further properties at concrete states *)

(** X1 at [list5]: a sixth element. *)
Lemma list_Add_appends_witness :
  ∃ p al', ArrayList.Add 6 list5 = Ret (p, al') ∧
           ArrayList.Get al' 5 = Ret 6 ∧ ArrayList.Get al' 4 = Ret 5.
Proof.
  destruct (list_Add_appends list5 6) as (p & al' & Hadd & _ & _ & _ & Hget & Hold);
    [by_evaluation|].
  exists p, al'. split; [exact Hadd|]. split; [exact Hget|].
  rewrite Hold; [reflexivity|simpl; lia].
Defined.

(** X2 at the empty list of segment size 4 and at [list5]. *)
Lemma list_RemoveLast_truncates_witness :
  ArrayList.RemoveLast (ArrayList.NewArrayList (T:=Z) 4) =
    Ret (ArrayList.NewArrayList 4) ∧
  ∃ al', ArrayList.RemoveLast list5 = Ret al' ∧ ArrayList.Count al' = 4 ∧
         ArrayList.Get al' 3 = Ret 4 ∧ ArrayList.Get al' 4 = Panic OutOfBound.
Proof.
  split.
  - apply (list_RemoveLast_truncates (ArrayList.NewArrayList (T:=Z) 4));
      [by_evaluation|simpl; lia].
  - destruct (list_RemoveLast_truncates list5) as [_ Hrm]; [by_evaluation|].
    destruct Hrm as (al' & Hrm & _ & Hcnt & Hold & Hout); [simpl; lia|].
    exists al'. split; [exact Hrm|]. split; [exact Hcnt|].
    split; [|exact Hout]. rewrite Hold; [reflexivity|simpl; lia].
Defined.

(** X3 at [list5]: the fifth element, 5, is back. *)
Lemma list_RemoveLast_Alloc_restores_witness :
  ∃ al1 p al2, ArrayList.RemoveLast list5 = Ret al1 ∧
               ArrayList.Alloc al1 = Ret (p, al2) ∧
               p = ArrayList.Ptr 1 0 ∧ ArrayList.Get al2 4 = Ret 5.
Proof.
  destruct (list_RemoveLast_Alloc_restores list5)
    as (al1 & p & al2 & Hrm & Halloc & Hp & _ & Hget);
    [by_evaluation|simpl; lia|].
  exists al1, p, al2. split; [exact Hrm|]. split; [exact Halloc|].
  split; [|rewrite Hget; reflexivity].
  vm_compute in Hp. by injection Hp as <-.
Defined.

(** X4 at [list5]: removing index 1 puts the last element, 5, there. *)
Lemma list_FastRemoveAt_swaps_witness :
  ∃ al', ArrayList.FastRemoveAt list5 1 = Ret al' ∧ ArrayList.Count al' = 4 ∧
         ArrayList.Get al' 1 = Ret 5 ∧ ArrayList.Get al' 0 = Ret 1 ∧
         ∃ p al'', ArrayList.Alloc al' = Ret (p, al'') ∧
                   ArrayList.Get al'' 4 = Ret 0.
Proof.
  destruct (list_FastRemoveAt_swaps list5 1)
    as (al' & Hrm & _ & Hcnt & Hget & Hnext); [by_evaluation|simpl; lia|].
  exists al'. split; [exact Hrm|]. split; [exact Hcnt|].
  split; [rewrite Hget; [reflexivity|simpl; lia]|].
  split; [rewrite Hget; [reflexivity|simpl; lia]|].
  exact Hnext.
Defined.

(** X5 at [list5] and at the empty list of segment size 4. *)
Lemma list_index_errors_witness :
  ArrayList.Get list5 (-1) = Panic IndexOutOfRange ∧
  ArrayList.FastRemoveAt (ArrayList.NewArrayList (T:=Z) 4) 0 =
    Panic IndexOutOfRange ∧
  ArrayList.FastRemoveAt list5 7 = Panic OutOfBound ∧
  ArrayList.FastRemoveAt list5 (-1) = Panic IndexOutOfRange.
Proof.
  destruct (list_index_errors list5 (-1)) as (Hneg & _ & _ & Hrm);
    [by_evaluation|].
  destruct (list_index_errors list5 7) as (_ & _ & Hout & _); [by_evaluation|].
  destruct (list_index_errors (ArrayList.NewArrayList (T:=Z) 4) 0)
    as (_ & Hempty & _); [by_evaluation|].
  split; [apply Hneg; lia|]. split; [apply Hempty; reflexivity|].
  split; [apply Hout; simpl; lia|apply Hrm; simpl; lia].
Defined.

(** X6 at [list5], built from [NewArrayList(4)]. *)
Lemma list_Clear_resets_witness :
  ArrayList.Clear list5 = ArrayList.NewArrayList 4.
Proof.
  apply (list_Clear_resets 4 list5).
  apply (ArrayList_reaches_AddN 5 1 _ (ArrayList.NewArrayList 4));
    [constructor|exact list5_reached].
Defined.

(** X7 for the segment sizes 5 and 0. *)
Lemma NewArrayList_geometry_witness :
  ArrayList.segmentSize (ArrayList.NewArrayList (T:=Z) 5) = 8 ∧
  round_up_pow2 5 (ArrayList.segmentSize (ArrayList.NewArrayList (T:=Z) 5)) ∧
  round_up_pow2 128 (ArrayList.segmentSize (ArrayList.NewArrayList (T:=Z) 0)).
Proof.
  destruct (NewArrayList_geometry (T:=Z) 5) as (Hround5 & _); [lia|].
  destruct (NewArrayList_geometry (T:=Z) 0) as (Hround0 & _); [lia|].
  split; [reflexivity|]. split; [exact Hround5|exact Hround0].
Defined.

(** X8 for 5, which rounds to 8, and for 8. *)
Lemma NearestPowerOf2_within_32_bits_witness :
  round_up_pow2 5 (ArrayList.NearestPowerOf2 5) ∧
  ArrayList.NearestPowerOf2 5 < 10 ∧ ArrayList.NearestPowerOf2 8 = 8.
Proof.
  destruct NearestPowerOf2_within_32_bits as [Hround _].
  destruct (Hround 5) as (H5 & Hlt & _); [lia|].
  destruct (Hround 8) as (_ & _ & H8); [lia|].
  split; [exact H5|]. split; [exact Hlt|]. apply H8. by exists 3.
Defined.

(** X9 at [pool3]: indices 1 and 2 are live. *)
Lemma pool_Count_counts_live_witness :
  Pool.Count pool3 = Z.of_nat (size (Pool.live_set pool3)) ∧
  Pool.Count pool3 = 2 ∧ (1 ∈ Pool.live_set pool3 ↔ Pool.live pool3 1).
Proof.
  destruct (pool_Count_counts_live pool3) as (Hcount & Hlive & _);
    [by_evaluation|].
  split; [exact Hcount|]. split; [reflexivity|apply Hlive].
Defined.

(** X10 at [pool3]: index 0 is reused. *)
Lemma pool_Alloc_hands_out_unused_witness :
  ∃ p', Pool.Alloc pool3 (Ret (0, ArrayList.Ptr 0 0, p')) ∧
        Pool.live p' 0 ∧ Pool.Count p' = 3 ∧
        ArrayList.Get (Pool.items p') 1 = Ret 20.
Proof.
  assert (Pool.wf pool3) as Hwf by by_evaluation.
  assert (Pool.Alloc pool3 (Pool.reuse 0 pool3)) as Hcall
    by (apply Pool.Alloc_range; by_evaluation).
  destruct (Pool_reuse_spec pool3 0) as [Heq _]; [exact Hwf|by_evaluation|].
  rewrite Heq in Hcall.
  destruct (pool_Alloc_hands_out_unused pool3 _ _ _ Hwf Hcall)
    as (_ & Hlive & _ & Hcount & _ & Hold).
  eexists. split; [exact Hcall|]. split; [exact Hlive|].
  split; [rewrite Hcount; reflexivity|].
  rewrite Hold; [reflexivity|simpl; lia].
Defined.

(** X11 at [pool3]: index 0 is free already, index 1 is live. *)
Lemma pool_Free_releases_witness :
  Pool.Free 0 pool3 = Ret pool3 ∧
  ∃ p', Pool.Free 1 pool3 = Ret p' ∧ Pool.Count p' = 1 ∧
        ArrayList.Get (Pool.items p') 2 = Ret 30.
Proof.
  assert (Pool.wf pool3) as Hwf by by_evaluation.
  split.
  - apply (pool_Free_releases pool3 0 Hwf).
    intros [_ Hout]. apply Hout. by_evaluation.
  - destruct (pool_Free_releases pool3 1 Hwf) as [_ Hfree].
    destruct Hfree as (p' & Hfree & _ & _ & _ & Hcount & Hold).
    { split; [simpl; lia|by_evaluation]. }
    exists p'. split; [exact Hfree|]. split; [rewrite Hcount; reflexivity|].
    rewrite Hold; [reflexivity|lia].
Defined.

(** X12 at [pool3]. *)
Lemma pool_Clear_restarts_witness :
  Pool.Count (Pool.Clear pool3) = 0 ∧
  ∀ r, Pool.Alloc (Pool.Clear pool3) r → ∃ ref p', r = Ret (0, ref, p').
Proof.
  destruct (pool_Clear_restarts pool3) as (_ & Hcount & _ & _ & Hzero);
    [by_evaluation|].
  split; [exact Hcount|]. intros r Hcall.
  destruct (Hzero r Hcall) as (ref & p' & Hr & _). by exists ref, p'.
Defined.

(** X13 at [pool3]: index 0 held 10 before it was released. *)
Lemma pool_Alloc_zero_slot_witness :
  ∃ p', Pool.Alloc pool3 (Ret (0, ArrayList.Ptr 0 0, p')) ∧
        ArrayList.Get (Pool.items p') 0 = Ret 0.
Proof.
  assert (Pool.Alloc pool3 (Pool.reuse 0 pool3)) as Hcall
    by (apply Pool.Alloc_range; by_evaluation).
  destruct (Pool_reuse_spec pool3 0) as [Heq _]; [by_evaluation|by_evaluation|].
  rewrite Heq in Hcall.
  destruct (pool_Alloc_zero_slot pool3 _ _ _ pool3_used Hcall) as (_ & _ & _ & Hget).
  eexists. split; [exact Hcall|exact Hget].
Defined.

(** X14 at [apool_hole]: the array is full and index 2 is free. *)
Lemma apool_Alloc_hands_out_unused_witness :
  1 ≤ 2 < len (ArrayPool.arr apool_hole) ∧
  ¬ ArrayPool.live apool_hole 2 ∧
  ArrayPool.live (ArrayPool.mk [0; 10; 0; 30; 40] 5 ∅) 2.
Proof.
  destruct (apool_Alloc_hands_out_unused apool_hole 1 2
              (ArrayPool.mk [0; 10; 0; 30; 40] 5 ∅))
    as (Hid & Hdead & Hlive & _).
  - by_evaluation.
  - unfold ArrayPool.free_bounded. by_evaluation.
  - apply (ArrayPool.Alloc_range apool_hole 2);
      [unfold len; simpl; lia|by_evaluation|by_evaluation].
  - split; [exact Hid|]. split; [exact Hdead|exact Hlive].
Defined.

(** X15 at [apool3]: index 2 holds 20. *)
Lemma apool_Free_releases_witness :
  ∃ ap', ArrayPool.Free 2 apool3 = Ret ap' ∧ ArrayPool.Get ap' 2 = Ret 0 ∧
         ArrayPool.Get ap' 1 = Ret 10 ∧ ¬ ArrayPool.live ap' 2.
Proof.
  destruct (apool_Free_releases apool3 2)
    as (ap' & Hfree & _ & _ & Hdead & _ & Hzero & Hold).
  - by_evaluation.
  - unfold ArrayPool.free_bounded. by_evaluation.
  - split; [simpl; lia|by_evaluation].
  - exists ap'. split; [exact Hfree|]. split; [exact Hzero|].
    split; [rewrite Hold; [reflexivity|lia]|exact Hdead].
Defined.

(** X16 at [apool_stale]: index 2 is handed out, then index 3, then
    index 2 again. *)
Lemma apool_second_free_hands_out_twice_witness :
  ArrayPool.used apool_stale ∧
  ∃ ap1 ap2 ids ap3 ap4,
    ArrayPool.Free 2 apool_stale = Ret ap1 ∧
    ArrayPool.Alloc 1 ap1 (Ret (2, ap2)) ∧
    ArrayPool.AllocMany 1 ap2 ids ap3 ∧ (2 ∉ ids) ∧
    ArrayPool.Alloc 1 ap3 (Ret (2, ap4)).
Proof.
  split; [exact apool_stale_used|].
  apply (apool_second_free_hands_out_twice apool_stale 2);
    [by_evaluation|lia|reflexivity|by_evaluation].
Defined.

(** X17 at [apool_full], where [Alloc] has to grow the array. *)
Lemma apool_Alloc_keeps_contents_witness :
  ArrayPool.Alloc 2 apool_full
    (Ret (5, ArrayPool.mk [0; 10; 20; 30; 40; 0; 0; 0; 0; 0] 6 ∅)) ∧
  ArrayPool.Get (ArrayPool.mk [0; 10; 20; 30; 40; 0; 0; 0; 0; 0] 6 ∅) 3 = Ret 30.
Proof.
  assert (ArrayPool.Alloc 2 apool_full
            (Ret (5, ArrayPool.mk [0; 10; 20; 30; 40; 0; 0; 0; 0; 0] 6 ∅)))
    as Hcall.
  { eapply (ArrayPool.Alloc_retry apool_full
              (ArrayPool.mk [0; 10; 20; 30; 40; 0; 0; 0; 0; 0] 5 ∅)).
    - unfold len; simpl; lia.
    - by_evaluation.
    - reflexivity.
    - apply (ArrayPool.Alloc_next
               (ArrayPool.mk [0; 10; 20; 30; 40; 0; 0; 0; 0; 0] 5 ∅)).
      unfold len; simpl; lia. }
  split; [exact Hcall|].
  destruct (apool_Alloc_keeps_contents apool_full 2 5
              (ArrayPool.mk [0; 10; 20; 30; 40; 0; 0; 0; 0; 0] 6 ∅))
    as [_ Hkeep]; [by_evaluation|unfold len; simpl; lia|exact Hcall|].
  apply Hkeep. reflexivity.
Defined.

(** X18 for the capacities -1 and 4. *)
Lemma NewArrayPool_cases_witness :
  ArrayPool.NewArrayPool (T:=Z) (-1) = Panic CapLessThanZero ∧
  ∃ ap, ArrayPool.NewArrayPool (T:=Z) 4 = Ret ap ∧
        len (ArrayPool.arr ap) = 5 ∧
        ∃ ap', ArrayPool.AllocMany 4 ap [1; 2; 3; 4] ap'.
Proof.
  destruct (NewArrayPool_cases (T:=Z) (-1)) as (Hneg & _).
  destruct (NewArrayPool_cases (T:=Z) 4) as (_ & _ & Hnew).
  split; [apply Hneg; lia|].
  destruct Hnew as (ap & Hret & _ & Hlen & _ & _ & Hmany & _); [lia|].
  exists ap. split; [exact Hret|]. split; [exact Hlen|exact Hmany].
Defined.

(** X19 at [apool_hole]: index 2 held 20 before it was released. *)
Lemma apool_Alloc_zero_slot_witness :
  ArrayPool.Alloc 1 apool_hole (Ret (2, ArrayPool.mk [0; 10; 0; 30; 40] 5 ∅)) ∧
  ArrayPool.Get (ArrayPool.mk [0; 10; 0; 30; 40] 5 ∅) 2 = Ret 0.
Proof.
  assert (ArrayPool.Alloc 1 apool_hole
            (Ret (2, ArrayPool.mk [0; 10; 0; 30; 40] 5 ∅))) as Hcall.
  { apply (ArrayPool.Alloc_range apool_hole 2);
      [unfold len; simpl; lia|by_evaluation|by_evaluation]. }
  split; [exact Hcall|].
  destruct apool_hole_used as [_ Hused].
  by destruct (apool_Alloc_zero_slot apool_hole _ _ _ Hused Hcall) as (_ & _ & Hget).
Defined.


(** X21 at [list5]. *)
Lemma list_reachable_invariant_witness :
  ArrayList.wf list5 ∧
  ArrayList.Count list5 ≤ len (ArrayList.segments list5) * 4
    ≤ ArrayList.Count list5 + 2 * 4.
Proof.
  destruct (list_reachable_invariant list5 list5_reachable) as (Hwf & _ & _ & Hroom).
  split; [exact Hwf|exact Hroom].
Defined.

(** X22 at [pool3]: also [Free] of an index outside the list returns. *)
Lemma pool_operations_return_witness :
  (∃ id ref p', Pool.Alloc pool3 (Ret (id, ref, p'))) ∧
  ∃ p', Pool.Free 34 pool3 = Ret p'.
Proof.
  destruct (pool_operations_return pool3) as (Halloc & _ & Hfree).
  - apply Pool_used_reachable, pool3_used.
  - split; [exact Halloc|].
    destruct (Hfree 34) as (p' & Hret & _). by exists p'.
Defined.

(** X23 at [apool_hole]. *)
Lemma apool_sentinel_kept_witness :
  ArrayPool.Get apool_hole 0 = Ret 0 ∧
  ArrayPool.Free 0 apool_hole = Panic (FreeInvalidId 0 5).
Proof.
  destruct (apool_sentinel_kept apool_hole) as (_ & Hget & Hfree & _).
  - apply ArrayPool_used_reachable. by destruct apool_hole_used.
  - split; [exact Hget|exact Hfree].
Defined.

(** X24 at [list_drain], which has a spare segment, and at [list_full]. *)
Lemma list_Alloc_reuses_spare_witness :
  (∃ p al', ArrayList.Alloc list_drain = Ret (p, al') ∧
            len (ArrayList.segments al') = 3) ∧
  (∃ p al', ArrayList.Alloc list_full = Ret (p, al') ∧
            len (ArrayList.segments al') = 2).
Proof.
  split.
  - destruct (list_Alloc_reuses_spare list_drain)
      as (p & al' & Halloc & _ & _ & _ & _ & Hlen); [by_evaluation|].
    exists p, al'. split; [exact Halloc|exact Hlen].
  - destruct (list_Alloc_reuses_spare list_full)
      as (p & al' & Halloc & _ & _ & _ & _ & Hlen); [by_evaluation|].
    exists p, al'. split; [exact Halloc|exact Hlen].
Defined.

(** X25 for the script of the list's test: 23 elements in six segments
    of four. *)
Lemma list0_keeps_no_spare_witness :
  ArrayList0.NewArrayList (T:=Z) 0 = None ∧
  ∃ o, list0_run script_test (ArrayList0.mk 0 0 [] 4 3 2) = Ret o ∧
       ArrayList0.wf o ∧ ArrayList0.Count o = 23 ∧
       len (ArrayList0.segments o) = 6.
Proof.
  destruct (list0_keeps_no_spare (T:=Z)) as [Hnone Hrun].
  split; [apply Hnone; lia|].
  destruct (list0_run script_test (ArrayList0.mk 0 0 [] 4 3 2)) as [o|e] eqn:Ho;
    [|by vm_compute in Ho].
  exists o. split; [reflexivity|].
  assert (4 ≤ 2 ^ 32) as Hn by lia.
  destruct (Hrun 4 (ArrayList0.mk 0 0 [] 4 3 2) script_test o Hn eq_refl Ho)
    as [Hwf _].
  split; [exact Hwf|]. clear Hwf.
  vm_compute in Ho. injection Ho as <-. split; reflexivity.
Defined.

(** X26 for the script of the list's test and for a removal from an empty
    list, where both revisions fail in the run-time check. *)
Lemma list_revisions_agree_witness :
  same_outcome (list0_run script_test (ArrayList0.mk 0 0 [] 4 3 2))
    (list_run script_test (ArrayList.NewArrayList 4)) ∧
  list0_run [OpFastRemoveAt 0] (ArrayList0.mk (0 : Z) 0 [] 4 3 2) =
    Panic IndexOutOfRange ∧
  list_run [OpFastRemoveAt 0] (ArrayList.NewArrayList (T:=Z) 4) =
    Panic IndexOutOfRange.
Proof.
  split; [|split; reflexivity].
  apply (list_revisions_agree 4 (ArrayList0.mk 0 0 [] 4 3 2) script_test);
    [lia|reflexivity].
Defined.
